(** * Speech-to-sign pipeline: Cleaner, Glossifier, Streamer

    Shallow embedding of
      - [src/speech_to_sign/clean_transcript.py]     (module [Cleaner]),
      - [src/speech_to_sign/glossify_transcript.py]  (module [Glossifier]),
      - [src/speech_to_sign/stream_queue_assets.py]  (module [Streamer]),
    together with the Python primitives they rely on (module [Py]) and the
    JSON values they exchange (module [Json]).

    Scope of the model.  Text is a [string] of ASCII characters: code points
    from 128 on are carried along as opaque characters that are neither
    whitespace nor letters.  JSON numbers are integers; the playback rate and
    the clock readings are IEEE binary64 values ([PrimFloat.float]), as in
    Python. *)

From Stdlib Require Import String Ascii List ZArith QArith Qabs Lia Bool Floats.
From Equations Require Import Equations.
From Equations.Prop Require Import Logic.
Import ListNotations.

Set Warnings "-abstract-large-number,-register-all".

Close Scope Q_scope.
Open Scope nat_scope.
Open Scope list_scope.
Open Scope string_scope.

(* ===================================================================== *)
(** * Python primitives *)
(* ===================================================================== *)

Module Py.

(** Exceptions that the modelled code can let escape. *)
Inductive exn : Type :=
| AttributeError
| TypeError
| ValueError
| OverflowError
| ZeroDivisionError.

(** A computation that returns a value or raises. *)
Inductive result (A : Type) : Type :=
| Ok (a : A)
| Raise (e : exn).
Arguments Ok {A} a.
Arguments Raise {A} e.

Definition bind {A B : Type} (m : result A) (k : A -> result B) : result B :=
  match m with
  | Ok a => k a
  | Raise e => Raise e
  end.

(** ** Characters *)

(** [str.isspace] and the regex class [\s], on ASCII. *)
Definition is_space (c : ascii) : bool :=
  let n := nat_of_ascii c in
  (Nat.leb 9 n && Nat.leb n 13) || (Nat.leb 28 n && Nat.leb n 32).

Definition is_upper (c : ascii) : bool :=
  let n := nat_of_ascii c in Nat.leb 65 n && Nat.leb n 90.

Definition is_lower (c : ascii) : bool :=
  let n := nat_of_ascii c in Nat.leb 97 n && Nat.leb n 122.

Definition is_digit (c : ascii) : bool :=
  let n := nat_of_ascii c in Nat.leb 48 n && Nat.leb n 57.

Definition lower_char (c : ascii) : ascii :=
  if is_upper c then ascii_of_nat (nat_of_ascii c + 32) else c.

Definition upper_char (c : ascii) : ascii :=
  if is_lower c then ascii_of_nat (nat_of_ascii c - 32) else c.

(** ** Strings *)

Fixpoint map_string (f : ascii -> ascii) (s : string) : string :=
  match s with
  | EmptyString => EmptyString
  | String c r => String (f c) (map_string f r)
  end.

(** [s.lower()] and [s.upper()]. *)
Definition lower (s : string) : string := map_string lower_char s.
Definition upper (s : string) : string := map_string upper_char s.

(** Truth value of a string: [if s:]. *)
Definition nonempty (s : string) : bool :=
  match s with
  | EmptyString => false
  | String _ _ => true
  end.

(** [s.lstrip()], [s.rstrip()], [s.strip()]. *)
Fixpoint lstrip (s : string) : string :=
  match s with
  | EmptyString => EmptyString
  | String c r => if is_space c then lstrip r else s
  end.

Fixpoint rstrip (s : string) : string :=
  match s with
  | EmptyString => EmptyString
  | String c r =>
      match rstrip r with
      | EmptyString => if is_space c then EmptyString else String c EmptyString
      | r' => String c r'
      end
  end.

Definition strip (s : string) : string := rstrip (lstrip s).

(** [re.compile(r"\s+").sub(" ", s)]: every maximal run of whitespace
    becomes one space.  [in_run] tells that the previous character belonged
    to a run that was already replaced. *)
Fixpoint sub_space_from (in_run : bool) (s : string) : string :=
  match s with
  | EmptyString => EmptyString
  | String c r =>
      if is_space c
      then if in_run then sub_space_from true r
           else String " " (sub_space_from true r)
      else String c (sub_space_from false r)
  end.

Definition sub_space (s : string) : string := sub_space_from false s.

(** [c in s] for a character. *)
Fixpoint has_char (c : ascii) (s : string) : bool :=
  match s with
  | EmptyString => false
  | String x r => Ascii.eqb x c || has_char c r
  end.

(** [s.split(sep, 1)] when [sep in s]: the text before the first [sep] and
    the text after it; [None] when [sep] does not occur. *)
Fixpoint split_once (sep : ascii) (s : string) : option (string * string) :=
  match s with
  | EmptyString => None
  | String c r =>
      if Ascii.eqb c sep then Some (EmptyString, r)
      else match split_once sep r with
           | Some (a, b) => Some (String c a, b)
           | None => None
           end
  end.

(** [s[k:]] for [0 <= k]. *)
Fixpoint drop (k : nat) (s : string) : string :=
  match k, s with
  | O, _ => s
  | S k', EmptyString => EmptyString
  | S k', String _ r => drop k' r
  end.

(** [s[-n:]] for [0 < n]: the last [n] characters, the whole string when it
    is shorter. *)
Definition last_chars (n : nat) (s : string) : string :=
  drop (String.length s - n) s.

(** ** [collections.deque(maxlen=n)] *)

(** [d.append(x)] on a deque bounded by [maxlen]: when the deque is full the
    oldest element (the head) is discarded. *)
Definition deque_append {A : Type} (maxlen : nat) (d : list A) (x : A) : list A :=
  if Nat.leb maxlen (List.length d) then List.tl d ++ [x] else d ++ [x].

(** [d[-1]]. *)
Definition deque_last {A : Type} (d : list A) : option A :=
  List.last (List.map Some d) None.

(** ** Floats *)

(** Conversion of a Python [int] to [float]: round to nearest, ties to even;
    [OverflowError] when the integer is out of the binary64 range. *)
Definition float_of_int (z : Z) : result float :=
  match binary_normalize prec emax z 0 false with
  | S754_infinity _ => Raise OverflowError
  | sf => Ok (SF2Prim sf)
  end.

(** [max(a, b)] on floats: [b] when [b > a], else [a]. *)
Definition max2 (a b : float) : float :=
  if PrimFloat.ltb a b then b else a.

(** [x / y] on floats. *)
Definition truediv (x y : float) : result float :=
  if PrimFloat.eqb y PrimFloat.zero then Raise ZeroDivisionError
  else Ok (PrimFloat.div x y).

(** Nearest integer of [m * 2^e] for [m > 0], ties to the even integer. *)
Definition round_half_even (m : positive) (e : Z) : Z :=
  if (0 <=? e)%Z then (Z.pos m * 2 ^ e)%Z
  else
    let d := (2 ^ (- e))%Z in
    let q := (Z.pos m / d)%Z in
    let r := (Z.pos m mod d)%Z in
    match (2 * r ?= d)%Z with
    | Lt => q
    | Gt => (q + 1)%Z
    | Eq => if Z.even q then q else (q + 1)%Z
    end.

(** [round(x)] with one argument: an [int], [ValueError] on NaN and
    [OverflowError] on an infinity. *)
Definition round (x : float) : result Z :=
  match Prim2SF x with
  | S754_zero _ => Ok 0%Z
  | S754_finite s m e =>
      let n := round_half_even m e in
      Ok (if s then (- n)%Z else n)
  | S754_infinity _ => Raise OverflowError
  | S754_nan => Raise ValueError
  end.

(** The exact rational value of a finite float. *)
Definition float_value (x : float) : Q :=
  match Prim2SF x with
  | S754_finite s m e =>
      let v := if (0 <=? e)%Z then inject_Z (Z.pos m * 2 ^ e)
               else Qmake (Z.pos m) (Z.to_pos (2 ^ (- e))) in
      if s then Qopp v else v
  | _ => 0%Q
  end.

Definition is_finite (x : float) : bool :=
  match Prim2SF x with
  | S754_zero _ | S754_finite _ _ _ => true
  | _ => false
  end.

End Py.

(* ===================================================================== *)
(** * JSON values as Python objects *)
(* ===================================================================== *)

Module Json.
Import Py.

(** What [json.loads] builds: [None], [bool], [int], [str], [list], and
    [dict] with string keys kept in insertion order. *)
Inductive jval : Type :=
| JNull
| JBool (b : bool)
| JInt (z : Z)
| JStr (s : string)
| JArr (l : list jval)
| JObj (d : list (string * jval)).

Definition dict : Type := list (string * jval).

(** Truth value of an object: [if v:]. *)
Definition truthy (v : jval) : bool :=
  match v with
  | JNull => false
  | JBool b => b
  | JInt z => negb (z =? 0)%Z
  | JStr s => nonempty s
  | JArr l => match l with [] => false | _ => true end
  | JObj d => match d with [] => false | _ => true end
  end.

(** [a or b]. *)
Definition py_or (a b : jval) : jval := if truthy a then a else b.

(** Lookup of a key in a dictionary. *)
Fixpoint dict_get (k : string) (d : dict) : option jval :=
  match d with
  | [] => None
  | (k', v) :: r => if String.eqb k k' then Some v else dict_get k r
  end.

(** [d[k] = v]: an existing key keeps its position. *)
Fixpoint dict_set (k : string) (v : jval) (d : dict) : dict :=
  match d with
  | [] => [(k, v)]
  | (k', v') :: r =>
      if String.eqb k k' then (k, v) :: r else (k', v') :: dict_set k v r
  end.

(** [d.get(k, default)] on a dictionary known to be one. *)
Definition get_default (d : dict) (k : string) (default : jval) : jval :=
  match dict_get k d with
  | Some v => v
  | None => default
  end.

(** [o.get(k, default)] on any object: only a [dict] has the method. *)
Definition py_get (o : jval) (k : string) (default : jval) : result jval :=
  match o with
  | JObj d => Ok (get_default d k default)
  | _ => Raise AttributeError
  end.

(** The integer a [bool] or an [int] stands for in arithmetic. *)
Definition as_int (v : jval) : option Z :=
  match v with
  | JInt z => Some z
  | JBool true => Some 1%Z
  | JBool false => Some 0%Z
  | _ => None
  end.

(** [a == b].  Numbers compare by value ([True == 1]), strings and lists
    structurally, dictionaries as maps. *)
Fixpoint py_eq (a b : jval) {struct a} : bool :=
  match a, b with
  | JNull, JNull => true
  | JBool x, JBool y => Bool.eqb x y
  | JBool x, JInt y => ((if x then 1 else 0) =? y)%Z
  | JInt x, JBool y => (x =? (if y then 1 else 0))%Z
  | JInt x, JInt y => (x =? y)%Z
  | JStr x, JStr y => String.eqb x y
  | JArr x, JArr y =>
      (fix eq_list (x y : list jval) {struct x} : bool :=
         match x, y with
         | [], [] => true
         | u :: x', v :: y' => py_eq u v && eq_list x' y'
         | _, _ => false
         end) x y
  | JObj x, JObj y =>
      Nat.eqb (List.length x) (List.length y) &&
      (fix eq_items (x : dict) {struct x} : bool :=
         match x with
         | [] => true
         | (k, u) :: x' =>
             match dict_get k y with
             | Some v => py_eq u v && eq_items x'
             | None => false
             end
         end) x
  | _, _ => false
  end.

(** The items of [for item in v]: the elements of a list, the one-character
    strings of a string, the keys of a dictionary; other objects are not
    iterable. *)
Definition py_iter (v : jval) : result (list jval) :=
  match v with
  | JArr l => Ok l
  | JStr s => Ok (List.map (fun c => JStr (String c EmptyString)) (list_ascii_of_string s))
  | JObj d => Ok (List.map (fun kv => JStr (fst kv)) d)
  | _ => Raise TypeError
  end.

(** ** Decoding

    [loads] follows [json.loads] on the fragment of JSON whose numbers are
    integers and whose strings use the two-character escapes only; a
    document with a fraction, an exponent, a four-digit hexadecimal escape or a non-finite
    constant is outside the fragment and is reported as undecodable.
    [None] stands for [json.JSONDecodeError]. *)

Definition is_json_ws (c : ascii) : bool :=
  let n := nat_of_ascii c in
  Nat.eqb n 32 || Nat.eqb n 9 || Nat.eqb n 10 || Nat.eqb n 13.

Fixpoint skip_ws (s : string) : string :=
  match s with
  | EmptyString => EmptyString
  | String c r => if is_json_ws c then skip_ws r else s
  end.

Definition unescape (c : ascii) : option ascii :=
  let n := nat_of_ascii c in
  if Nat.eqb n 34 then Some c            (* quotation mark *)
  else if Nat.eqb n 92 then Some c       (* reverse solidus *)
  else if Nat.eqb n 47 then Some c       (* solidus *)
  else if Nat.eqb n 98 then Some (ascii_of_nat 8)
  else if Nat.eqb n 102 then Some (ascii_of_nat 12)
  else if Nat.eqb n 110 then Some (ascii_of_nat 10)
  else if Nat.eqb n 114 then Some (ascii_of_nat 13)
  else if Nat.eqb n 116 then Some (ascii_of_nat 9)
  else None.

(** The body of a string literal, after its opening quote: the decoded
    text and what follows the closing quote. *)
Fixpoint scan_string (s : string) : option (string * string) :=
  match s with
  | EmptyString => None
  | String c r =>
      let n := nat_of_ascii c in
      if Nat.eqb n 34 then Some (EmptyString, r)
      else if Nat.eqb n 92 then
        match r with
        | EmptyString => None
        | String e r' =>
            match unescape e, scan_string r' with
            | Some x, Some (t, rest) => Some (String x t, rest)
            | _, _ => None
            end
        end
      else if Nat.ltb n 32 then None
      else match scan_string r with
           | Some (t, rest) => Some (String c t, rest)
           | None => None
           end
  end.

(** A run of decimal digits read onto [acc]. *)
Fixpoint scan_digits (acc : Z) (s : string) : Z * string :=
  match s with
  | EmptyString => (acc, s)
  | String c r =>
      if is_digit c
      then scan_digits (10 * acc + Z.of_nat (nat_of_ascii c - 48))%Z r
      else (acc, s)
  end.

(** The integer part of a number: [0] or a non-zero digit followed by digits. *)
Definition scan_nat (s : string) : option (Z * string) :=
  match s with
  | EmptyString => None
  | String c r =>
      if Nat.eqb (nat_of_ascii c) 48 then Some (0%Z, r)
      else if is_digit c then Some (scan_digits 0%Z s)
      else None
  end.

Definition scan_literal (lit : string) (v : jval) (s : string) : option (jval * string) :=
  if String.prefix lit s
  then Some (v, Py.drop (String.length lit) s)
  else None.

(** A value that is not a string, an array or an object. *)
Definition scan_atom (s : string) : option (jval * string) :=
  match s with
  | EmptyString => None
  | String c r =>
      let n := nat_of_ascii c in
      if Nat.eqb n 110 then scan_literal "null" JNull s
      else if Nat.eqb n 116 then scan_literal "true" (JBool true) s
      else if Nat.eqb n 102 then scan_literal "false" (JBool false) s
      else if Nat.eqb n 45 then
        match scan_nat r with
        | Some (z, rest) => Some (JInt (- z), rest)
        | None => None
        end
      else
        match scan_nat s with
        | Some (z, rest) => Some (JInt z, rest)
        | None => None
        end
  end.

(** [scan_once] reads one value at the head of [s]; [scan_members] reads the
    members of an object from a key on, [scan_elements] the elements of an
    array from a value on.  [n] bounds the depth of the calls; each call
    consumes a character before it calls again. *)
Fixpoint scan_once (n : nat) (s : string) {struct n} : option (jval * string) :=
  match n with
  | O => None
  | S n' =>
      match s with
      | EmptyString => None
      | String c r =>
          let k := nat_of_ascii c in
          if Nat.eqb k 34 then
            match scan_string r with
            | Some (t, rest) => Some (JStr t, rest)
            | None => None
            end
          else if Nat.eqb k 123 then
            match skip_ws r with
            | EmptyString => None
            | String c1 r1 as rr =>
                if Nat.eqb (nat_of_ascii c1) 125 then Some (JObj [], r1)
                else scan_members n' rr []
            end
          else if Nat.eqb k 91 then
            match skip_ws r with
            | EmptyString => None
            | String c1 r1 as rr =>
                if Nat.eqb (nat_of_ascii c1) 93 then Some (JArr [], r1)
                else scan_elements n' rr []
            end
          else scan_atom s
      end
  end

with scan_members (n : nat) (s : string) (acc : dict) {struct n}
  : option (jval * string) :=
  match n with
  | O => None
  | S n' =>
      match s with
      | EmptyString => None
      | String c r =>
          if negb (Nat.eqb (nat_of_ascii c) 34) then None
          else
            match scan_string r with
            | None => None
            | Some (key, r1) =>
                match skip_ws r1 with
                | EmptyString => None
                | String c2 r2 =>
                    if negb (Nat.eqb (nat_of_ascii c2) 58) then None
                    else
                      match scan_once n' (skip_ws r2) with
                      | None => None
                      | Some (v, r3) =>
                          let acc' := dict_set key v acc in
                          match skip_ws r3 with
                          | EmptyString => None
                          | String c4 r4 =>
                              let k4 := nat_of_ascii c4 in
                              if Nat.eqb k4 125 then Some (JObj acc', r4)
                              else if Nat.eqb k4 44
                              then scan_members n' (skip_ws r4) acc'
                              else None
                          end
                      end
                end
            end
      end
  end

with scan_elements (n : nat) (s : string) (acc : list jval) {struct n}
  : option (jval * string) :=
  match n with
  | O => None
  | S n' =>
      match scan_once n' s with
      | None => None
      | Some (v, r1) =>
          match skip_ws r1 with
          | EmptyString => None
          | String c2 r2 =>
              let k2 := nat_of_ascii c2 in
              if Nat.eqb k2 93 then Some (JArr (acc ++ [v]), r2)
              else if Nat.eqb k2 44
              then scan_elements n' (skip_ws r2) (acc ++ [v])
              else None
          end
      end
  end.

(** [json.loads(s)]. *)
Definition loads (s : string) : option jval :=
  let s' := skip_ws s in
  match scan_once (S (S (String.length s'))) s' with
  | Some (v, rest) =>
      match skip_ws rest with
      | EmptyString => Some v
      | _ => None
      end
  | None => None
  end.

(** A JSON text written with apostrophes where the quotation marks go. *)
Definition dq (s : string) : string :=
  Py.map_string
    (fun c => if Nat.eqb (nat_of_ascii c) 39 then ascii_of_nat 34 else c) s.

End Json.


(* ===================================================================== *)
(** * The Cleaner: [clean_transcript.py] *)
(* ===================================================================== *)

Module Cleaner.
Import Py.

(** [re.compile(r"\([^)]*\)").sub(" ", s)] and its bracket twin: each
    leftmost aside, from an opening delimiter to the first closing one
    after it, becomes one space.  [inside] tells that an aside has been
    entered and its closing delimiter is still ahead. *)
Fixpoint sub_aside_from (opening closing : ascii) (inside : bool) (s : string)
  : string :=
  match s with
  | EmptyString => EmptyString
  | String c r =>
      if inside
      then if Ascii.eqb c closing
           then sub_aside_from opening closing false r
           else sub_aside_from opening closing true r
      else if Ascii.eqb c opening && has_char closing r
           then String " " (sub_aside_from opening closing true r)
           else String c (sub_aside_from opening closing false r)
  end.

Definition PAREN_RE_sub (s : string) : string := sub_aside_from "(" ")" false s.
Definition BRACKET_RE_sub (s : string) : string := sub_aside_from "[" "]" false s.

Definition clean_text (s : string) : string :=
  let s := PAREN_RE_sub s in
  let s := BRACKET_RE_sub s in
  let s := sub_space s in
  strip s.

(** What [process_stream] keeps besides the buffer: the dedupe window
    [recent] and the lines appended to the output file so far. *)
Record state : Type := mkState {
  recent : list string;
  out : list string
}.

Definition initial : state := mkState [] [].

Definition window : nat := 64.

(** [key in recent]. *)
Definition seen (key : string) (d : list string) : bool :=
  List.existsb (String.eqb key) d.

Definition emit (raw : string) (st : state) : state :=
  let s := clean_text raw in
  if negb (nonempty s) then st
  else
    let key := lower s in
    if seen key (recent st) then st
    else mkState (deque_append window (recent st) key) (out st ++ [s])%list.

Definition newline : ascii := ascii_of_nat 10.

Lemma split_once_shorter (sep : ascii) (s a b : string) :
  split_once sep s = Some (a, b) -> String.length b < String.length s.
Proof.
  revert a b; induction s as [|c r IH]; simpl; intros a b H; [discriminate|].
  destruct (Ascii.eqb c sep).
  - inversion H; subst; lia.
  - destruct (split_once sep r) as [[a' b']|]; [|discriminate].
    inversion H; subst. specialize (IH _ _ eq_refl). lia.
Qed.

(** The loop of [drain_newlines], entered with [flushed] and the buffer. *)
Equations? drain_newlines_from (flushed : bool) (buf : string) (st : state)
  : bool * string * state by wf (String.length buf) lt :=
  drain_newlines_from flushed buf st with inspect (split_once newline buf) := {
    | exist _ (Some (line, rest)) _ =>
        if nonempty (strip line)
        then drain_newlines_from true rest (emit line st)
        else drain_newlines_from flushed rest st
    | exist _ None _ => (flushed, buf, st) }.
Proof.
  all: eapply split_once_shorter; eassumption.
Qed.

Definition drain_newlines (buf : string) (st : state) : bool * string * state :=
  drain_newlines_from false buf st.

(** [END_RE.search(buf)] followed by the cut at [m.end()]: the text up to
    and including the first of [.], [!], [?], and the text after it. *)
Definition is_end (c : ascii) : bool :=
  Ascii.eqb c "." || Ascii.eqb c "!" || Ascii.eqb c "?".

Fixpoint split_end (s : string) : option (string * string) :=
  match s with
  | EmptyString => None
  | String c r =>
      if is_end c then Some (String c EmptyString, r)
      else match split_end r with
           | Some (a, b) => Some (String c a, b)
           | None => None
           end
  end.

Lemma split_end_shorter (s a b : string) :
  split_end s = Some (a, b) -> String.length b < String.length s.
Proof.
  revert a b; induction s as [|c r IH]; simpl; intros a b H; [discriminate|].
  destruct (is_end c).
  - inversion H; subst; lia.
  - destruct (split_end r) as [[a' b']|]; [|discriminate].
    inversion H; subst. specialize (IH _ _ eq_refl). lia.
Qed.

Equations? drain_punct_from (flushed : bool) (buf : string) (st : state)
  : bool * string * state by wf (String.length buf) lt :=
  drain_punct_from flushed buf st with inspect (split_end buf) := {
    | exist _ (Some (sent, rest)) _ => drain_punct_from true rest (emit sent st)
    | exist _ None _ => (flushed, buf, st) }.
Proof.
  eapply split_end_shorter; eassumption.
Qed.

Definition drain_punct (buf : string) (st : state) : bool * string * state :=
  drain_punct_from false buf st.

(** [drained = drain_newlines() or drain_punct()]: the second drain runs
    only when the first returned [False]. *)
Definition drain (buf : string) (st : state) : bool * string * state :=
  let '(flushed, buf1, st1) := drain_newlines buf st in
  if flushed then (true, buf1, st1) else drain_punct buf1 st1.

(** [idle_sec = idle_ms / 1000.0], computed once when the stream starts. *)
Definition idle_sec (idle_ms : Z) : result float :=
  bind (float_of_int idle_ms) (fun f => truediv f 1000%float).

(** [(now - last_activity) >= idle_sec]. *)
Definition idle_due (idle : float) (last_activity now : float) : bool :=
  PrimFloat.leb idle (PrimFloat.sub now last_activity).

(** The idle flush of the leftover fragment. *)
Definition idle_flush (due : bool) (buf : string) (st : state) : string * state :=
  if due && nonempty (strip buf)
  then (EmptyString, emit (strip buf) st)
  else (buf, st).

Definition overflow_limit : nat := 16384.
Definition overflow_keep : nat := 8192.

(** [if len(buf) > 16384: buf = buf[-8192:]]. *)
Definition overflow_valve (buf : string) : string :=
  if Nat.ltb overflow_limit (String.length buf)
  then last_chars overflow_keep buf
  else buf.

(** The buffer and the state just before the overflow check of one pass of
    the loop of [process_stream]: [chunk] has arrived at clock reading
    [last_activity], the drains are over at clock reading [now]. *)
Definition cycle_body (idle : float) (chunk : string) (last_activity now : float)
  (buf : string) (st : state) : string * state :=
  let buf := buf ++ chunk in
  let '(_, buf, st) := drain buf st in
  idle_flush (idle_due idle last_activity now) buf st.

(** One pass of the loop of [process_stream]. *)
Definition cycle (idle : float) (chunk : string) (last_activity now : float)
  (buf : string) (st : state) : string * state :=
  let '(buf, st) := cycle_body idle chunk last_activity now buf st in
  (overflow_valve buf, st).

(** A chunk as [follow_file] yields it, with the clock readings taken when
    it arrives and when its drains are over. *)
Record arrival : Type := mkArrival {
  chunk : string;
  last_activity : float;
  now : float
}.

(** The loop of [process_stream] over the chunks that arrive. *)
Fixpoint cycles (idle : float) (arrivals : list arrival) (buf : string)
  (st : state) : string * state :=
  match arrivals with
  | [] => (buf, st)
  | a :: rest =>
      let '(buf', st') := cycle idle (chunk a) (last_activity a) (now a) buf st in
      cycles idle rest buf' st'
  end.

(** [process_stream]: the buffer and the state after the given arrivals,
    from an empty buffer and an empty dedupe window. *)
Definition process_stream (idle_ms : Z) (arrivals : list arrival)
  : result (string * state) :=
  bind (idle_sec idle_ms) (fun idle =>
  Ok (cycles idle arrivals EmptyString initial)).

(** ** Segmentation as a function of the buffer

    The segments of a cycle described without the loops, to compare the
    loops with. *)

(** Every complete newline-delimited line of [s], and the text after the
    last newline. *)
Fixpoint split_lines (s : string) : list string * string :=
  match s with
  | EmptyString => ([], EmptyString)
  | String c r =>
      let '(ls, rest) := split_lines r in
      if Ascii.eqb c newline then (EmptyString :: ls, rest)
      else match ls with
           | [] => ([], String c rest)
           | l :: ls' => (String c l :: ls', rest)
           end
  end.

(** Every complete sentence of [s], each ending at the next terminator from
    the left, and the text after the last terminator. *)
Fixpoint split_sentences (s : string) : list string * string :=
  match s with
  | EmptyString => ([], EmptyString)
  | String c r =>
      let '(ss, rest) := split_sentences r in
      if is_end c then (String c EmptyString :: ss, rest)
      else match ss with
           | [] => ([], String c rest)
           | x :: ss' => (String c x :: ss', rest)
           end
  end.

Definition nonblank (s : string) : bool := nonempty (strip s).

Definition is_nil {A : Type} (l : list A) : bool :=
  match l with [] => true | _ => false end.

(** The segments handed to [emit] by the two drains, newline before
    punctuation, and the buffer they leave. *)
Definition drain_segments (buf : string) : list string * string :=
  let '(ls, rest) := split_lines buf in
  let ls := List.filter nonblank ls in
  if is_nil ls then split_sentences rest else (ls, rest).

(** The segments handed to [emit] in one cycle, as the code orders them:
    the idle flush looks at the idle clock and at the leftover only. *)
Definition cycle_segments (due : bool) (buf : string) : list string * string :=
  let '(segs, rest) := drain_segments buf in
  if due && nonblank rest then ((segs ++ [strip rest])%list, EmptyString)
  else (segs, rest).

(** The segments of one cycle as the priority rule words them: newline
    first; punctuation only if that produced nothing; the idle flush only
    if neither produced anything and the buffer has been idle. *)
Definition priority_segments (due : bool) (buf : string) : list string * string :=
  let '(segs, rest) := drain_segments buf in
  if is_nil segs && due && nonblank rest then ([strip rest], EmptyString)
  else (segs, rest).

(** Handing segments to [emit] in order. *)
Definition emit_all (segs : list string) (st : state) : state :=
  List.fold_left (fun s raw => emit raw s) segs st.

End Cleaner.

(* ===================================================================== *)
(** * The Glossifier: [glossify_transcript.py] *)
(* ===================================================================== *)

Module Glossifier.
Import Py Json.

(** The class of [WORD_RE = re.compile(r"[A-Za-z0-9']+")]. *)
Definition is_word_char (c : ascii) : bool :=
  is_upper c || is_lower c || is_digit c || Ascii.eqb c "'".

(** [WORD_RE.findall(text)]: the maximal runs of word characters, from the
    left. *)
Fixpoint WORD_RE_findall (s : string) : list string :=
  match s with
  | EmptyString => []
  | String c r =>
      if is_word_char c then
        match r with
        | EmptyString => [String c EmptyString]
        | String c' _ =>
            if is_word_char c' then
              match WORD_RE_findall r with
              | w :: ws => String c w :: ws
              | [] => [String c EmptyString]
              end
            else String c EmptyString :: WORD_RE_findall r
        end
      else WORD_RE_findall r
  end.

(** [APOSTROPHE_RE.sub("'", tok)]: of the two characters of the class, the
    grave accent is the ASCII one. *)
Definition APOSTROPHE_RE_sub (tok : string) : string :=
  map_string (fun c => if Ascii.eqb c "`" then "'"%char else c) tok.

Definition normalize_token (tok : string) : string :=
  let tok := lower tok in
  APOSTROPHE_RE_sub tok.

(** The loop that collapses immediate duplicates. *)
Definition dedup_step (dedup : list string) (g : string) : list string :=
  match deque_last dedup with
  | Some g' => if String.eqb g' g then dedup else (dedup ++ [g])%list
  | None => (dedup ++ [g])%list
  end.

Definition sent_to_gloss (text : string) : list string :=
  let toks := List.map normalize_token (WORD_RE_findall text) in
  let glosses := List.map upper (List.filter nonempty toks) in
  List.fold_left dedup_step glosses [].

(** [lex.get(k)]. *)
Definition lex_get (lex : dict) (k : string) : jval := get_default lex k JNull.

(** [lex.get(g.lower()) or lex.get(g) or lex.get(g.upper())]. *)
Definition lookup (lex : dict) (g : string) : jval :=
  py_or (py_or (lex_get lex (lower g)) (lex_get lex g)) (lex_get lex (upper g)).

(** The literal [0.01] as the binary64 value Python reads it as. *)
Definition rate_floor : float := 0x1.47ae147ae147bp-7%float.

(** [int(round(dur_src / max(rate, 0.01)))]. *)
Definition clip_duration (dur_src : jval) (rate : float) : result Z :=
  match as_int dur_src with
  | None => Raise TypeError
  | Some n =>
      bind (float_of_int n) (fun f =>
      bind (truediv f (max2 rate rate_floor)) (fun x =>
      round x))
  end.

Definition clip (label asset : jval) (dur : Z) : jval :=
  JObj [("label", label); ("type", JStr "clip"); ("asset", asset);
        ("dur_ms", JInt dur)].

Definition tween (tween_ms : Z) : jval :=
  JObj [("label", JStr "_TWEEN"); ("type", JStr "meta");
        ("dur_ms", JInt tween_ms)].

(** The clip built from a lexicon entry that passed [if entry:]. *)
Definition entry_clip (g : string) (entry : jval) (rate : float) : result jval :=
  bind (py_get entry "dur_ms" (JInt 1000)) (fun dur_src =>
  bind (clip_duration dur_src rate) (fun dur =>
  bind (py_get entry "label" (JStr g)) (fun label =>
  bind (py_get entry "asset" JNull) (fun asset =>
  Ok (clip label asset dur))))).

(** The loop of [map_gloss_to_queue] from index [i] on: [len] is
    [len(gloss)], [gloss] what is left to enumerate, [queue] the queue
    built so far. *)
Fixpoint map_loop (lex : dict) (tween_ms : Z) (rate : float) (len i : nat)
  (gloss : list string) (queue : list jval) : result (list jval) :=
  match gloss with
  | [] => Ok queue
  | g :: rest =>
      let entry := lookup lex g in
      if truthy entry then
        bind (entry_clip g entry rate) (fun c =>
        let queue := (queue ++ [c])%list in
        let queue :=
          if negb (tween_ms =? 0)%Z && Nat.ltb i (len - 1)
          then (queue ++ [tween tween_ms])%list
          else queue in
        map_loop lex tween_ms rate len (S i) rest queue)
      else map_loop lex tween_ms rate len (S i) rest queue
  end.

Definition map_gloss_to_queue (gloss : list string) (lex : dict)
  (tween_ms : Z) (rate : float) : result (list jval) :=
  map_loop lex tween_ms rate (List.length gloss) 0 gloss [].

(** The options of [main] that the loop uses. *)
Record config : Type := mkConfig {
  lex : dict;
  tween_ms : Z;
  sentence_pause_ms : Z;
  rate : float
}.

(** What the loop of [main] keeps: the deque [recent_lines] and the records
    appended to the output file so far. *)
Record state : Type := mkState {
  recent_lines : list string;
  written : list jval
}.

Definition initial : state := mkState [] [].

Definition record (line : string) (gloss : list string) (queue : list jval)
  (pause : Z) : jval :=
  JObj [("input", JStr line); ("gloss", JArr (List.map JStr gloss));
        ("queue", JArr queue); ("sentence_pause_ms", JInt pause)].

(** [line == recent_lines[-1]], guarded by [recent_lines]. *)
Definition repeats_last (line : string) (d : list string) : bool :=
  match deque_last d with
  | Some l => String.eqb line l
  | None => false
  end.

(** The body of the loop of [main] for one raw line. *)
Definition step (cfg : config) (raw : string) (st : state) : result state :=
  let line := strip (sub_space raw) in
  if negb (nonempty line) then Ok st
  else if repeats_last line (recent_lines st) then Ok st
  else
    let recent := deque_append 8 (recent_lines st) line in
    let gloss := sent_to_gloss line in
    bind (map_gloss_to_queue gloss (lex cfg) (tween_ms cfg) (rate cfg))
      (fun queue =>
         let obj := record line gloss queue (sentence_pause_ms cfg) in
         Ok (mkState recent (written st ++ [obj])%list)).

(** The loop of [main] over the lines the follower yields. *)
Fixpoint run (cfg : config) (raws : list string) (st : state) : result state :=
  match raws with
  | [] => Ok st
  | raw :: rest => bind (step cfg raw st) (run cfg rest)
  end.

(** ** Shapes of queue items *)

Definition has_type (t : string) (item : jval) : bool :=
  match item with
  | JObj d => match dict_get "type" d with
              | Some v => py_eq v (JStr t)
              | None => false
              end
  | _ => false
  end.

Definition is_clip (item : jval) : bool := has_type "clip" item.
Definition is_tween (item : jval) : bool := has_type "meta" item.

End Glossifier.

(* ===================================================================== *)
(** * The Streamer: [stream_queue_assets.py] *)
(* ===================================================================== *)

Module Streamer.
Import Py Json.

(** The body of the loop over the queue for one [item]: [out_assets] and
    the content [last] of [last_label_box] before and after. *)
Definition visit (item : jval) (out_assets : list jval) (last : jval)
  : result (list jval * jval) :=
  bind (py_get item "type" JNull) (fun ty =>
  if negb (py_eq ty (JStr "clip")) then Ok (out_assets, last)
  else
    bind (py_get item "label" JNull) (fun label =>
    bind (py_get item "asset" JNull) (fun asset =>
    if negb (truthy asset) then Ok (out_assets, last)
    else if truthy label && py_eq label last then Ok (out_assets, last)
    else Ok ((out_assets ++ [asset])%list, label)))).

(** The loop over the queue.  The box is a shared list: what was stored in
    it before an exception stays stored. *)
Fixpoint visit_all (items : list jval) (out_assets : list jval) (last : jval)
  : result (list jval) * jval :=
  match items with
  | [] => (Ok out_assets, last)
  | item :: rest =>
      match visit item out_assets last with
      | Ok (out_assets', last') => visit_all rest out_assets' last'
      | Raise e => (Raise e, last)
      end
  end.

(** [process_line] after the line has been decoded into [obj]. *)
Definition process_record (obj : jval) (last : jval) : result (list jval) * jval :=
  match py_get obj "queue" (JArr []) with
  | Raise e => (Raise e, last)
  | Ok queue =>
      match py_iter queue with
      | Raise e => (Raise e, last)
      | Ok items => visit_all items [] last
      end
  end.

Section Decoder.

(** [json.loads], with [None] for [json.JSONDecodeError]. *)
Variable json_loads : string -> option jval.

Definition process_line (line : string) (last : jval) : result (list jval) * jval :=
  let line := strip line in
  if negb (nonempty line) then (Ok [], last)
  else
    match json_loads line with
    | None => (Ok [], last)
    | Some obj => process_record obj last
    end.

(** [f.write(a + "\n")] for each asset: the lines appended to the output
    file; an asset that is not a string cannot be concatenated. *)
Fixpoint write_assets (assets : list jval) (file : list string)
  : result unit * list string :=
  match assets with
  | [] => (Ok tt, file)
  | JStr a :: rest => write_assets rest (file ++ [a])%list
  | _ :: _ => (Raise TypeError, file)
  end.

(** What a run of [main] leaves: the output file, the box, and the exception
    that ended the run if one did. *)
Record outcome : Type := mkOutcome {
  file : list string;
  last_label : jval;
  failure : option exn
}.

(** The loop of [main] over the lines the follower yields. *)
Fixpoint run (lines : list string) (file : list string) (last : jval) : outcome :=
  match lines with
  | [] => mkOutcome file last None
  | line :: rest =>
      match process_line line last with
      | (Raise e, last') => mkOutcome file last' (Some e)
      | (Ok assets, last') =>
          match write_assets assets file with
          | (Raise e, file') => mkOutcome file' last' (Some e)
          | (Ok _, file') => run rest file' last'
          end
      end
  end.

End Decoder.

End Streamer.

(* ===================================================================== *)
(** * Properties of the Cleaner *)
(* ===================================================================== *)

Module CleanerProps.
Import Py Cleaner.

(** ** The loops against the segment functions *)

Lemma split_lines_cut (s line rest : string) :
  split_once newline s = Some (line, rest) ->
  split_lines s = (line :: fst (split_lines rest), snd (split_lines rest)).
Proof.
  revert line rest; induction s as [|c r IH]; simpl; intros line rest H.
  - discriminate.
  - destruct (Ascii.eqb c newline) eqn:E.
    + inversion H; subst. destruct (split_lines rest); reflexivity.
    + destruct (split_once newline r) as [[a b]|]; [|discriminate].
      inversion H; subst. rewrite (IH a rest eq_refl). reflexivity.
Qed.

Lemma split_lines_whole (s : string) :
  split_once newline s = None -> split_lines s = ([], s).
Proof.
  induction s as [|c r IH]; simpl; intro H; [reflexivity|].
  destruct (Ascii.eqb c newline); [discriminate|].
  destruct (split_once newline r) as [[a b]|]; [discriminate|].
  rewrite (IH eq_refl). reflexivity.
Qed.

Lemma split_sentences_cut (s sent rest : string) :
  split_end s = Some (sent, rest) ->
  split_sentences s =
    (sent :: fst (split_sentences rest), snd (split_sentences rest)).
Proof.
  revert sent rest; induction s as [|c r IH]; simpl; intros sent rest H.
  - discriminate.
  - destruct (is_end c) eqn:E.
    + inversion H; subst. destruct (split_sentences rest); reflexivity.
    + destruct (split_end r) as [[a b]|]; [|discriminate].
      inversion H; subst. rewrite (IH a rest eq_refl). reflexivity.
Qed.

Lemma split_sentences_whole (s : string) :
  split_end s = None -> split_sentences s = ([], s).
Proof.
  induction s as [|c r IH]; simpl; intro H; [reflexivity|].
  destruct (is_end c); [discriminate|].
  destruct (split_end r) as [[a b]|]; [discriminate|].
  rewrite (IH eq_refl). reflexivity.
Qed.

(** The newline drain hands to [emit] the non-blank complete lines, in
    order, leaves the text after the last newline, and reports whether
    there was such a line. *)
Lemma drain_newlines_from_segments (flushed : bool) (buf : string) (st : state) :
  drain_newlines_from flushed buf st =
    (flushed || negb (is_nil (List.filter nonblank (fst (split_lines buf)))),
     snd (split_lines buf),
     emit_all (List.filter nonblank (fst (split_lines buf))) st).
Proof.
  funelim (drain_newlines_from flushed buf st).
  - rewrite (split_lines_cut _ _ _ e). cbn [fst snd List.filter].
    change (nonempty (strip line)) with (nonblank line).
    destruct (nonblank line) eqn:E.
    + match goal with
      | IH : drain_newlines_from true _ _ = (_ || _, _, _) |- _ => rewrite IH
      end.
      cbn [is_nil negb emit_all List.fold_left]. rewrite orb_true_r.
      reflexivity.
    + match goal with
      | IH : drain_newlines_from flushed rest st = (_ || _, _, _) |- _ =>
          rewrite IH
      end.
      reflexivity.
  - rewrite (split_lines_whole _ e). cbn. rewrite orb_false_r. reflexivity.
Qed.

Lemma drain_punct_from_segments (flushed : bool) (buf : string) (st : state) :
  drain_punct_from flushed buf st =
    (flushed || negb (is_nil (fst (split_sentences buf))),
     snd (split_sentences buf),
     emit_all (fst (split_sentences buf)) st).
Proof.
  funelim (drain_punct_from flushed buf st).
  - rewrite (split_sentences_cut _ _ _ e). cbn [fst snd].
    match goal with
    | IH : drain_punct_from true _ _ = (_ || _, _, _) |- _ => rewrite IH
    end.
    cbn [is_nil negb emit_all List.fold_left]. rewrite orb_true_r.
    reflexivity.
  - rewrite (split_sentences_whole _ e). cbn. rewrite orb_false_r. reflexivity.
Qed.

Lemma emit_all_app (a b : list string) (st : state) :
  emit_all (a ++ b) st = emit_all b (emit_all a st).
Proof. unfold emit_all. apply List.fold_left_app. Qed.

Lemma drain_segments_spec (buf : string) (st : state) :
  drain buf st =
    (negb (is_nil (fst (drain_segments buf))),
     snd (drain_segments buf),
     emit_all (fst (drain_segments buf)) st).
Proof.
  unfold drain, drain_newlines, drain_segments.
  rewrite drain_newlines_from_segments.
  destruct (split_lines buf) as [ls rest]. cbn [fst snd orb].
  destruct (List.filter nonblank ls) as [|l ls'] eqn:E; cbn [is_nil negb].
  - unfold drain_punct. rewrite drain_punct_from_segments.
    destruct (split_sentences rest) as [ss rest']. reflexivity.
  - reflexivity.
Qed.

(** ** The overflow valve *)

Lemma length_drop (k : nat) (s : string) :
  String.length (drop k s) = String.length s - k.
Proof.
  revert s; induction k as [|k IH]; intros [|c r]; simpl; auto with arith.
Qed.

Lemma drop_is_suffix (k : nat) (s : string) :
  exists old, s = old ++ drop k s.
Proof.
  revert s; induction k as [|k IH]; intros s.
  - exists EmptyString. reflexivity.
  - destruct s as [|c r].
    + exists EmptyString. reflexivity.
    + destruct (IH r) as [old H]. exists (String c old).
      simpl. rewrite <- H. reflexivity.
Qed.

Lemma keep_le_limit : overflow_keep <= overflow_limit.
Proof. apply Nat.leb_le. vm_compute. reflexivity. Qed.

Lemma overflow_valve_cut (b : string) :
  overflow_limit < String.length b ->
  overflow_valve b = last_chars overflow_keep b /\
  String.length (overflow_valve b) = overflow_keep /\
  exists old, b = old ++ overflow_valve b.
Proof.
  intro H. unfold overflow_valve.
  apply Nat.ltb_lt in H. rewrite H. apply Nat.ltb_lt in H.
  split; [reflexivity|]. unfold last_chars. split.
  - rewrite length_drop. pose proof keep_le_limit. lia.
  - apply drop_is_suffix.
Qed.

Lemma overflow_valve_keep (b : string) :
  String.length b <= overflow_limit -> overflow_valve b = b.
Proof.
  intro H. unfold overflow_valve.
  destruct (Nat.ltb overflow_limit (String.length b)) eqn:E; [|reflexivity].
  apply Nat.ltb_lt in E. lia.
Qed.

Lemma overflow_valve_bound (b : string) :
  String.length (overflow_valve b) <= overflow_limit.
Proof.
  destruct (Nat.le_gt_cases (String.length b) overflow_limit) as [H|H].
  - rewrite (overflow_valve_keep b H). exact H.
  - destruct (overflow_valve_cut b H) as [_ [L _]]. rewrite L.
    apply keep_le_limit.
Qed.

(** ** The dedupe window *)

(** The keys of the accepted segments, oldest first. *)
Definition accepted_keys (st : state) : list string := List.map lower (out st).

(** The last [n] elements of a list. *)
Definition lastn {A : Type} (n : nat) (l : list A) : list A :=
  List.skipn (List.length l - n) l.

(** The window holds the keys of the last 64 accepted segments. *)
Definition window_inv (st : state) : Prop :=
  recent st = lastn window (accepted_keys st).

Lemma seen_In (key : string) (d : list string) :
  seen key d = true <-> In key d.
Proof.
  unfold seen. rewrite List.existsb_exists. split.
  - intros [x [Hx E]]. apply String.eqb_eq in E. subst. exact Hx.
  - intro H. exists key. split; [exact H | apply String.eqb_refl].
Qed.

Lemma tl_skipn {A : Type} (k : nat) (l : list A) :
  List.tl (List.skipn k l) = List.skipn (S k) l.
Proof.
  revert l; induction k as [|k IH]; intros [|x l]; simpl; auto.
Qed.

Lemma lastn_snoc {A : Type} (n : nat) (l : list A) (x : A) :
  0 < n -> lastn n (l ++ [x]) = deque_append n (lastn n l) x.
Proof.
  intro Hn. unfold lastn, deque_append.
  rewrite List.length_app, List.length_skipn. simpl List.length.
  destruct (Nat.leb n (List.length l - (List.length l - n))) eqn:E.
  - apply Nat.leb_le in E.
    rewrite tl_skipn.
    replace (List.length l + 1 - n) with (S (List.length l - n)) by lia.
    rewrite List.skipn_app.
    replace (S (List.length l - n) - List.length l) with 0 by lia.
    reflexivity.
  - apply Nat.leb_gt in E.
    replace (List.length l + 1 - n) with 0 by lia.
    replace (List.length l - n) with 0 by lia.
    reflexivity.
Qed.

Lemma lastn_length {A : Type} (n : nat) (l : list A) :
  List.length (lastn n l) = Nat.min n (List.length l).
Proof. unfold lastn. rewrite List.length_skipn. lia. Qed.

Lemma emit_blank (raw : string) (st : state) :
  nonempty (clean_text raw) = false -> emit raw st = st.
Proof. intro H. unfold emit. rewrite H. reflexivity. Qed.

Lemma emit_seen (raw : string) (st : state) :
  nonempty (clean_text raw) = true ->
  In (lower (clean_text raw)) (recent st) ->
  emit raw st = st.
Proof.
  intros H1 H2. unfold emit. rewrite H1. cbn [negb].
  apply seen_In in H2. rewrite H2. reflexivity.
Qed.

Lemma emit_fresh (raw : string) (st : state) :
  nonempty (clean_text raw) = true ->
  ~ In (lower (clean_text raw)) (recent st) ->
  emit raw st =
    mkState (deque_append window (recent st) (lower (clean_text raw)))
            (out st ++ [clean_text raw]).
Proof.
  intros H1 H2. unfold emit. rewrite H1. cbn [negb].
  destruct (seen (lower (clean_text raw)) (recent st)) eqn:E.
  - apply seen_In in E. contradiction.
  - reflexivity.
Qed.

Lemma window_inv_initial : window_inv initial.
Proof. reflexivity. Qed.

Lemma window_inv_emit (raw : string) (st : state) :
  window_inv st -> window_inv (emit raw st).
Proof.
  intro I. unfold emit.
  destruct (nonempty (clean_text raw)); cbn [negb]; [|exact I].
  destruct (seen (lower (clean_text raw)) (recent st)); [exact I|].
  unfold window_inv, accepted_keys in *. cbn [recent out].
  rewrite List.map_app. cbn [List.map].
  rewrite lastn_snoc by (unfold window; lia).
  rewrite <- I. reflexivity.
Qed.

Lemma window_inv_emit_all (segs : list string) (st : state) :
  window_inv st -> window_inv (emit_all segs st).
Proof.
  revert st; induction segs as [|r segs IH]; intros st I; [exact I|].
  apply IH. apply window_inv_emit. exact I.
Qed.

(** The key under which [emit] looks a raw segment up. *)
Definition key (raw : string) : string := lower (clean_text raw).

Lemma In_deque_append {A : Type} (n : nat) (d : list A) (x y : A) :
  In y (deque_append n d x) -> In y d \/ y = x.
Proof.
  unfold deque_append. destruct (Nat.leb n (List.length d)); intro H;
    apply List.in_app_or in H; destruct H as [H|[H|[]]]; auto.
  left. destruct d; [destruct H | right; exact H].
Qed.

Lemma lastn_app_exact {A : Type} (a b : list A) :
  lastn (List.length b) (a ++ b) = b.
Proof.
  unfold lastn. rewrite List.length_app.
  replace (List.length a + List.length b - List.length b)
    with (List.length a) by lia.
  rewrite List.skipn_app, List.skipn_all, Nat.sub_diag. reflexivity.
Qed.

(** Segments whose keys are new and pairwise distinct are all written. *)
Lemma emit_all_fresh (segs : list string) (st : state) :
  (forall r, In r segs -> nonempty (clean_text r) = true) ->
  NoDup (List.map key segs) ->
  (forall r, In r segs -> ~ In (key r) (recent st)) ->
  out (emit_all segs st) = (out st ++ List.map clean_text segs)%list.
Proof.
  revert st; induction segs as [|r segs IH]; intros st Hne Hnd Hnew.
  - cbn. rewrite List.app_nil_r. reflexivity.
  - cbn [emit_all List.fold_left]. fold (emit_all segs (emit r st)).
    cbn [List.map] in Hnd. inversion Hnd as [|k ks Hk Hks]; subst.
    assert (E : emit r st =
                mkState (deque_append window (recent st) (key r))
                        (out st ++ [clean_text r])).
    { apply emit_fresh; [apply Hne; left; reflexivity|].
      apply Hnew. left; reflexivity. }
    rewrite IH.
    + rewrite E. cbn [out List.map]. rewrite <- List.app_assoc. reflexivity.
    + intros r' Hr'. apply Hne. right; exact Hr'.
    + exact Hks.
    + intros r' Hr' Hin. rewrite E in Hin. cbn [recent] in Hin.
      apply In_deque_append in Hin. destruct Hin as [Hin|Hin].
      * apply (Hnew r'); [right; exact Hr' | exact Hin].
      * apply Hk. rewrite <- Hin. apply List.in_map. exact Hr'.
Qed.

(** A boolean test of distinctness, for concrete lists. *)
Fixpoint distinct (l : list string) : bool :=
  match l with
  | [] => true
  | x :: r => negb (seen x r) && distinct r
  end.

Lemma distinct_NoDup (l : list string) : distinct l = true -> NoDup l.
Proof.
  induction l as [|x r IH]; intro H; [constructor|].
  cbn in H. apply andb_true_iff in H. destruct H as [H1 H2].
  constructor; [|apply IH; exact H2].
  intro Hin. apply seen_In in Hin. rewrite Hin in H1. discriminate.
Qed.

(** C4. A segment that survives cleaning is dropped, and the history left
    as it is, exactly when its lowercased form is the key of one of the
    last 64 accepted segments; otherwise it is written and its key joins
    the history.  Hence, after 65 segments with new and distinct keys, the
    oldest one is written again while each of the 64 later ones is
    dropped. *)
Theorem emit_dedup_window :
  (forall (st : state) (raw : string),
      window_inv st ->
      nonempty (clean_text raw) = true ->
      (In (key raw) (lastn 64 (accepted_keys st)) -> emit raw st = st) /\
      (~ In (key raw) (lastn 64 (accepted_keys st)) ->
         out (emit raw st) = (out st ++ [clean_text raw])%list /\
         recent (emit raw st) =
           lastn 64 (accepted_keys st ++ [key raw])%list) /\
      window_inv (emit raw st)) /\
  (forall (st0 : state) (oldest : string) (later : list string),
      window_inv st0 ->
      List.length later = 64 ->
      NoDup (List.map key (oldest :: later)) ->
      (forall r, In r (oldest :: later) ->
         nonempty (clean_text r) = true /\ ~ In (key r) (recent st0)) ->
      let st := emit_all (oldest :: later) st0 in
      out st = (out st0 ++ List.map clean_text (oldest :: later))%list /\
      out (emit oldest st) = (out st ++ [clean_text oldest])%list /\
      (forall r, In r later -> emit r st = st)).
Proof.
  split.
  - intros st raw I Hne. change 64 with window. rewrite <- I.
    split; [|split].
    + intro Hin. apply emit_seen; assumption.
    + intro Hnot. rewrite (emit_fresh raw st Hne Hnot). cbn [out recent].
      split; [reflexivity|].
      rewrite I. symmetry. apply lastn_snoc. unfold window; lia.
    + apply window_inv_emit. exact I.
  - intros st0 oldest later I Hlen Hnd Hall st.
    assert (Hout : out st = (out st0 ++ List.map clean_text (oldest :: later))%list).
    { apply emit_all_fresh.
      - intros r Hr. apply (Hall r Hr).
      - exact Hnd.
      - intros r Hr. apply (Hall r Hr). }
    assert (Hrec : recent st = List.map key later).
    { pose proof (window_inv_emit_all (oldest :: later) st0 I) as I'.
      fold st in I'. unfold window_inv, accepted_keys in I'.
      rewrite I', Hout. rewrite List.map_app. cbn [List.map].
      rewrite List.map_map. fold key.
      change (List.map lower (out st0) ++ lower (clean_text oldest)
                :: List.map key later)%list
        with (List.map lower (out st0) ++ [key oldest] ++ List.map key later)%list.
      rewrite List.app_assoc.
      replace window with (List.length (List.map key later))
        by (rewrite List.length_map; exact Hlen).
      apply lastn_app_exact. }
    split; [exact Hout|]. split.
    + rewrite emit_fresh.
      * reflexivity.
      * apply (Hall oldest). left; reflexivity.
      * change (~ In (key oldest) (recent st)).
        rewrite Hrec. cbn [List.map] in Hnd. inversion Hnd; assumption.
    + intros r Hr. apply emit_seen.
      * apply (Hall r). right; exact Hr.
      * change (In (key r) (recent st)).
        rewrite Hrec. apply List.in_map. exact Hr.
Qed.

(** Sixty-five segments with distinct two-digit names. *)
Definition numbered (n : nat) : string :=
  String (ascii_of_nat (48 + n / 10))
    (String (ascii_of_nat (48 + n mod 10)) EmptyString).

Lemma emit_dedup_window_witness :
  (In (key "Hello.") (lastn 64 (accepted_keys (emit "hello." initial))) /\
   emit "Hello." (emit "hello." initial) = emit "hello." initial) /\
  (let st := emit_all (List.map numbered (List.seq 0 65)) initial in
   out (emit (numbered 0) st) = (out st ++ [numbered 0])%list /\
   emit (numbered 64) st = st).
Proof.
  destruct emit_dedup_window as [one many]. split.
  - assert (Hin : In (key "Hello.")
                     (lastn 64 (accepted_keys (emit "hello." initial)))).
    { vm_compute. left; reflexivity. }
    split; [exact Hin|].
    apply (one (emit "hello." initial) "Hello.").
    + apply window_inv_emit, window_inv_initial.
    + reflexivity.
    + exact Hin.
  - assert (H := many initial (numbered 0)
                   (List.map numbered (List.seq 1 64))
                   window_inv_initial).
    cbv zeta in H.
    destruct H as [_ [H2 H3]].
    + reflexivity.
    + apply distinct_NoDup. vm_compute. reflexivity.
    + intros r Hr. split; [|intros []].
      revert r Hr. apply List.forallb_forall. vm_compute. reflexivity.
    + split; [exact H2|]. apply H3. vm_compute. tauto.
Defined.

Lemma cycle_split
  (idle : float) (chunk : string) (last_activity now : float)
  (buf : string) (st : state) :
  cycle idle chunk last_activity now buf st =
    (overflow_valve (fst (cycle_body idle chunk last_activity now buf st)),
     snd (cycle_body idle chunk last_activity now buf st)).
Proof.
  unfold cycle.
  destruct (cycle_body idle chunk last_activity now buf st); reflexivity.
Qed.

Lemma cycle_body_emits
  (idle : float) (chunk : string) (last_activity now : float)
  (buf : string) (st : state) :
  cycle_body idle chunk last_activity now buf st =
    (snd (cycle_segments (idle_due idle last_activity now) (buf ++ chunk)),
     emit_all
       (fst (cycle_segments (idle_due idle last_activity now) (buf ++ chunk)))
       st).
Proof.
  unfold cycle_body. rewrite drain_segments_spec.
  unfold cycle_segments, idle_flush.
  destruct (drain_segments (buf ++ chunk)) as [segs rest]. cbn [fst snd].
  change (nonempty (strip rest)) with (nonblank rest).
  destruct (idle_due idle last_activity now && nonblank rest); cbn [fst snd].
  - rewrite emit_all_app. reflexivity.
  - reflexivity.
Qed.

(** C9. Whenever the buffer is longer than 16384 characters at the check
    that ends a cycle, the cycle leaves exactly its last 8192 characters, the
    older text being discarded; a buffer within the limit is left alone; so
    the buffer is at most 16384 characters long after every cycle. *)
Theorem overflow_valve_bounds_buffer
  (idle : float) (chunk : string) (last_activity now : float)
  (buf : string) (st : state) :
  let body := cycle_body idle chunk last_activity now buf st in
  let after := fst (cycle idle chunk last_activity now buf st) in
  overflow_limit = 16384 /\ overflow_keep = 8192 /\
  snd (cycle idle chunk last_activity now buf st) = snd body /\
  (overflow_limit < String.length (fst body) ->
     after = last_chars overflow_keep (fst body) /\
     String.length after = overflow_keep /\
     exists old, fst body = old ++ after) /\
  (String.length (fst body) <= overflow_limit -> after = fst body) /\
  String.length after <= overflow_limit.
Proof.
  intros body after.
  subst after. rewrite cycle_split. fold body. cbn [fst snd].
  split; [reflexivity|]. split; [reflexivity|]. split; [reflexivity|].
  split; [apply overflow_valve_cut|].
  split; [apply overflow_valve_keep | apply overflow_valve_bound].
Qed.

(** A text of [n] copies of one character. *)
Fixpoint copies (n : nat) (c : ascii) : string :=
  match n with
  | O => EmptyString
  | S n' => String c (copies n' c)
  end.

Lemma overflow_valve_bounds_buffer_witness :
  let big := copies 16390 "x" in
  fst (cycle 1%float big 0%float 0%float "abc" initial)
    = last_chars overflow_keep ("abc" ++ big) /\
  String.length (fst (cycle 1%float big 0%float 0%float "abc" initial)) = 8192.
Proof.
  intro big.
  pose proof (overflow_valve_bounds_buffer 1%float big 0%float 0%float
                "abc" initial) as H.
  cbv zeta in H. destruct H as [_ [K [_ [H _]]]].
  assert (B : fst (cycle_body 1%float big 0%float 0%float "abc" initial)
              = "abc" ++ big) by (vm_compute; reflexivity).
  rewrite B in H. destruct H as [H1 [H2 _]].
  - apply Nat.ltb_lt. vm_compute. reflexivity.
  - split; [exact H1 | rewrite H2; exact K].
Defined.

(** C2, as the code has it. In one cycle the punctuation drain runs only
    if the newline drain handed no line to [emit]; the idle flush of the
    whole leftover happens whenever the buffer has been idle for the idle
    window and the leftover is not blank, whether or not a drain produced
    output.  The segments handed to [emit], and the buffer left, are the
    function [cycle_segments] of the buffer and of the idle test. *)
Theorem cycle_body_segments
  (idle : float) (chunk : string) (last_activity now : float)
  (buf : string) (st : state) :
  let due := idle_due idle last_activity now in
  let lines := List.filter nonblank (fst (split_lines (buf ++ chunk))) in
  let leftover := snd (drain_segments (buf ++ chunk)) in
  cycle_body idle chunk last_activity now buf st =
    (snd (cycle_segments due (buf ++ chunk)),
     emit_all (fst (cycle_segments due (buf ++ chunk))) st) /\
  fst (drain_segments (buf ++ chunk)) =
    (if is_nil lines
     then fst (split_sentences (snd (split_lines (buf ++ chunk))))
     else lines) /\
  cycle_segments due (buf ++ chunk) =
    (if due && nonblank leftover
     then ((fst (drain_segments (buf ++ chunk)) ++ [strip leftover])%list,
           EmptyString)
     else drain_segments (buf ++ chunk)).
Proof.
  intros due lines leftover. split; [|split].
  - apply cycle_body_emits.
  - unfold drain_segments. subst lines.
    destruct (split_lines (buf ++ chunk)) as [ls rest]. cbn [fst snd].
    destruct (is_nil (List.filter nonblank ls)); reflexivity.
  - unfold cycle_segments. subst leftover.
    destruct (drain_segments (buf ++ chunk)) as [segs rest]. reflexivity.
Qed.

(** C2, as it is worded, fails: with the idle window at zero, a buffer of
    one complete line followed by a fragment has the line written by the
    newline drain and the fragment written by the idle flush in the same
    cycle, where the priority rule allows the line only. *)
Lemma idle_flush_after_drain :
  let chunk := "a" ++ String newline "b" in
  idle_sec 0 = Ok 0%float /\
  idle_due 0%float 1000%float 1000%float = true /\
  out (snd (drain_newlines chunk initial)) = ["a"] /\
  out (snd (cycle_body 0%float chunk 1000%float 1000%float "" initial))
    = ["a"; "b"] /\
  priority_segments true chunk = (["a"], "b") /\
  cycle_body 0%float chunk 1000%float 1000%float "" initial <>
    (snd (priority_segments true chunk),
     emit_all (fst (priority_segments true chunk)) initial).
Proof.
  cbv zeta. repeat split; try (vm_compute; reflexivity).
  vm_compute. discriminate.
Qed.

(** The newline drain has priority over the punctuation drain: a complete
    line is handed to [emit] whole, terminators inside it or after it are
    left alone in that cycle. *)
Example newline_before_punctuation :
  let chunk := "Hi. there" ++ String newline "Bye. so" in
  cycle_segments false chunk = (["Hi. there"], "Bye. so") /\
  cycle_segments false "Bye. so" = (["Bye."], " so") /\
  cycle_segments true " so" = (["so"], "").
Proof. cbv zeta. repeat split; vm_compute; reflexivity. Qed.

(** Every state that a cycle reaches from a state that satisfies the window
    invariant satisfies it. *)
Lemma window_inv_cycle
  (idle : float) (chunk : string) (last_activity now : float)
  (buf : string) (st : state) :
  window_inv st ->
  window_inv (snd (cycle idle chunk last_activity now buf st)).
Proof.
  intro I. rewrite cycle_split, cycle_body_emits. cbn [snd].
  apply window_inv_emit_all. exact I.
Qed.

(** Along a run of [process_stream] the window invariant holds, and once a
    chunk has arrived the buffer is within the limit. *)
Lemma cycles_invariants (idle : float) (arrivals : list arrival)
  (buf : string) (st : state) :
  window_inv st ->
  window_inv (snd (cycles idle arrivals buf st)) /\
  (arrivals <> [] \/ String.length buf <= overflow_limit ->
   String.length (fst (cycles idle arrivals buf st)) <= overflow_limit).
Proof.
  revert buf st. induction arrivals as [|a rest IH]; intros buf st I.
  - cbn. split; [exact I|]. intros [H|H]; [congruence | exact H].
  - cbn [cycles].
    pose proof (window_inv_cycle idle (chunk a) (last_activity a) (now a)
                  buf st I) as I'.
    assert (B : String.length
                  (fst (cycle idle (chunk a) (last_activity a) (now a) buf st))
                <= overflow_limit)
      by (rewrite cycle_split; apply overflow_valve_bound).
    destruct (cycle idle (chunk a) (last_activity a) (now a) buf st)
      as [buf' st'].
    cbn [fst snd] in *. destruct (IH buf' st' I') as [J K].
    split; [exact J|]. intros _. apply K. right. exact B.
Qed.

End CleanerProps.

(* ===================================================================== *)
(** * Properties of the Glossifier *)
(* ===================================================================== *)

Module GlossifierProps.
Import Py Json Glossifier.

(** ** Rounding *)

Lemma round_half_even_nearest (m : positive) (e : Z) :
  (e < 0)%Z ->
  let d := (2 ^ (- e))%Z in
  (0 < d)%Z /\
  (Z.abs (2 * (round_half_even m e * d - Z.pos m)) <= d)%Z.
Proof.
  intros He d.
  assert (Hd : (0 < d)%Z) by (apply Z.pow_pos_nonneg; lia).
  split; [exact Hd|].
  unfold round_half_even.
  destruct (0 <=? e)%Z eqn:E; [apply Z.leb_le in E; lia|].
  fold d.
  pose proof (Z.div_mod (Z.pos m) d ltac:(lia)) as Hdm.
  pose proof (Z.mod_pos_bound (Z.pos m) d Hd) as Hr.
  set (q := (Z.pos m / d)%Z) in *.
  set (r := (Z.pos m mod d)%Z) in *.
  clearbody q r. clearbody d.
  assert (Lo : (q * d - Z.pos m = - r)%Z) by (rewrite Hdm; ring).
  assert (Hi : ((q + 1) * d - Z.pos m = d - r)%Z) by (rewrite Hdm; ring).
  destruct (2 * r ?= d)%Z eqn:C.
  - apply Z.compare_eq in C.
    destruct (Z.even q); [rewrite Lo | rewrite Hi]; lia.
  - change (2 * r < d)%Z in C. rewrite Lo. lia.
  - change (2 * r > d)%Z in C. rewrite Hi. lia.
Qed.

(** [round] returns on every finite float, with an integer at distance at
    most one half from it. *)
Lemma round_finite (x : float) :
  is_finite x = true ->
  exists n, round x = Ok n /\
            (Qabs (inject_Z n - float_value x) <= 1 # 2)%Q.
Proof.
  unfold is_finite, round, float_value.
  destruct (Prim2SF x) as [s|s| |s m e]; try discriminate; intros _.
  - exists 0%Z. split; [reflexivity|]. vm_compute. discriminate.
  - eexists. split; [reflexivity|].
    destruct (0 <=? e)%Z eqn:E.
    + unfold round_half_even. rewrite E.
      assert (Z0 : forall v : Z,
                 (Qabs (inject_Z v - inject_Z v) <= 1 # 2)%Q).
      { intro v. setoid_replace (inject_Z v - inject_Z v)%Q with 0%Q by ring.
        vm_compute. discriminate. }
      destruct s.
      * rewrite inject_Z_opp. unfold Qminus.
        setoid_replace (- inject_Z (Z.pos m * 2 ^ e)
                        + - - inject_Z (Z.pos m * 2 ^ e))%Q with 0%Q by ring.
        vm_compute. discriminate.
      * apply Z0.
    + apply Z.leb_gt in E.
      destruct (round_half_even_nearest m e E) as [Hd Hn].
      cbv zeta in Hd, Hn.
      set (d := (2 ^ (- e))%Z) in *.
      set (n := round_half_even m e) in *.
      apply Qabs_Qle_condition.
      assert (Hp : Z.pos (Z.to_pos d) = d) by (apply Z2Pos.id; exact Hd).
      destruct s; unfold Qle, Qminus, Qplus, Qopp, inject_Z; cbn [Qnum Qden];
        rewrite ?Hp; split; nia.
Qed.

(** The divisor [max(rate, 0.01)] is never zero. *)
Lemma max2_floor_nonzero (r : float) :
  PrimFloat.eqb (max2 r rate_floor) PrimFloat.zero = false.
Proof.
  unfold max2. rewrite ltb_spec.
  destruct (SFltb (Prim2SF r) (Prim2SF rate_floor)) eqn:E.
  - reflexivity.
  - rewrite eqb_spec.
    change (Prim2SF PrimFloat.zero) with (S754_zero false).
    change (Prim2SF rate_floor)
      with (S754_finite false 5764607523034235 (-59)) in E.
    destruct (Prim2SF r) as [s|s| |s m e]; try reflexivity.
    + discriminate E.
    + destruct s; reflexivity.
    + destruct s; reflexivity.
Qed.

(** ** Lexicon entries that yield a clip *)

(** The nominal duration of an entry: [entry.get("dur_ms", 1000)]. *)
Definition nominal (d : dict) : jval := get_default d "dur_ms" (JInt 1000).

(** [dur_src / max(rate, 0.01)] for an integer [dur_src] that fits a float. *)
Definition scaled (f : float) (rate : float) : float :=
  PrimFloat.div f (max2 rate rate_floor).

(** The gloss has a lexicon entry and the entry is well formed: a non-empty
    dictionary whose nominal duration is an integer that fits a float and
    whose scaled duration is finite. *)
Definition playable (lex : dict) (rate : float) (g : string) : bool :=
  match lookup lex g with
  | JObj ((_ :: _) as d) =>
      match as_int (nominal d) with
      | Some n =>
          match float_of_int n with
          | Ok f => is_finite (scaled f rate)
          | Raise _ => false
          end
      | None => false
      end
  | _ => false
  end.

Lemma clip_duration_finite (v : jval) (n : Z) (f : float) (rate : float) :
  as_int v = Some n ->
  float_of_int n = Ok f ->
  is_finite (scaled f rate) = true ->
  exists dur,
    clip_duration v rate = Ok dur /\
    round (scaled f rate) = Ok dur /\
    (Qabs (inject_Z dur - float_value (scaled f rate)) <= 1 # 2)%Q.
Proof.
  intros Hv Hf Hfin.
  destruct (round_finite _ Hfin) as [dur [Hr Hn]].
  exists dur. split; [|split; assumption].
  unfold clip_duration. rewrite Hv, Hf. cbn [bind].
  unfold truediv. rewrite max2_floor_nonzero. cbn [bind]. exact Hr.
Qed.

Lemma playable_clip (lex : dict) (rate : float) (g : string) :
  playable lex rate g = true ->
  exists d n f dur,
    lookup lex g = JObj d /\
    truthy (lookup lex g) = true /\
    as_int (nominal d) = Some n /\
    float_of_int n = Ok f /\
    round (scaled f rate) = Ok dur /\
    (Qabs (inject_Z dur - float_value (scaled f rate)) <= 1 # 2)%Q /\
    entry_clip g (lookup lex g) rate =
      Ok (clip (get_default d "label" (JStr g)) (get_default d "asset" JNull) dur).
Proof.
  unfold playable. intro H.
  destruct (lookup lex g) as [ | | | | |d] eqn:L; try discriminate.
  destruct d as [|kv d']; [discriminate|].
  destruct (as_int (nominal (kv :: d'))) as [n|] eqn:Hn; [|discriminate].
  destruct (float_of_int n) as [f|] eqn:Hf; [|discriminate].
  destruct (clip_duration_finite _ n f rate Hn Hf H) as [dur [Hd [Hr Hq]]].
  exists (kv :: d'), n, f, dur.
  repeat (split; [first [reflexivity | assumption]|]).
  unfold entry_clip, py_get. cbn [bind].
  fold (nominal (kv :: d')). rewrite Hd. reflexivity.
Qed.

(** The gloss has a lexicon entry: the test [if entry:] passes. *)
Definition has_entry (lex : dict) (g : string) : bool := truthy (lookup lex g).

(** The queue item [item] is the clip of the gloss [g]: its [dur_ms] is the
    nominal duration of the entry of [g], 1000 when the entry gives none,
    divided by [max(rate, 0.01)] as a float and rounded to a nearest
    integer. *)
Definition scaled_clip (lex : dict) (rate : float) (g : string) (item : jval)
  : Prop :=
  exists d n f dur,
    lookup lex g = JObj d /\
    as_int (get_default d "dur_ms" (JInt 1000)) = Some n /\
    float_of_int n = Ok f /\
    round (PrimFloat.div f (max2 rate rate_floor)) = Ok dur /\
    (Qabs (inject_Z dur
           - float_value (PrimFloat.div f (max2 rate rate_floor)))
       <= 1 # 2)%Q /\
    item = clip (get_default d "label" (JStr g))
                (get_default d "asset" JNull) dur /\
    py_get item "type" JNull = Ok (JStr "clip") /\
    py_get item "dur_ms" JNull = Ok (JInt dur).

Lemma playable_scaled_clip (lex : dict) (rate : float) (g : string) :
  playable lex rate g = true ->
  exists c,
    entry_clip g (lookup lex g) rate = Ok c /\
    is_clip c = true /\
    scaled_clip lex rate g c.
Proof.
  intro H.
  destruct (playable_clip lex rate g H)
    as [d [n [f [dur [L [T [Hn [Hf [Hr [Hq Hc]]]]]]]]]].
  exists (clip (get_default d "label" (JStr g))
               (get_default d "asset" JNull) dur).
  split; [exact Hc|]. split; [reflexivity|].
  exists d, n, f, dur.
  repeat (split; [first [assumption | reflexivity]|]). reflexivity.
Qed.

(** The loop, entered at any index with any queue, appends items whose
    clips are, in order, the clips of the remaining glosses that have an
    entry, each with its scaled duration. *)
Lemma map_loop_scaled_clips (lex : dict) (tween_ms : Z) (rate : float)
  (len : nat) (rest : list string) :
  (forall g, In g rest -> has_entry lex g = true ->
             playable lex rate g = true) ->
  forall (i : nat) (queue : list jval),
    exists new,
      map_loop lex tween_ms rate len i rest queue = Ok (queue ++ new)%list /\
      Forall2 (scaled_clip lex rate)
        (List.filter (has_entry lex) rest) (List.filter is_clip new).
Proof.
  induction rest as [|g rest IH]; intros Hall i queue.
  - exists []. cbn. rewrite List.app_nil_r. split; [reflexivity|constructor].
  - assert (Hrest : forall g', In g' rest -> has_entry lex g' = true ->
                      playable lex rate g' = true)
      by (intros g' H'; apply Hall; right; exact H').
    cbn [map_loop List.filter]. fold (has_entry lex g).
    destruct (has_entry lex g) eqn:M.
    + destruct (playable_scaled_clip lex rate g
                  (Hall g (or_introl eq_refl) M)) as [c [Hc [Ic Sc]]].
      rewrite Hc. cbn [bind].
      destruct (negb (tween_ms =? 0)%Z && Nat.ltb i (len - 1)).
      * destruct (IH Hrest (S i) ((queue ++ [c]) ++ [tween tween_ms])%list)
          as [new [E F]].
        exists (c :: tween tween_ms :: new).
        rewrite E, <- !List.app_assoc. split; [reflexivity|].
        cbn [List.filter]. rewrite Ic.
        change (is_clip (tween tween_ms)) with false.
        constructor; assumption.
      * destruct (IH Hrest (S i) (queue ++ [c])%list) as [new [E F]].
        exists (c :: new).
        rewrite E, <- List.app_assoc. split; [reflexivity|].
        cbn [List.filter]. rewrite Ic. constructor; assumption.
    + apply (IH Hrest).
Qed.

(** C6. Whatever the gloss sequence, when every gloss that has a lexicon
    entry has a well-formed one the queue is returned and its clips are,
    in order, the clips of the glosses that have an entry: the [dur_ms] of
    each is the nominal duration of the entry, 1000 when it gives none,
    divided by [max(rate, 0.01)] as a float and rounded to a nearest
    integer.  A single gloss gives that clip alone; nominal 1000 gives 500
    at rate 2.0 and 2000 at rate 0.5. *)
Theorem clip_duration_rate_scaling :
  (forall (lex : dict) (tween_ms : Z) (rate : float) (gloss : list string),
      (forall g, In g gloss -> has_entry lex g = true ->
                 playable lex rate g = true) ->
      exists queue,
        map_gloss_to_queue gloss lex tween_ms rate = Ok queue /\
        Forall2 (scaled_clip lex rate)
          (List.filter (has_entry lex) gloss) (List.filter is_clip queue)) /\
  (forall (lex : dict) (tween_ms : Z) (rate : float) (g : string),
      playable lex rate g = true ->
      exists d n f dur,
        lookup lex g = JObj d /\
        as_int (get_default d "dur_ms" (JInt 1000)) = Some n /\
        float_of_int n = Ok f /\
        round (PrimFloat.div f (max2 rate rate_floor)) = Ok dur /\
        (Qabs (inject_Z dur
               - float_value (PrimFloat.div f (max2 rate rate_floor)))
           <= 1 # 2)%Q /\
        map_gloss_to_queue [g] lex tween_ms rate =
          Ok [clip (get_default d "label" (JStr g))
                   (get_default d "asset" JNull) dur]) /\
  clip_duration (JInt 1000) 2%float = Ok 500%Z /\
  clip_duration (JInt 1000) 0.5%float = Ok 2000%Z.
Proof.
  split; [|split; [|split; vm_compute; reflexivity]].
  - intros lex tween_ms rate gloss H.
    destruct (map_loop_scaled_clips lex tween_ms rate (List.length gloss)
                gloss H 0 []) as [new [E F]].
    exists new. split; assumption.
  - intros lex tween_ms rate g H.
    destruct (playable_clip lex rate g H)
      as [d [n [f [dur [L [T [Hn [Hf [Hr [Hq Hc]]]]]]]]]].
    exists d, n, f, dur.
    repeat (split; [assumption|]).
    unfold map_gloss_to_queue. cbn [map_loop List.length].
    rewrite T, Hc. cbn [bind].
    rewrite andb_false_r. reflexivity.
Qed.

(** A lexicon with three entries: one complete, one with neither label nor
    duration, one empty. *)
Definition sample_lex : dict :=
  [("hello", JObj [("label", JStr "HELLO"); ("asset", JStr "hello.mp4");
                   ("dur_ms", JInt 1000)]);
   ("WORLD", JObj [("asset", JStr "world.mp4")]);
   ("empty", JObj [])].

Lemma clip_duration_rate_scaling_witness :
  map_gloss_to_queue ["HELLO"; "XYZ"; "HELLO"; "WORLD"] sample_lex 100 2%float =
    Ok [clip (JStr "HELLO") (JStr "hello.mp4") 500; tween 100;
        clip (JStr "HELLO") (JStr "hello.mp4") 500; tween 100;
        clip (JStr "WORLD") (JStr "world.mp4") 500] /\
  map_gloss_to_queue ["WORLD"] sample_lex 100 0.5%float =
    Ok [clip (JStr "WORLD") (JStr "world.mp4") 2000] /\
  (exists queue,
      map_gloss_to_queue ["HELLO"; "XYZ"; "HELLO"; "WORLD"] sample_lex 100
        2%float = Ok queue /\
      Forall2 (scaled_clip sample_lex 2%float)
        ["HELLO"; "HELLO"; "WORLD"] (List.filter is_clip queue)) /\
  exists d n f dur,
    lookup sample_lex "WORLD" = JObj d /\
    as_int (get_default d "dur_ms" (JInt 1000)) = Some n /\
    float_of_int n = Ok f /\
    round (PrimFloat.div f (max2 0.5%float rate_floor)) = Ok dur /\
    (Qabs (inject_Z dur
           - float_value (PrimFloat.div f (max2 0.5%float rate_floor)))
       <= 1 # 2)%Q /\
    map_gloss_to_queue ["WORLD"] sample_lex 100 0.5%float =
      Ok [clip (get_default d "label" (JStr "WORLD"))
               (get_default d "asset" JNull) dur].
Proof.
  assert (P : playable sample_lex 0.5%float "WORLD" = true)
    by (vm_compute; reflexivity).
  assert (A : forall g, In g ["HELLO"; "XYZ"; "HELLO"; "WORLD"] ->
                has_entry sample_lex g = true ->
                playable sample_lex 2%float g = true).
  { intros g [E|[E|[E|[E|[]]]]] M; subst;
      first [discriminate M | vm_compute; reflexivity]. }
  split; [vm_compute; reflexivity|]. split; [vm_compute; reflexivity|].
  split.
  - exact (proj1 clip_duration_rate_scaling sample_lex 100%Z 2%float
             ["HELLO"; "XYZ"; "HELLO"; "WORLD"] A).
  - exact (proj1 (proj2 clip_duration_rate_scaling) sample_lex 100%Z
             0.5%float "WORLD" P).
Defined.

(** ** Tween placement *)

(** A queue that starts with a clip, ends with a clip, and alternates clips
    and tweens in between. *)
Inductive alternating : list jval -> Prop :=
| alternating_last (c : jval) :
    is_clip c = true -> alternating [c]
| alternating_more (c t : jval) (q : list jval) :
    is_clip c = true -> is_tween t = true -> alternating q ->
    alternating (c :: t :: q).

Definition count (p : jval -> bool) (q : list jval) : nat :=
  List.length (List.filter p q).

(** The clips [cs] with [t] between each two of them. *)
Fixpoint intersperse (t : jval) (cs : list jval) : list jval :=
  match cs with
  | [] => []
  | [c] => [c]
  | c :: cs' => c :: t :: intersperse t cs'
  end.

Definition is_built_clip (c : jval) : Prop :=
  exists label asset dur, c = clip label asset dur.

Lemma built_clip_is_clip (c : jval) :
  is_built_clip c -> is_clip c = true /\ is_tween c = false.
Proof. intros [l [a [d E]]]; subst. split; reflexivity. Qed.

Lemma tween_is_tween (ms : Z) :
  is_tween (tween ms) = true /\ is_clip (tween ms) = false.
Proof. split; reflexivity. Qed.

Lemma intersperse_alternating (t : jval) (cs : list jval) :
  is_tween t = true -> cs <> [] -> Forall is_built_clip cs ->
  alternating (intersperse t cs).
Proof.
  intros Ht. induction cs as [|c cs IH]; intros Hne Hall; [congruence|].
  inversion Hall as [|c' cs' Hc Hcs]; subst.
  destruct (built_clip_is_clip c Hc) as [Hclip _].
  destruct cs as [|c2 cs2].
  - apply alternating_last. exact Hclip.
  - change (alternating (c :: t :: intersperse t (c2 :: cs2))).
    apply alternating_more; [exact Hclip | exact Ht |].
    apply IH; [discriminate | exact Hcs].
Qed.

Lemma intersperse_counts (t : jval) (cs : list jval) :
  is_tween t = true -> is_clip t = false -> Forall is_built_clip cs ->
  count is_clip (intersperse t cs) = List.length cs /\
  count is_tween (intersperse t cs) = List.length cs - 1.
Proof.
  intros Ht Hn. unfold count.
  induction cs as [|c cs IH]; intro Hall; [split; reflexivity|].
  inversion Hall as [|c' cs' Hc Hcs]; subst.
  destruct (built_clip_is_clip c Hc) as [Hclip Hnot].
  destruct cs as [|c2 cs2].
  - cbn. rewrite Hclip, Hnot. split; reflexivity.
  - change (intersperse t (c :: c2 :: cs2))
      with (c :: t :: intersperse t (c2 :: cs2)).
    destruct (IH Hcs) as [IH1 IH2].
    cbn [List.filter]. rewrite Hclip, Hnot, Ht, Hn.
    cbn [List.length]. rewrite IH1, IH2. cbn [List.length]. split; lia.
Qed.

(** The loop, entered at index [i] with every remaining gloss playable,
    appends the clips of the remaining glosses with a tween between each
    two of them. *)
Lemma map_loop_all_playable (lex : dict) (tween_ms : Z) (rate : float)
  (len : nat) (rest : list string) :
  tween_ms <> 0%Z ->
  (forall g, In g rest -> playable lex rate g = true) ->
  forall (i : nat) (queue : list jval),
    i + List.length rest = len ->
    exists cs,
      List.length cs = List.length rest /\
      Forall is_built_clip cs /\
      map_loop lex tween_ms rate len i rest queue =
        Ok (queue ++ intersperse (tween tween_ms) cs)%list.
Proof.
  intros Htw. induction rest as [|g rest IH]; intros Hall i queue Hlen.
  - exists []. cbn. rewrite List.app_nil_r. repeat split. constructor.
  - destruct (playable_clip lex rate g (Hall g (or_introl eq_refl)))
      as [d [n [f [dur [_ [T [_ [_ [_ [_ Hc]]]]]]]]]].
    cbn [map_loop]. rewrite T, Hc. cbn [bind].
    assert (Hz : negb (tween_ms =? 0)%Z = true)
      by (apply negb_true_iff, Z.eqb_neq; exact Htw).
    rewrite Hz. cbn [andb].
    set (c := clip (get_default d "label" (JStr g))
                   (get_default d "asset" JNull) dur).
    assert (Bc : is_built_clip c) by (repeat eexists).
    cbn [List.length] in Hlen.
    destruct rest as [|g2 rest2].
    + assert (E : Nat.ltb i (len - 1) = false)
        by (apply Nat.ltb_ge; cbn in Hlen; lia).
      rewrite E. cbn [map_loop].
      exists [c]. repeat split. constructor; [exact Bc | constructor].
    + assert (E : Nat.ltb i (len - 1) = true)
        by (apply Nat.ltb_lt; cbn in Hlen; lia).
      rewrite E.
      destruct (IH (fun g' H' => Hall g' (or_intror H')) (S i)
                  ((queue ++ [c]) ++ [tween tween_ms])%list)
        as [cs [Hl [Hb Hm]]]; [cbn in Hlen |- *; lia|].
      rewrite Hm. exists (c :: cs). split; [cbn; rewrite Hl; reflexivity|].
      split; [constructor; assumption|].
      destruct cs as [|c2 cs2]; [discriminate Hl|].
      change (intersperse (tween tween_ms) (c :: c2 :: cs2))
        with (c :: tween tween_ms :: intersperse (tween tween_ms) (c2 :: cs2)).
      rewrite <- !List.app_assoc. reflexivity.
Qed.

(** C7. For a sequence of N >= 1 glosses, each with a well-formed lexicon
    entry, and a tween duration above zero, the queue holds exactly N clips
    and N-1 tweens, alternating, with a clip first and a clip last. *)
Theorem all_mapped_queue_alternates
  (gloss : list string) (lex : dict) (tween_ms : Z) (rate : float) :
  1 <= List.length gloss ->
  (0 < tween_ms)%Z ->
  (forall g, In g gloss -> playable lex rate g = true) ->
  exists queue,
    map_gloss_to_queue gloss lex tween_ms rate = Ok queue /\
    count is_clip queue = List.length gloss /\
    count is_tween queue = List.length gloss - 1 /\
    List.length queue = 2 * List.length gloss - 1 /\
    alternating queue.
Proof.
  intros Hn Htw Hall.
  destruct (map_loop_all_playable lex tween_ms rate (List.length gloss) gloss
              ltac:(lia) Hall 0 [] eq_refl) as [cs [Hl [Hb Hm]]].
  exists (intersperse (tween tween_ms) cs).
  destruct (tween_is_tween tween_ms) as [Ht Hc].
  destruct (intersperse_counts _ cs Ht Hc Hb) as [C1 C2].
  assert (A : alternating (intersperse (tween tween_ms) cs)).
  { apply intersperse_alternating; [exact Ht | | exact Hb].
    intro E; subst cs. cbn in Hl. lia. }
  split; [exact Hm|]. rewrite C1, C2, Hl.
  repeat split; try exact A.
  clear - Hl. rewrite <- Hl. clear Hl.
  induction cs as [|c [|c2 cs2] IH]; cbn [intersperse List.length] in *; lia.
Qed.

Lemma all_mapped_queue_alternates_witness :
  exists queue,
    map_gloss_to_queue ["HELLO"; "WORLD"; "HELLO"] sample_lex 100 1%float
      = Ok queue /\
    count is_clip queue = 3 /\
    count is_tween queue = 2 /\
    List.length queue = 5 /\
    alternating queue.
Proof.
  apply (all_mapped_queue_alternates ["HELLO"; "WORLD"; "HELLO"]
           sample_lex 100%Z 1%float).
  - cbn. lia.
  - lia.
  - intros g [E|[E|[E|[]]]]; subst; vm_compute; reflexivity.
Defined.

(** Every tween of the queue comes right after a clip: [after_clip] tells
    whether the item before the head of the list was a clip. *)
Fixpoint tweens_guarded (after_clip : bool) (q : list jval) : bool :=
  match q with
  | [] => true
  | x :: r =>
      if is_tween x then after_clip && tweens_guarded false r
      else tweens_guarded (is_clip x) r
  end.

Lemma tweens_guarded_snoc_clip (q : list jval) (c : jval) (b : bool) :
  is_built_clip c ->
  tweens_guarded b (q ++ [c]) = tweens_guarded b q.
Proof.
  intro Bc. destruct (built_clip_is_clip c Bc) as [_ Hn].
  revert b. induction q as [|x q IH]; intro b.
  - cbn. rewrite Hn. reflexivity.
  - cbn [List.app tweens_guarded]. rewrite !IH. reflexivity.
Qed.

Lemma tweens_guarded_snoc_pair (q : list jval) (c : jval) (ms : Z) (b : bool) :
  is_built_clip c ->
  tweens_guarded b (q ++ [c; tween ms]) = tweens_guarded b q.
Proof.
  intro Bc. destruct (built_clip_is_clip c Bc) as [Hc Hn].
  revert b. induction q as [|x q IH]; intro b.
  - cbn [List.app tweens_guarded]. rewrite Hn, Hc.
    destruct (tween_is_tween ms) as [Ht _]. rewrite Ht. reflexivity.
  - cbn [List.app tweens_guarded]. rewrite !IH. reflexivity.
Qed.

Lemma entry_clip_built (g : string) (entry : jval) (rate : float) (c : jval) :
  entry_clip g entry rate = Ok c -> is_built_clip c.
Proof.
  unfold entry_clip. intro H.
  destruct (py_get entry "dur_ms" (JInt 1000)) as [v|]; [|discriminate].
  cbn [bind] in H.
  destruct (clip_duration v rate) as [dur|]; [|discriminate].
  cbn [bind] in H.
  destruct (py_get entry "label" (JStr g)) as [l|]; [|discriminate].
  cbn [bind] in H.
  destruct (py_get entry "asset" JNull) as [a|]; [|discriminate].
  cbn [bind] in H. inversion H. exists l, a, dur. reflexivity.
Qed.

Lemma map_loop_tweens_guarded (lex : dict) (tween_ms : Z) (rate : float)
  (len : nat) (gloss : list string) :
  forall (i : nat) (queue q : list jval) (b : bool),
    map_loop lex tween_ms rate len i gloss queue = Ok q ->
    tweens_guarded b queue = true ->
    tweens_guarded b q = true.
Proof.
  induction gloss as [|g rest IH]; intros i queue q b H G.
  - cbn in H. inversion H; subst. exact G.
  - cbn [map_loop] in H.
    destruct (truthy (lookup lex g)); [|exact (IH _ _ _ _ H G)].
    destruct (entry_clip g (lookup lex g) rate) as [c|] eqn:Ec;
      [|discriminate].
    cbn [bind] in H. apply entry_clip_built in Ec.
    apply (IH _ _ _ _ H).
    destruct (negb (tween_ms =? 0)%Z && Nat.ltb i (len - 1)).
    + rewrite <- List.app_assoc. cbn [List.app].
      rewrite tweens_guarded_snoc_pair; assumption.
    + rewrite tweens_guarded_snoc_clip; assumption.
Qed.

(** Whatever the lexicon, a queue that is returned never begins with a
    tween and never holds two tweens in a row. *)
Lemma tweens_follow_clips (gloss : list string) (lex : dict) (tween_ms : Z)
  (rate : float) (q : list jval) :
  map_gloss_to_queue gloss lex tween_ms rate = Ok q ->
  tweens_guarded false q = true /\
  (forall t r, q = t :: r -> is_tween t = false) /\
  (forall pre t1 t2 post,
      q = (pre ++ t1 :: t2 :: post)%list ->
      is_tween t1 = true -> is_tween t2 = false).
Proof.
  intro H.
  assert (G : tweens_guarded false q = true)
    by (apply (map_loop_tweens_guarded _ _ _ _ _ _ _ _ _ H); reflexivity).
  split; [exact G|]. split.
  - intros t r E. subst q. cbn in G.
    destruct (is_tween t); [discriminate | reflexivity].
  - intros pre t1 t2 post E H1. subst q.
    enough (K : forall b,
               tweens_guarded b (pre ++ t1 :: t2 :: post) = true ->
               is_tween t2 = false) by exact (K false G).
    clear G H. induction pre as [|x pre IH]; intros b G.
    + cbn [List.app tweens_guarded] in G. rewrite H1 in G.
      destruct (is_tween t2) eqn:H2; [|reflexivity].
      cbn [andb] in G. destruct b; discriminate G.
    + cbn [List.app tweens_guarded] in G.
      destruct (is_tween x).
      * apply andb_true_iff in G. destruct G as [_ G]. exact (IH _ G).
      * exact (IH _ G).
Qed.

(** C1 fails on the code: the tween is appended after a clip whenever
    the gloss is not the last of the sequence, also when no later gloss has
    a lexicon entry.  With [HELLO] in the lexicon and [XYZ] not, the queue
    of [HELLO XYZ] is the clip of [HELLO] followed by a tween, and so ends
    with a tween that stands between no two clips. *)
Theorem trailing_tween_after_unmapped_gloss :
  truthy (lookup sample_lex "XYZ") = false /\
  playable sample_lex 1%float "HELLO" = true /\
  map_gloss_to_queue ["HELLO"; "XYZ"] sample_lex 100 1%float =
    Ok [clip (JStr "HELLO") (JStr "hello.mp4") 1000; tween 100] /\
  (exists queue last,
      map_gloss_to_queue ["HELLO"; "XYZ"] sample_lex 100 1%float
        = Ok (queue ++ [last])%list /\
      is_tween last = true) /\
  map_gloss_to_queue ["HELLO"] sample_lex 100 1%float =
    Ok [clip (JStr "HELLO") (JStr "hello.mp4") 1000].
Proof.
  split; [reflexivity|]. split; [vm_compute; reflexivity|].
  assert (E : map_gloss_to_queue ["HELLO"; "XYZ"] sample_lex 100 1%float =
              Ok [clip (JStr "HELLO") (JStr "hello.mp4") 1000; tween 100])
    by (vm_compute; reflexivity).
  split; [exact E|]. split.
  - exists [clip (JStr "HELLO") (JStr "hello.mp4") 1000], (tween 100).
    split; [exact E | reflexivity].
  - vm_compute. reflexivity.
Qed.

(** ** The repeat check of the main loop *)

Lemma deque_last_snoc {A : Type} (d : list A) (x : A) :
  deque_last (d ++ [x]) = Some x.
Proof.
  unfold deque_last. rewrite List.map_app. cbn [List.map].
  apply List.last_last.
Qed.

Lemma deque_last_append {A : Type} (n : nat) (d : list A) (x : A) :
  deque_last (deque_append n d x) = Some x.
Proof.
  unfold deque_append. destruct (Nat.leb n (List.length d));
    apply deque_last_snoc.
Qed.

Lemma In_deque_append_new {A : Type} (n : nat) (d : list A) (x : A) :
  In x (deque_append n d x).
Proof.
  unfold deque_append. destruct (Nat.leb n (List.length d));
    apply List.in_or_app; right; left; reflexivity.
Qed.

(** The raw line as the loop compares it and records it. *)
Definition normalized (raw : string) : string := strip (sub_space raw).

(** The state after a line has been accepted and its record written. *)
Definition accepted (cfg : config) (line : string) (queue : list jval)
  (st : state) : state :=
  mkState (deque_append 8 (recent_lines st) line)
          (written st ++
             [record line (sent_to_gloss line) queue (sentence_pause_ms cfg)]).

Lemma nonempty_false (s : string) : nonempty s = false <-> s = EmptyString.
Proof. destruct s; cbn; split; intro H; congruence. Qed.

Lemma repeats_last_iff (line : string) (d : list string) :
  repeats_last line d = true <-> deque_last d = Some line.
Proof.
  unfold repeats_last. destruct (deque_last d) as [l|]; split; intro H;
    try discriminate.
  - apply String.eqb_eq in H. subst. reflexivity.
  - inversion H; subst. apply String.eqb_refl.
Qed.

Lemma step_skip (cfg : config) (raw : string) (st : state) :
  normalized raw = EmptyString \/
  deque_last (recent_lines st) = Some (normalized raw) ->
  step cfg raw st = Ok st.
Proof.
  intro H. unfold step. fold (normalized raw).
  destruct (nonempty (normalized raw)) eqn:N; cbn [negb]; [|reflexivity].
  destruct H as [H|H].
  - rewrite H in N. discriminate.
  - apply repeats_last_iff in H. rewrite H. reflexivity.
Qed.

Lemma step_accept (cfg : config) (raw : string) (st : state) :
  normalized raw <> EmptyString ->
  deque_last (recent_lines st) <> Some (normalized raw) ->
  step cfg raw st =
    bind (map_gloss_to_queue (sent_to_gloss (normalized raw))
            (lex cfg) (tween_ms cfg) (rate cfg))
         (fun queue => Ok (accepted cfg (normalized raw) queue st)).
Proof.
  intros H1 H2. unfold step. fold (normalized raw).
  destruct (nonempty (normalized raw)) eqn:N.
  - cbn [negb].
    destruct (repeats_last (normalized raw) (recent_lines st)) eqn:R.
    + apply repeats_last_iff in R. contradiction.
    + reflexivity.
  - apply nonempty_false in N. contradiction.
Qed.

(** C8. The loop collapses and trims the raw line first.  It then skips
    the line, writing no record and changing no state, when the result is
    empty or equal to the last accepted line.  Any other line is accepted,
    also when it equals an accepted line further back: of three lines
    A, B, A with A and B different, all three are accepted. *)
Theorem step_repeat_window_is_one :
  (forall (cfg : config) (raw : string) (st : state),
      normalized raw = EmptyString \/
      deque_last (recent_lines st) = Some (normalized raw) ->
      step cfg raw st = Ok st) /\
  (forall (cfg : config) (raw : string) (st : state),
      normalized raw <> EmptyString ->
      deque_last (recent_lines st) <> Some (normalized raw) ->
      step cfg raw st =
        bind (map_gloss_to_queue (sent_to_gloss (normalized raw))
                (lex cfg) (tween_ms cfg) (rate cfg))
             (fun queue => Ok (accepted cfg (normalized raw) queue st))) /\
  (forall (cfg : config) (a b : string) (st : state) (qa qb : list jval),
      normalized a <> EmptyString ->
      normalized b <> EmptyString ->
      normalized a <> normalized b ->
      deque_last (recent_lines st) <> Some (normalized a) ->
      map_gloss_to_queue (sent_to_gloss (normalized a))
        (lex cfg) (tween_ms cfg) (rate cfg) = Ok qa ->
      map_gloss_to_queue (sent_to_gloss (normalized b))
        (lex cfg) (tween_ms cfg) (rate cfg) = Ok qb ->
      let st1 := accepted cfg (normalized a) qa st in
      let st2 := accepted cfg (normalized b) qb st1 in
      In (normalized a) (recent_lines st2) /\
      run cfg [a; b; a] st = Ok (accepted cfg (normalized a) qa st2) /\
      run cfg [a; a; b] st = Ok (accepted cfg (normalized b) qb st1)).
Proof.
  split; [exact step_skip|]. split; [exact step_accept|].
  intros cfg a b st qa qb Ha Hb Hab Hlast Hqa Hqb st1 st2.
  assert (L1 : deque_last (recent_lines st1) = Some (normalized a))
    by apply deque_last_append.
  assert (L2 : deque_last (recent_lines st2) = Some (normalized b))
    by apply deque_last_append.
  assert (S1 : step cfg a st = Ok st1).
  { rewrite step_accept by assumption. rewrite Hqa. reflexivity. }
  assert (S2 : step cfg b st1 = Ok st2).
  { rewrite step_accept; [rewrite Hqb; reflexivity | exact Hb |].
    rewrite L1. congruence. }
  split; [|split].
  - subst st2. cbn [accepted recent_lines].
    unfold deque_append at 1.
    pose proof (In_deque_append_new 8 (recent_lines st) (normalized a)) as I.
    fold (recent_lines st1) in I. cbn [accepted recent_lines] in I.
    destruct (Nat.leb 8 (List.length (recent_lines st1))) eqn:E.
    + apply List.in_or_app.
      unfold st1 in *. cbn [accepted recent_lines] in *.
      destruct (deque_append 8 (recent_lines st) (normalized a))
        as [|x d] eqn:D; [destruct I|].
      cbn [List.tl]. destruct I as [I|I]; [|left; exact I].
      subst x. destruct d as [|y d'].
      * cbn in E. discriminate.
      * left.
        assert (Ld : deque_last (normalized a :: y :: d') = Some (normalized a))
          by (rewrite <- D; apply deque_last_append).
        unfold deque_last in Ld. cbn [List.map] in Ld.
        change (List.last (Some y :: List.map Some d') None = Some (normalized a))
          in Ld.
        clear - Ld. revert y Ld. induction d' as [|z d' IH]; intros y Ld.
        -- cbn in Ld. inversion Ld. left; reflexivity.
        -- right. apply IH. exact Ld.
    + apply List.in_or_app. left. exact I.
  - cbn [run]. rewrite S1. cbn [bind]. rewrite S2. cbn [bind].
    rewrite step_accept; [rewrite Hqa; reflexivity | exact Ha |].
    rewrite L2. congruence.
  - cbn [run]. rewrite S1. cbn [bind].
    rewrite (step_skip cfg a st1) by (right; exact L1). cbn [bind].
    rewrite S2. reflexivity.
Qed.

Definition sample_config : config := mkConfig sample_lex 100 250 1%float.

Lemma step_repeat_window_is_one_witness :
  step sample_config "   " initial = Ok initial /\
  (exists st,
      run sample_config ["hello   world"; "xyz"; "hello   world"] initial
        = Ok st /\
      List.length (written st) = 3 /\
      recent_lines st = ["hello world"; "xyz"; "hello world"]) /\
  (exists st,
      run sample_config ["hello   world"; "hello   world"; "xyz"] initial
        = Ok st /\
      List.length (written st) = 2).
Proof.
  destruct step_repeat_window_is_one as [skip [_ aba]].
  split; [apply skip; left; reflexivity|].
  destruct (aba sample_config "hello   world" "xyz" initial
              [clip (JStr "HELLO") (JStr "hello.mp4") 1000; tween 100;
               clip (JStr "WORLD") (JStr "world.mp4") 1000]
              [])
    as [_ [H1 H2]].
  - discriminate.
  - discriminate.
  - discriminate.
  - discriminate.
  - vm_compute. reflexivity.
  - vm_compute. reflexivity.
  - split.
    + eexists. split; [exact H1|]. split; reflexivity.
    + eexists. split; [exact H2|]. reflexivity.
Defined.

End GlossifierProps.

(* ===================================================================== *)
(** * Properties of the Streamer *)
(* ===================================================================== *)

Module StreamerProps.
Import Py Json Streamer.

(** ** One queue item *)

(** A dictionary whose [type] is the string [clip]. *)
Definition clip_typed (d : dict) : Prop :=
  dict_get "type" d = Some (JStr "clip").

(** [d.get(k)] gives something false: the key is absent, or maps to
    [None] or to the empty string. *)
Definition missing (k : string) (d : dict) : Prop :=
  dict_get k d = None \/ dict_get k d = Some JNull \/
  dict_get k d = Some (JStr EmptyString).

Lemma missing_falsy (k : string) (d : dict) :
  missing k d -> truthy (get_default d k JNull) = false.
Proof.
  unfold get_default. intros [H|[H|H]]; rewrite H; reflexivity.
Qed.

Lemma visit_clip (d : dict) (out_assets : list jval) (last : jval) :
  clip_typed d ->
  visit (JObj d) out_assets last =
    let label := get_default d "label" JNull in
    let asset := get_default d "asset" JNull in
    if negb (truthy asset) then Ok (out_assets, last)
    else if truthy label && py_eq label last then Ok (out_assets, last)
    else Ok ((out_assets ++ [asset])%list, label).
Proof.
  intro T. unfold visit, py_get. cbn [bind].
  unfold get_default at 1. rewrite T. reflexivity.
Qed.

(** C10. A clip item whose asset is absent, null or empty is skipped and
    the last emitted label stays as it was.  A clip item whose label is
    absent, null or empty and whose asset is not empty is emitted whatever
    the last emitted label is, the same empty label included, and that
    label becomes the last emitted one. *)
Theorem visit_missing_asset_or_label :
  (forall (d : dict) (out_assets : list jval) (last : jval),
      clip_typed d ->
      missing "asset" d ->
      visit (JObj d) out_assets last = Ok (out_assets, last)) /\
  (forall (d : dict) (out_assets : list jval) (last : jval),
      clip_typed d ->
      missing "label" d ->
      truthy (get_default d "asset" JNull) = true ->
      visit (JObj d) out_assets last =
        Ok ((out_assets ++ [get_default d "asset" JNull])%list,
            get_default d "label" JNull)) /\
  (forall (d : dict) (out_assets : list jval),
      clip_typed d ->
      missing "label" d ->
      truthy (get_default d "asset" JNull) = true ->
      visit_all [JObj d; JObj d] out_assets (get_default d "label" JNull) =
        (Ok (out_assets ++ [get_default d "asset" JNull;
                            get_default d "asset" JNull])%list,
         get_default d "label" JNull)).
Proof.
  assert (second :
    forall (d : dict) (out_assets : list jval) (last : jval),
      clip_typed d ->
      missing "label" d ->
      truthy (get_default d "asset" JNull) = true ->
      visit (JObj d) out_assets last =
        Ok ((out_assets ++ [get_default d "asset" JNull])%list,
            get_default d "label" JNull)).
  { intros d out_assets last T L A. rewrite (visit_clip d _ _ T). cbv zeta.
    rewrite A, (missing_falsy _ _ L). reflexivity. }
  split; [|split].
  - intros d out_assets last T A. rewrite (visit_clip d _ _ T). cbv zeta.
    rewrite (missing_falsy _ _ A). reflexivity.
  - exact second.
  - intros d out_assets T L A. cbn [visit_all].
    rewrite (second d _ _ T L A), (second d _ _ T L A).
    rewrite <- List.app_assoc. reflexivity.
Qed.

Lemma visit_missing_asset_or_label_witness :
  visit (JObj [("type", JStr "clip"); ("label", JStr "A")]) [] (JStr "B")
    = Ok ([], JStr "B") /\
  visit (JObj [("type", JStr "clip"); ("label", JStr ""); ("asset", JStr "c.mp4")])
        [] (JStr "")
    = Ok ([JStr "c.mp4"], JStr "") /\
  visit (JObj [("type", JStr "clip"); ("asset", JStr "c.mp4")]) [] JNull
    = Ok ([JStr "c.mp4"], JNull).
Proof.
  destruct visit_missing_asset_or_label as [no_asset [no_label _]].
  split; [|split].
  - apply no_asset; [reflexivity | left; reflexivity].
  - apply (no_label [("type", JStr "clip"); ("label", JStr "");
                     ("asset", JStr "c.mp4")] [] (JStr ""));
      [reflexivity | right; right; reflexivity | reflexivity].
  - apply (no_label [("type", JStr "clip"); ("asset", JStr "c.mp4")] [] JNull);
      [reflexivity | left; reflexivity | reflexivity].
Defined.

(** ** Collapse of adjacent labels *)

Lemma py_eq_str (s : string) (v : jval) :
  py_eq (JStr s) v = true <-> v = JStr s.
Proof.
  destruct v; cbn; split; intro H; try discriminate.
  - apply String.eqb_eq in H. subst. reflexivity.
  - inversion H. apply String.eqb_refl.
Qed.

Lemma visit_all_app (q1 q2 : list jval) (out_assets : list jval) (last : jval) :
  visit_all (q1 ++ q2) out_assets last =
    match visit_all q1 out_assets last with
    | (Ok out', last') => visit_all q2 out' last'
    | (Raise e, last') => (Raise e, last')
    end.
Proof.
  revert out_assets last. induction q1 as [|item q1 IH]; intros out_assets last.
  - reflexivity.
  - cbn [List.app visit_all].
    destruct (visit item out_assets last) as [[out' last']|e];
      [apply IH | reflexivity].
Qed.

(** A clip item with the non-empty string [l] for label and the non-empty
    asset [a]. *)
Definition labelled_clip (d : dict) (l : string) (a : jval) : Prop :=
  clip_typed d /\
  dict_get "label" d = Some (JStr l) /\ l <> EmptyString /\
  dict_get "asset" d = Some a /\ truthy a = true.

(** The record [obj] is a dictionary whose queue is the list [q]. *)
Definition has_queue (obj : jval) (q : list jval) : Prop :=
  exists d, obj = JObj d /\ dict_get "queue" d = Some (JArr q).

Lemma process_record_queue (obj : jval) (q : list jval) (last : jval) :
  has_queue obj q -> process_record obj last = visit_all q [] last.
Proof.
  intros [d [E Q]]. subst. unfold process_record, py_get, get_default.
  rewrite Q. reflexivity.
Qed.

Lemma visit_labelled (d : dict) (l : string) (a : jval)
  (out_assets : list jval) (last : jval) :
  labelled_clip d l a ->
  visit (JObj d) out_assets last =
    Ok (if py_eq (JStr l) last then (out_assets, last)
        else ((out_assets ++ [a])%list, JStr l)) /\
  (forall out' last',
      visit (JObj d) out_assets last = Ok (out', last') -> last' = JStr l).
Proof.
  intros [T [L [Ne [A Ta]]]].
  assert (E : visit (JObj d) out_assets last =
              Ok (if py_eq (JStr l) last then (out_assets, last)
                  else ((out_assets ++ [a])%list, JStr l))).
  { rewrite (visit_clip d _ _ T). cbv zeta. unfold get_default.
    rewrite L, A, Ta. cbn [negb truthy].
    destruct l; [congruence|]. cbn [nonempty andb].
    destruct (py_eq (JStr (String a0 l)) last); reflexivity. }
  split; [exact E|].
  intros out' last' H. rewrite E in H.
  destruct (py_eq (JStr l) last) eqn:P; inversion H; subst.
  - apply py_eq_str in P. exact P.
  - reflexivity.
Qed.

(** C5, as the code has it. A clip item with a non-empty asset and a
    non-empty label is emitted exactly when its label differs from the last
    emitted label, and emitting makes its label the last emitted one; a
    clip item with an empty label is always emitted.  So when the last clip of a
    record and the first clip of the next one carry non-empty string
    labels, the first clip of the next record is emitted exactly when the
    two labels differ. *)
Theorem collapse_adjacent_labels :
  (forall (d : dict) (out_assets : list jval) (last : jval),
      clip_typed d ->
      truthy (get_default d "asset" JNull) = true ->
      truthy (get_default d "label" JNull) = true ->
      visit (JObj d) out_assets last =
        Ok (if py_eq (get_default d "label" JNull) last
            then (out_assets, last)
            else ((out_assets ++ [get_default d "asset" JNull])%list,
                  get_default d "label" JNull))) /\
  (forall (d : dict) (out_assets : list jval) (last : jval),
      clip_typed d ->
      truthy (get_default d "asset" JNull) = true ->
      truthy (get_default d "label" JNull) = false ->
      visit (JObj d) out_assets last =
        Ok ((out_assets ++ [get_default d "asset" JNull])%list,
            get_default d "label" JNull)) /\
  (forall (r1 r2 : jval) (q1 q2 : list jval) (d1 d2 : dict)
          (l1 l2 : string) (a1 a2 : jval)
          (last0 lastq : jval) (out1 : list jval),
      has_queue r1 (q1 ++ [JObj d1]) ->
      has_queue r2 (JObj d2 :: q2) ->
      labelled_clip d1 l1 a1 ->
      labelled_clip d2 l2 a2 ->
      visit_all q1 [] last0 = (Ok out1, lastq) ->
      process_record r1 last0 =
        (Ok (if py_eq (JStr l1) lastq then out1 else (out1 ++ [a1])%list),
         JStr l1) /\
      process_record r2 (JStr l1) =
        visit_all q2 (if String.eqb l2 l1 then [] else [a2]) (JStr l2)).
Proof.
  split; [|split].
  - intros d out_assets last T A L. rewrite (visit_clip d _ _ T). cbv zeta.
    rewrite A, L. cbn [negb andb].
    destruct (py_eq (get_default d "label" JNull) last); reflexivity.
  - intros d out_assets last T A L. rewrite (visit_clip d _ _ T). cbv zeta.
    rewrite A, L. reflexivity.
  - intros r1 r2 q1 q2 d1 d2 l1 l2 a1 a2 last0 lastq out1 Q1 Q2 C1 C2 V1.
    rewrite (process_record_queue _ _ _ Q1), (process_record_queue _ _ _ Q2).
    split.
    + rewrite visit_all_app, V1. cbn [visit_all].
      destruct (visit_labelled d1 l1 a1 out1 lastq C1) as [E _]. rewrite E.
      destruct (py_eq (JStr l1) lastq) eqn:P; [|reflexivity].
      apply py_eq_str in P. subst. reflexivity.
    + cbn [visit_all].
      destruct (visit_labelled d2 l2 a2 [] (JStr l1) C2) as [E _]. rewrite E.
      cbn [py_eq]. destruct (String.eqb l2 l1) eqn:P; [|reflexivity].
      apply String.eqb_eq in P. subst. reflexivity.
Qed.

(** Two records that meet on the label [B], and two that meet on [B]
    and [C]. *)
Definition record_AB : string :=
  dq "{'input': 'a b', 'gloss': ['A', 'B'], 'queue': [{'label': 'A', 'type': 'clip', 'asset': 'a.mp4', 'dur_ms': 1000}, {'label': '_TWEEN', 'type': 'meta', 'dur_ms': 100}, {'label': 'B', 'type': 'clip', 'asset': 'b.mp4', 'dur_ms': 1000}], 'sentence_pause_ms': 250}".

Definition record_B : string :=
  dq "{'input': 'b', 'gloss': ['B'], 'queue': [{'label': 'B', 'type': 'clip', 'asset': 'b.mp4', 'dur_ms': 1000}], 'sentence_pause_ms': 250}".

Definition record_C : string :=
  dq "{'input': 'c', 'gloss': ['C'], 'queue': [{'label': 'C', 'type': 'clip', 'asset': 'c.mp4', 'dur_ms': 1000}], 'sentence_pause_ms': 250}".

Definition decoded (line : string) : jval :=
  match loads line with
  | Some v => v
  | None => JNull
  end.

Definition clip_item (l a : string) : dict :=
  [("label", JStr l); ("type", JStr "clip"); ("asset", JStr a);
   ("dur_ms", JInt 1000)].

Lemma collapse_adjacent_labels_witness :
  (process_record (decoded record_AB) JNull
     = (Ok [JStr "a.mp4"; JStr "b.mp4"], JStr "B") /\
   process_record (decoded record_B) (JStr "B") = (Ok [], JStr "B")) /\
  (process_record (decoded record_AB) JNull
     = (Ok [JStr "a.mp4"; JStr "b.mp4"], JStr "B") /\
   process_record (decoded record_C) (JStr "B")
     = (Ok [JStr "c.mp4"], JStr "C")) /\
  file (run loads [record_AB; record_B; record_C] [] JNull)
    = ["a.mp4"; "b.mp4"; "c.mp4"].
Proof.
  destruct collapse_adjacent_labels as [_ [_ boundary]].
  assert (LC : forall l a, l <> EmptyString -> a <> EmptyString ->
                 labelled_clip (clip_item l a) l (JStr a)).
  { intros l a Hl Ha. repeat split; try assumption.
    destruct a; [congruence | reflexivity]. }
  assert (QAB : has_queue (decoded record_AB)
                  ([JObj (clip_item "A" "a.mp4");
                    JObj [("label", JStr "_TWEEN"); ("type", JStr "meta");
                          ("dur_ms", JInt 100)]]
                   ++ [JObj (clip_item "B" "b.mp4")])).
  { eexists. split; vm_compute; reflexivity. }
  assert (QB : has_queue (decoded record_B) [JObj (clip_item "B" "b.mp4")]).
  { eexists. split; vm_compute; reflexivity. }
  assert (QC : has_queue (decoded record_C) [JObj (clip_item "C" "c.mp4")]).
  { eexists. split; vm_compute; reflexivity. }
  split; [|split].
  - apply (boundary _ _ _ [] _ _ "B" "B" (JStr "b.mp4") (JStr "b.mp4")
             JNull (JStr "A") [JStr "a.mp4"] QAB QB).
    + apply LC; discriminate.
    + apply LC; discriminate.
    + reflexivity.
  - apply (boundary _ _ _ [] _ _ "B" "C" (JStr "b.mp4") (JStr "c.mp4")
             JNull (JStr "A") [JStr "a.mp4"] QAB QC).
    + apply LC; discriminate.
    + apply LC; discriminate.
    + reflexivity.
  - vm_compute. reflexivity.
Defined.

(** C5, as it is worded, fails: a clip whose label is empty is emitted
    although its label equals the last emitted label, so two records that
    meet on the empty label yield two emissions at the boundary. *)
Lemma empty_label_never_collapses :
  let item := [("label", JStr ""); ("type", JStr "clip");
               ("asset", JStr "c.mp4"); ("dur_ms", JInt 1000)] in
  let line := dq "{'input': 'c', 'gloss': ['C'], 'queue': [{'label': '', 'type': 'clip', 'asset': 'c.mp4', 'dur_ms': 1000}], 'sentence_pause_ms': 250}" in
  has_queue (decoded line) [JObj item] /\
  py_eq (get_default item "label" JNull) (JStr "") = true /\
  visit (JObj item) [] (JStr "") = Ok ([JStr "c.mp4"], JStr "") /\
  process_line loads line JNull = (Ok [JStr "c.mp4"], JStr "") /\
  process_line loads line (JStr "") = (Ok [JStr "c.mp4"], JStr "") /\
  file (run loads [line; line] [] JNull) = ["c.mp4"; "c.mp4"].
Proof.
  cbv zeta. split.
  - eexists. split; vm_compute; reflexivity.
  - repeat split; vm_compute; reflexivity.
Qed.

(** ** Lines that are not records *)

Section Skipping.

Variable json_loads : string -> option jval.

(** The line is blank, or decoding it raises [json.JSONDecodeError]. *)
Definition undecodable (line : string) : Prop :=
  strip line = EmptyString \/ json_loads (strip line) = None.

Lemma process_line_undecodable (line : string) (last : jval) :
  undecodable line -> process_line json_loads line last = (Ok [], last).
Proof.
  intros [H|H]; unfold process_line.
  - rewrite H. reflexivity.
  - destruct (nonempty (strip line)); cbn [negb]; [|reflexivity].
    rewrite H. reflexivity.
Qed.

Lemma run_skips_undecodable (before after : list string) (bad : string)
  (file : list string) (last : jval) :
  undecodable bad ->
  run json_loads (before ++ bad :: after) file last =
  run json_loads (before ++ after) file last.
Proof.
  intro B. revert file last.
  induction before as [|line before IH]; intros file last.
  - cbn [List.app run]. rewrite (process_line_undecodable bad last B).
    reflexivity.
  - cbn [List.app run].
    destruct (process_line json_loads line last) as [[assets|e] last'];
      [|reflexivity].
    destruct (write_assets assets file) as [[u|e] file']; [apply IH|reflexivity].
Qed.

End Skipping.

(** The structured record of the interface description: an object with an
    [input] string, a [gloss] list of strings, a [queue] list of items and
    an integer [sentence_pause_ms]; an item is an object with a [label], a
    [type] that is [clip] or [meta], an integer [dur_ms] and possibly an
    [asset]. *)
Definition is_string (v : jval) : bool :=
  match v with JStr _ => true | _ => false end.

Definition is_integer (v : jval) : bool :=
  match v with JInt _ => true | _ => false end.

Definition field (p : jval -> bool) (k : string) (d : dict) : bool :=
  match dict_get k d with
  | Some v => p v
  | None => false
  end.

Definition spec_queue_item (v : jval) : bool :=
  match v with
  | JObj d =>
      field (fun _ => true) "label" d &&
      field (fun t => py_eq t (JStr "clip") || py_eq t (JStr "meta")) "type" d &&
      field is_integer "dur_ms" d
  | _ => false
  end.

Definition spec_structured_record (v : jval) : bool :=
  match v with
  | JObj d =>
      field is_string "input" d &&
      field (fun g => match g with
                      | JArr l => List.forallb is_string l
                      | _ => false
                      end) "gloss" d &&
      field (fun q => match q with
                      | JArr l => List.forallb spec_queue_item l
                      | _ => false
                      end) "queue" d &&
      field is_integer "sentence_pause_ms" d
  | _ => false
  end.

(** The line decodes to a structured record. *)
Definition spec_record_line (json_loads : string -> option jval)
  (line : string) : bool :=
  match json_loads (strip line) with
  | Some v => spec_structured_record v
  | None => false
  end.

(** C3, as the code has it. A line that is blank or that the decoder
    rejects yields no assets, raises nothing and leaves the last emitted
    label as it was; such a line anywhere in a stream changes nothing: the
    run yields what it yields without the line. *)
Theorem undecodable_line_is_skipped (json_loads : string -> option jval) :
  (forall (line : string) (last : jval),
      undecodable json_loads line ->
      process_line json_loads line last = (Ok [], last)) /\
  (forall (before after : list string) (bad : string)
          (file : list string) (last : jval),
      undecodable json_loads bad ->
      run json_loads (before ++ bad :: after) file last =
      run json_loads (before ++ after) file last).
Proof.
  split.
  - intros line last H. apply process_line_undecodable. exact H.
  - intros before after bad file last H.
    apply run_skips_undecodable. exact H.
Qed.

Lemma undecodable_line_is_skipped_witness :
  process_line loads "not a record" (JStr "B") = (Ok [], JStr "B") /\
  run loads ([record_AB] ++ "{'queue': [" :: [record_C]) [] JNull =
  run loads ([record_AB] ++ [record_C]) [] JNull /\
  file (run loads [record_AB; "{'queue': ["; record_C] [] JNull)
    = ["a.mp4"; "b.mp4"; "c.mp4"].
Proof.
  destruct (undecodable_line_is_skipped loads) as [one stream].
  split; [|split].
  - apply one. right. vm_compute. reflexivity.
  - apply stream. right. vm_compute. reflexivity.
  - vm_compute. reflexivity.
Defined.

(** C3, as it is worded, fails: a line that decodes, but not to a record,
    is not skipped.  The line [123] decodes to a number, on which the
    lookup of the queue raises; and a record whose queue holds a clip and
    then a number has the label of the clip stored before the number makes
    the loop raise, so no asset of the line is returned and the last
    emitted label has changed. *)
Lemma decodable_non_record_raises :
  let half := dq "{'queue': [{'label': 'A', 'type': 'clip', 'asset': 'a.mp4', 'dur_ms': 1000}, 5]}" in
  loads "123" = Some (JInt 123) /\
  spec_record_line loads "123" = false /\
  process_line loads "123" JNull = (Raise AttributeError, JNull) /\
  failure (run loads [record_AB; "123"; record_C] [] JNull)
    = Some AttributeError /\
  file (run loads [record_AB; "123"; record_C] [] JNull)
    = ["a.mp4"; "b.mp4"] /\
  spec_record_line loads half = false /\
  process_line loads half JNull = (Raise AttributeError, JStr "A").
Proof.
  cbv zeta. repeat split; vm_compute; reflexivity.
Qed.

End StreamerProps.

(* ===================================================================== *)
(** * Further properties of the Streamer *)
(* ===================================================================== *)

Module StreamerMore.
Import Py Json Streamer.

(** ** Items that are not clips *)

(** A dictionary whose [type] is not the string [clip]: a tween, or an
    item without a type. *)
Definition non_clip (d : dict) : Prop :=
  py_eq (get_default d "type" JNull) (JStr "clip") = false.

Lemma visit_non_clip (d : dict) (out_assets : list jval) (last : jval) :
  non_clip d -> visit (JObj d) out_assets last = Ok (out_assets, last).
Proof.
  intro N. unfold visit, py_get. cbn [bind]. rewrite N. reflexivity.
Qed.

Lemma visit_all_cat (q1 q2 : list jval) (out_assets : list jval) (last : jval) :
  visit_all (q1 ++ q2) out_assets last =
    match visit_all q1 out_assets last with
    | (Ok out', last') => visit_all q2 out' last'
    | (Raise e, last') => (Raise e, last')
    end.
Proof.
  revert out_assets last. induction q1 as [|item q1 IH]; intros out_assets last.
  - reflexivity.
  - cbn [List.app visit_all].
    destruct (visit item out_assets last) as [[out' last']|e];
      [apply IH | reflexivity].
Qed.

(** Items that are not clips are ignored entirely: with or without such an
    item anywhere in the queue, the loop returns the same assets and leaves
    the same label, so a tween between two clips of one label does not keep
    the second from being collapsed. *)
Theorem non_clip_items_are_transparent
  (d : dict) (q1 q2 : list jval) (out_assets : list jval) (last : jval) :
  non_clip d ->
  visit_all (q1 ++ JObj d :: q2) out_assets last =
  visit_all (q1 ++ q2) out_assets last.
Proof.
  intro N. rewrite !visit_all_cat.
  destruct (visit_all q1 out_assets last) as [[out'|e] last']; [|reflexivity].
  cbn [visit_all]. rewrite (visit_non_clip d out' last' N). reflexivity.
Qed.

Definition clip_A : jval :=
  JObj [("label", JStr "A"); ("type", JStr "clip"); ("asset", JStr "a.mp4");
        ("dur_ms", JInt 1000)].

Definition tween_item : dict :=
  [("label", JStr "_TWEEN"); ("type", JStr "meta"); ("dur_ms", JInt 100)].

Lemma non_clip_items_are_transparent_witness :
  visit_all ([clip_A] ++ JObj tween_item :: [clip_A]) [] JNull =
  visit_all ([clip_A] ++ [clip_A]) [] JNull /\
  visit_all [clip_A; JObj tween_item; clip_A] [] JNull
    = (Ok [JStr "a.mp4"], JStr "A").
Proof.
  split.
  - apply non_clip_items_are_transparent. reflexivity.
  - reflexivity.
Defined.

(** ** What is emitted *)

Definition is_dict (v : jval) : bool :=
  match v with JObj _ => true | _ => false end.

(** The dictionary is a clip item whose asset is [a], and [a] is not empty. *)
Definition clip_with_asset (a : jval) (v : jval) : Prop :=
  exists d, v = JObj d /\
            py_eq (get_default d "type" JNull) (JStr "clip") = true /\
            get_default d "asset" JNull = a /\
            truthy a = true.

Lemma visit_dict_outcome (d : dict) (out_assets : list jval) (last : jval) :
  visit (JObj d) out_assets last = Ok (out_assets, last) \/
  (visit (JObj d) out_assets last =
     Ok ((out_assets ++ [get_default d "asset" JNull])%list,
         get_default d "label" JNull) /\
   clip_with_asset (get_default d "asset" JNull) (JObj d)).
Proof.
  unfold visit, py_get. cbn [bind].
  destruct (py_eq (get_default d "type" JNull) (JStr "clip")) eqn:T;
    cbn [negb]; [|left; reflexivity].
  destruct (truthy (get_default d "asset" JNull)) eqn:A;
    cbn [negb]; [|left; reflexivity].
  destruct (truthy (get_default d "label" JNull) &&
            py_eq (get_default d "label" JNull) last); [left; reflexivity|].
  right. split; [reflexivity|]. exists d. repeat split; assumption.
Qed.

Lemma only_clip_assets_are_emitted_aux
  (q : list jval) (out_assets : list jval) (last : jval) :
  List.forallb is_dict q = true ->
  exists new last',
    visit_all q out_assets last = (Ok (out_assets ++ new)%list, last') /\
    Forall (fun a => exists item, In item q /\ clip_with_asset a item) new /\
    List.length new <= List.length q.
Proof.
  revert out_assets last. induction q as [|item q IH]; intros out_assets last D.
  - exists [], last. cbn. rewrite List.app_nil_r. repeat split; auto.
  - cbn [List.forallb] in D. apply andb_true_iff in D. destruct D as [Di Dq].
    destruct item as [ | | | | |d]; try discriminate Di.
    cbn [visit_all].
    destruct (visit_dict_outcome d out_assets last) as [E|[E C]]; rewrite E.
    + destruct (IH out_assets last Dq) as [new [last' [V [F L]]]].
      exists new, last'. split; [exact V|]. split.
      * eapply Forall_impl; [|exact F].
        intros a [item [I K]]. exists item. split; [right; exact I | exact K].
      * cbn [List.length]. lia.
    + destruct (IH (out_assets ++ [get_default d "asset" JNull])%list
                  (get_default d "label" JNull) Dq)
        as [new [last' [V [F L]]]].
      exists (get_default d "asset" JNull :: new), last'. split.
      * rewrite V. rewrite <- List.app_assoc. reflexivity.
      * split.
        -- constructor.
           ++ exists (JObj d). split; [left; reflexivity | exact C].
           ++ eapply Forall_impl; [|exact F].
              intros a [item [I K]]. exists item.
              split; [right; exact I | exact K].
        -- cbn [List.length]. lia.
Qed.

(** On a queue of dictionaries the loop never raises; it appends to the
    assets it was given, every asset it appends is the non-empty asset of a
    clip item of the queue, and it appends at most one asset per item. *)
Theorem only_clip_assets_are_emitted
  (q : list jval) (out_assets : list jval) (last : jval) :
  List.forallb is_dict q = true ->
  exists new last',
    visit_all q out_assets last = (Ok (out_assets ++ new)%list, last') /\
    Forall (fun a => exists item, In item q /\ clip_with_asset a item) new /\
    List.length new <= List.length q.
Proof.
  intro D. destruct (only_clip_assets_are_emitted_aux q out_assets last D)
    as [new [last' [V [F L]]]].
  exists new, last'. repeat split; assumption.
Qed.

Lemma only_clip_assets_are_emitted_witness :
  exists new last',
    visit_all [clip_A; JObj tween_item; clip_A] [JStr "z.mp4"] JNull
      = (Ok ([JStr "z.mp4"] ++ new)%list, last') /\
    Forall (fun a => exists item,
                In item [clip_A; JObj tween_item; clip_A] /\
                clip_with_asset a item) new /\
    List.length new <= 3.
Proof.
  apply (only_clip_assets_are_emitted [clip_A; JObj tween_item; clip_A]).
  reflexivity.
Defined.

(** ** What a record that is not one does *)

Lemma visit_non_dict (v : jval) (out_assets : list jval) (last : jval) :
  is_dict v = false -> visit v out_assets last = Raise AttributeError.
Proof. destruct v; intro H; try reflexivity. discriminate H. Qed.

(** A queue raises exactly when it holds an item that is not a dictionary,
    and then with [AttributeError]; the assets gathered from the line so
    far are lost with the exception. *)
Theorem queue_raises_on_non_dict_item
  (q : list jval) (out_assets : list jval) (last : jval) :
  (List.forallb is_dict q = false <->
   fst (visit_all q out_assets last) = Raise AttributeError) /\
  (List.forallb is_dict q = true <->
   exists assets, fst (visit_all q out_assets last) = Ok assets).
Proof.
  assert (bad : List.forallb is_dict q = false ->
                fst (visit_all q out_assets last) = Raise AttributeError).
  { revert out_assets last. induction q as [|item q IH]; intros out_assets last D.
    - discriminate D.
    - cbn [List.forallb] in D. cbn [visit_all].
      destruct (is_dict item) eqn:Di.
      + destruct item as [ | | | | |d]; try discriminate Di.
        cbn [andb] in D.
        destruct (visit_dict_outcome d out_assets last) as [E|[E _]];
          rewrite E; apply IH; exact D.
      + rewrite (visit_non_dict item _ _ Di). reflexivity. }
  assert (good : List.forallb is_dict q = true ->
                 exists assets, fst (visit_all q out_assets last) = Ok assets).
  { intro D.
    destruct (only_clip_assets_are_emitted_aux q out_assets last D)
      as [new [last' [V _]]].
    rewrite V. eexists. reflexivity. }
  split; split.
  - exact bad.
  - intro R. destruct (List.forallb is_dict q) eqn:D; [|reflexivity].
    destruct (good eq_refl) as [assets E]. congruence.
  - exact good.
  - intros [assets E]. destruct (List.forallb is_dict q) eqn:D; [reflexivity|].
    rewrite (bad eq_refl) in E. discriminate E.
Qed.

(** What [process_record] does with each shape of decoded line: a line
    that is not a dictionary raises [AttributeError]; a dictionary without
    a queue, or with an empty queue of any iterable kind, yields nothing; a
    queue that is null, a boolean or a number raises [TypeError]; a queue
    that is a non-empty string or dictionary raises [AttributeError].  In
    each of these cases the last emitted label is left as it was. *)
Theorem process_record_shapes (last : jval) :
  (forall obj, is_dict obj = false ->
     process_record obj last = (Raise AttributeError, last)) /\
  (forall d, dict_get "queue" d = None ->
     process_record (JObj d) last = (Ok [], last)) /\
  (forall d v,
     dict_get "queue" d = Some v ->
     v = JArr [] \/ v = JStr EmptyString \/ v = JObj [] ->
     process_record (JObj d) last = (Ok [], last)) /\
  (forall d v,
     dict_get "queue" d = Some v ->
     v = JNull \/ (exists b, v = JBool b) \/ (exists z, v = JInt z) ->
     process_record (JObj d) last = (Raise TypeError, last)) /\
  (forall d v,
     dict_get "queue" d = Some v ->
     (exists c s, v = JStr (String c s)) \/
     (exists kv r, v = JObj (kv :: r)) ->
     process_record (JObj d) last = (Raise AttributeError, last)).
Proof.
  repeat split.
  - intros obj D. destruct obj; try reflexivity. discriminate D.
  - intros d Q. unfold process_record, py_get, get_default. rewrite Q.
    reflexivity.
  - intros d v Q [E|[E|E]]; subst v;
      unfold process_record, py_get, get_default; rewrite Q; reflexivity.
  - intros d v Q [E|[[b E]|[z E]]]; subst v;
      unfold process_record, py_get, get_default; rewrite Q; reflexivity.
  - intros d v Q [[c [s E]]|[[k x] [r E]]]; subst v;
      unfold process_record, py_get, get_default; rewrite Q; reflexivity.
Qed.

Lemma process_record_shapes_witness :
  process_record (JArr []) (JStr "A") = (Raise AttributeError, JStr "A") /\
  process_record (JObj [("input", JStr "x")]) (JStr "A") = (Ok [], JStr "A") /\
  process_record (JObj [("queue", JStr "")]) (JStr "A") = (Ok [], JStr "A") /\
  process_record (JObj [("queue", JNull)]) (JStr "A")
    = (Raise TypeError, JStr "A") /\
  process_record (JObj [("queue", JStr "ab")]) (JStr "A")
    = (Raise AttributeError, JStr "A").
Proof.
  destruct (process_record_shapes (JStr "A")) as [a [b [c [d e]]]].
  split; [apply a; reflexivity|].
  split; [apply b; reflexivity|].
  split; [apply (c _ (JStr "")); [reflexivity | right; left; reflexivity]|].
  split; [apply (d _ JNull); [reflexivity | left; reflexivity]|].
  apply (e _ (JStr "ab")); [reflexivity|]. left. do 2 eexists. reflexivity.
Defined.

(** ** The collapse as a function of the labels *)

(** The assets of the clips whose label differs from the label before
    them, [prev] standing before the first. *)
Fixpoint collapse (prev : jval) (clips : list (string * jval)) : list jval :=
  match clips with
  | [] => []
  | (l, a) :: r =>
      if py_eq (JStr l) prev then collapse (JStr l) r
      else a :: collapse (JStr l) r
  end.

(** The label of the last clip, [prev] when there is none. *)
Definition final_label (prev : jval) (clips : list (string * jval)) : jval :=
  List.last (List.map (fun c => JStr (fst c)) clips) prev.

Lemma last_default {A : Type} (d d' : A) (l : list A) :
  l <> [] -> List.last l d = List.last l d'.
Proof.
  induction l as [|y l IH]; intro H; [congruence|].
  destruct l as [|z l]; [reflexivity|].
  change (List.last (z :: l) d = List.last (z :: l) d').
  apply IH. discriminate.
Qed.

Lemma last_cons {A : Type} (x d : A) (l : list A) :
  List.last (x :: l) d = List.last l x.
Proof.
  destruct l as [|y l]; [reflexivity|].
  change (List.last (y :: l) d = List.last (y :: l) x).
  apply last_default. discriminate.
Qed.

(** The queue item [item] is a clip with the non-empty string label and
    the non-empty asset of [c]. *)
Definition item_of (item : jval) (c : string * jval) : Prop :=
  exists d, item = JObj d /\ StreamerProps.labelled_clip d (fst c) (snd c).

(** On a queue of clips that all carry a non-empty string label and a
    non-empty asset, the loop emits the asset of each clip whose label
    differs from the label of the clip before it, the last emitted label
    standing before the first clip, and leaves the label of the last
    clip. *)
Theorem queue_collapses_adjacent_labels
  (q : list jval) (clips : list (string * jval))
  (out_assets : list jval) (last : jval) :
  Forall2 item_of q clips ->
  visit_all q out_assets last =
    (Ok (out_assets ++ collapse last clips)%list, final_label last clips).
Proof.
  intro F. revert out_assets last.
  induction F as [|item [l a] q clips [d [E C]] F IH]; intros out_assets last.
  - cbn. rewrite List.app_nil_r. reflexivity.
  - subst item. cbn [fst snd] in C. cbn [visit_all collapse].
    destruct (StreamerProps.visit_labelled d l a out_assets last C) as [V _].
    rewrite V. unfold final_label. cbn [List.map fst]. rewrite last_cons.
    fold (final_label (JStr l) clips).
    destruct (py_eq (JStr l) last) eqn:P.
    + apply StreamerProps.py_eq_str in P. subst last. apply IH.
    + rewrite IH. rewrite <- List.app_assoc. reflexivity.
Qed.

Definition clip_of (l a : string) : jval :=
  JObj [("label", JStr l); ("type", JStr "clip"); ("asset", JStr a)].

Lemma queue_collapses_adjacent_labels_witness :
  visit_all [clip_of "A" "a1"; clip_of "A" "a2"; clip_of "B" "b";
             clip_of "A" "a3"] [] (JStr "A")
  = (Ok [JStr "b"; JStr "a3"], JStr "A").
Proof.
  apply (queue_collapses_adjacent_labels _
           [("A", JStr "a1"); ("A", JStr "a2"); ("B", JStr "b");
            ("A", JStr "a3")] [] (JStr "A")).
  repeat constructor;
    (eexists; split; [reflexivity|]; repeat split; discriminate).
Defined.

(** ** Runs *)

Section Runs.

Variable json_loads : string -> option jval.

Lemma write_assets_appends (assets : list jval) (file0 : list string) :
  exists new, snd (write_assets assets file0) = (file0 ++ new)%list.
Proof.
  revert file0. induction assets as [|a assets IH]; intro file0.
  - exists []. cbn. rewrite List.app_nil_r. reflexivity.
  - destruct a; cbn [write_assets];
      try (exists []; cbn; rewrite List.app_nil_r; reflexivity).
    destruct (IH (file0 ++ [s])%list) as [new E]. exists (s :: new).
    rewrite E, <- List.app_assoc. reflexivity.
Qed.

Lemma run_appends (lines : list string) (file0 : list string) (last : jval) :
  exists new, file (run json_loads lines file0 last) = (file0 ++ new)%list.
Proof.
  revert file0 last. induction lines as [|line lines IH]; intros file0 last.
  - exists []. cbn. rewrite List.app_nil_r. reflexivity.
  - cbn [run].
    destruct (process_line json_loads line last) as [[assets|e] last'].
    + destruct (write_assets_appends assets file0) as [new1 E1].
      destruct (write_assets assets file0) as [[u|e] file1]; cbn [snd] in E1.
      * destruct (IH file1 last') as [new2 E2]. exists (new1 ++ new2)%list.
        rewrite E2, E1, <- List.app_assoc. reflexivity.
      * exists new1. exact E1.
    + exists []. cbn. rewrite List.app_nil_r. reflexivity.
Qed.

Lemma run_cat (l1 l2 : list string) (file0 : list string) (last : jval) :
  run json_loads (l1 ++ l2) file0 last =
    match failure (run json_loads l1 file0 last) with
    | Some _ => run json_loads l1 file0 last
    | None =>
        run json_loads l2 (file (run json_loads l1 file0 last))
          (last_label (run json_loads l1 file0 last))
    end.
Proof.
  revert file0 last. induction l1 as [|line l1 IH]; intros file0 last.
  - reflexivity.
  - cbn [List.app run].
    destruct (process_line json_loads line last) as [[assets|e] last'];
      [|reflexivity].
    destruct (write_assets assets file0) as [[u|e] file1]; [apply IH|reflexivity].
Qed.

End Runs.

(** The output file is only ever appended to.  A run over two batches of
    lines is the run over the first followed, from the file and the label
    it left, by the run over the second, unless the first raised: then
    nothing of the second batch is processed. *)
Theorem run_appends_and_composes (json_loads : string -> option jval) :
  (forall lines file0 last,
      exists new,
        file (run json_loads lines file0 last) = (file0 ++ new)%list) /\
  (forall l1 l2 file0 last,
      failure (run json_loads l1 file0 last) = None ->
      run json_loads (l1 ++ l2) file0 last =
        run json_loads l2 (file (run json_loads l1 file0 last))
          (last_label (run json_loads l1 file0 last))) /\
  (forall l1 l2 file0 last,
      failure (run json_loads l1 file0 last) <> None ->
      run json_loads (l1 ++ l2) file0 last = run json_loads l1 file0 last).
Proof.
  split; [|split].
  - intros lines file0 last. apply run_appends.
  - intros l1 l2 file0 last H. rewrite run_cat, H. reflexivity.
  - intros l1 l2 file0 last H. rewrite run_cat.
    destruct (failure (run json_loads l1 file0 last)); [reflexivity|].
    congruence.
Qed.

Lemma run_appends_and_composes_witness :
  run loads ([StreamerProps.record_AB] ++ [StreamerProps.record_B])
      ["old.mp4"] JNull =
    run loads [StreamerProps.record_B] ["old.mp4"; "a.mp4"; "b.mp4"] (JStr "B")
  /\
  run loads (["[]"] ++ [StreamerProps.record_B]) ["old.mp4"] JNull =
    run loads ["[]"] ["old.mp4"] JNull.
Proof.
  destruct (run_appends_and_composes loads) as [_ [ok bad]]. split.
  - apply (ok [StreamerProps.record_AB] [StreamerProps.record_B]
              ["old.mp4"] JNull).
    vm_compute. reflexivity.
  - apply (bad ["[]"] [StreamerProps.record_B] ["old.mp4"] JNull).
    vm_compute. discriminate.
Defined.

End StreamerMore.

(* ===================================================================== *)
(** * Further properties of the Glossifier *)
(* ===================================================================== *)

Module GlossifierMore.
Import Py Json Glossifier.

(** ** The glosses of a sentence *)

(** No element of the list equals its successor. *)
Fixpoint adjacent_distinct (l : list string) : bool :=
  match l with
  | [] => true
  | x :: r =>
      match r with
      | [] => true
      | y :: _ => negb (String.eqb x y) && adjacent_distinct r
      end
  end.

Lemma adjacent_distinct_snoc (l : list string) (x : string) :
  adjacent_distinct (l ++ [x]) =
    adjacent_distinct l &&
    match deque_last l with
    | Some y => negb (String.eqb y x)
    | None => true
    end.
Proof.
  induction l as [|a l IH]; [reflexivity|].
  destruct l as [|b l].
  - cbn. rewrite andb_true_r. reflexivity.
  - change (adjacent_distinct ((a :: b :: l) ++ [x]))
      with (negb (String.eqb a b) && adjacent_distinct ((b :: l) ++ [x])).
    rewrite IH.
    change (adjacent_distinct (a :: b :: l))
      with (negb (String.eqb a b) && adjacent_distinct (b :: l)).
    change (deque_last (a :: b :: l)) with (deque_last (b :: l)).
    rewrite andb_assoc. reflexivity.
Qed.

Lemma dedup_step_distinct (dedup : list string) (g : string) :
  adjacent_distinct dedup = true ->
  adjacent_distinct (dedup_step dedup g) = true.
Proof.
  intro H. unfold dedup_step.
  destruct (deque_last dedup) as [g'|] eqn:L.
  - destruct (String.eqb g' g) eqn:E; [exact H|].
    rewrite adjacent_distinct_snoc, H, L, E. reflexivity.
  - rewrite adjacent_distinct_snoc, H, L. reflexivity.
Qed.

Lemma dedup_step_members (dedup : list string) (g x : string) :
  In x (dedup_step dedup g) -> In x dedup \/ x = g.
Proof.
  unfold dedup_step.
  destruct (deque_last dedup) as [g'|]; [destruct (String.eqb g' g)|];
    intro H; auto;
    apply List.in_app_or in H; destruct H as [H|[H|[]]]; auto.
Qed.

Lemma fold_dedup_distinct (glosses dedup : list string) :
  adjacent_distinct dedup = true ->
  adjacent_distinct (List.fold_left dedup_step glosses dedup) = true.
Proof.
  revert dedup. induction glosses as [|g glosses IH]; intros dedup H.
  - exact H.
  - cbn [List.fold_left]. apply IH. apply dedup_step_distinct. exact H.
Qed.

Lemma fold_dedup_members (glosses dedup : list string) (x : string) :
  In x (List.fold_left dedup_step glosses dedup) ->
  In x dedup \/ In x glosses.
Proof.
  revert dedup. induction glosses as [|g glosses IH]; intros dedup H.
  - left. exact H.
  - cbn [List.fold_left] in H. destruct (IH _ H) as [K|K].
    + destruct (dedup_step_members _ _ _ K) as [K'|K'].
      * left. exact K'.
      * right. left. congruence.
    + right. right. exact K.
Qed.

(** Every character of the string satisfies [p]. *)
Fixpoint all_chars (p : ascii -> bool) (s : string) : bool :=
  match s with
  | EmptyString => true
  | String c r => p c && all_chars p r
  end.

(** The characters a gloss is made of: capital letters, digits and the
    apostrophe. *)
Definition is_gloss_char (c : ascii) : bool :=
  is_upper c || is_digit c || Ascii.eqb c "'".

Lemma findall_words (s : string) :
  Forall (fun w => nonempty w = true /\ all_chars is_word_char w = true)
         (WORD_RE_findall s).
Proof.
  induction s as [|c r IH]; [constructor|].
  cbn [WORD_RE_findall].
  destruct (is_word_char c) eqn:W; [|exact IH].
  destruct r as [|c' r'].
  - constructor; [|constructor]. cbn. rewrite W. split; reflexivity.
  - destruct (is_word_char c') eqn:W'.
    + destruct (WORD_RE_findall (String c' r')) as [|w ws].
      * constructor; [|constructor]. cbn. rewrite W. split; reflexivity.
      * inversion IH as [|w0 ws0 [Hn Hw] Hws]; subst.
        constructor; [|exact Hws]. cbn. rewrite W, Hw. split; reflexivity.
    + constructor; [|exact IH]. cbn. rewrite W. split; reflexivity.
Qed.

Lemma gloss_char_of_word_char (c : ascii) :
  is_word_char c = true ->
  is_gloss_char
    (upper_char (if Ascii.eqb (lower_char c) "`" then "'"%char
                 else lower_char c)) = true.
Proof.
  destruct c as [[] [] [] [] [] [] [] []]; intro H;
    first [discriminate H | reflexivity].
Qed.

Lemma gloss_of_word (w : string) :
  all_chars is_word_char w = true ->
  all_chars is_gloss_char (upper (normalize_token w)) = true.
Proof.
  induction w as [|c r IH]; intro H; [reflexivity|].
  cbn in H. apply andb_true_iff in H. destruct H as [Hc Hr].
  cbn. rewrite (gloss_char_of_word_char c Hc). exact (IH Hr).
Qed.

Lemma nonempty_map_string (f : ascii -> ascii) (s : string) :
  nonempty (map_string f s) = nonempty s.
Proof. destruct s; reflexivity. Qed.

(** The glosses of a sentence: no gloss is empty, each is made of capital
    letters, digits and apostrophes only, and no gloss equals the one
    before it. *)
Theorem sent_to_gloss_normal_form (text : string) :
  adjacent_distinct (sent_to_gloss text) = true /\
  Forall (fun g => nonempty g = true /\ all_chars is_gloss_char g = true)
         (sent_to_gloss text).
Proof.
  unfold sent_to_gloss. split.
  - apply fold_dedup_distinct. reflexivity.
  - apply Forall_forall. intros g H.
    apply fold_dedup_members in H. destruct H as [[]|H].
    apply List.in_map_iff in H. destruct H as [t [E H]]. subst g.
    apply List.filter_In in H. destruct H as [H N].
    apply List.in_map_iff in H. destruct H as [w [E H]]. subst t.
    pose proof (findall_words text) as F.
    rewrite Forall_forall in F. destruct (F w H) as [Hn Hw].
    split.
    + unfold upper. rewrite nonempty_map_string. exact N.
    + apply gloss_of_word. exact Hw.
Qed.

(** ** Case *)

Lemma findall_map_string (f : ascii -> ascii) (s : string) :
  (forall c, is_word_char (f c) = is_word_char c) ->
  WORD_RE_findall (map_string f s) =
    List.map (map_string f) (WORD_RE_findall s).
Proof.
  intro Hf. induction s as [|c r IH]; [reflexivity|].
  cbn [map_string WORD_RE_findall]. rewrite Hf.
  destruct (is_word_char c); [|exact IH].
  destruct r as [|c' r']; [reflexivity|].
  cbn [map_string] in *. rewrite Hf.
  destruct (is_word_char c').
  - rewrite IH. destruct (WORD_RE_findall (String c' r')); reflexivity.
  - rewrite IH. reflexivity.
Qed.

Lemma word_char_upper (c : ascii) : is_word_char (upper_char c) = is_word_char c.
Proof. destruct c as [[] [] [] [] [] [] [] []]; reflexivity. Qed.

Lemma word_char_lower (c : ascii) : is_word_char (lower_char c) = is_word_char c.
Proof. destruct c as [[] [] [] [] [] [] [] []]; reflexivity. Qed.

Lemma lower_upper_char (c : ascii) : lower_char (upper_char c) = lower_char c.
Proof. destruct c as [[] [] [] [] [] [] [] []]; reflexivity. Qed.

Lemma lower_lower_char (c : ascii) : lower_char (lower_char c) = lower_char c.
Proof. destruct c as [[] [] [] [] [] [] [] []]; reflexivity. Qed.

Lemma map_string_compose (f g : ascii -> ascii) (s : string) :
  map_string f (map_string g s) = map_string (fun c => f (g c)) s.
Proof. induction s as [|c r IH]; cbn; [|rewrite IH]; reflexivity. Qed.

Lemma map_string_ext (f g : ascii -> ascii) (s : string) :
  (forall c, f c = g c) -> map_string f s = map_string g s.
Proof.
  intro H. induction s as [|c r IH]; cbn; [|rewrite IH, H]; reflexivity.
Qed.

Lemma normalize_token_case (f : ascii -> ascii) (w : string) :
  (forall c, lower_char (f c) = lower_char c) ->
  normalize_token (map_string f w) = normalize_token w.
Proof.
  intro H. unfold normalize_token, lower. rewrite map_string_compose.
  rewrite (map_string_ext _ lower_char w H). reflexivity.
Qed.

Lemma sent_to_gloss_case (f : ascii -> ascii) (text : string) :
  (forall c, is_word_char (f c) = is_word_char c) ->
  (forall c, lower_char (f c) = lower_char c) ->
  sent_to_gloss (map_string f text) = sent_to_gloss text.
Proof.
  intros Hw Hl. unfold sent_to_gloss.
  rewrite (findall_map_string f text Hw), List.map_map.
  rewrite (List.map_ext _ normalize_token
             (fun w => normalize_token_case f w Hl)).
  reflexivity.
Qed.

(** Two characters that are the same but for case: equal, or one of the
    letters A to Z, a to z in its two cases. *)
Definition same_letter (c c' : ascii) : bool :=
  Ascii.eqb c c' ||
  (is_upper c && Ascii.eqb (lower_char c) c') ||
  (is_lower c && Ascii.eqb (upper_char c) c').

(** Two texts that are the same but for the case of those letters. *)
Fixpoint same_but_case (a b : string) : bool :=
  match a, b with
  | EmptyString, EmptyString => true
  | String c r, String c' r' => same_letter c c' && same_but_case r r'
  | _, _ => false
  end.

Lemma same_letter_lower (c c' : ascii) :
  same_letter c c' = true -> lower_char c = lower_char c'.
Proof.
  unfold same_letter. intro H.
  apply orb_true_iff in H. destruct H as [H|H];
    [apply orb_true_iff in H; destruct H as [H|H]|].
  - apply Ascii.eqb_eq in H. subst. reflexivity.
  - apply andb_true_iff in H. destruct H as [_ H].
    apply Ascii.eqb_eq in H. subst. symmetry. apply lower_lower_char.
  - apply andb_true_iff in H. destruct H as [_ H].
    apply Ascii.eqb_eq in H. subst. symmetry. apply lower_upper_char.
Qed.

Lemma same_but_case_lower (a b : string) :
  same_but_case a b = true -> lower a = lower b.
Proof.
  revert b. induction a as [|c r IH]; intros [|c' r'] H;
    try discriminate H; [reflexivity|].
  cbn [same_but_case] in H. apply andb_true_iff in H. destruct H as [L R].
  unfold lower in *. cbn [map_string].
  rewrite (same_letter_lower c c' L), (IH r' R). reflexivity.
Qed.

Lemma sent_to_gloss_lower (text : string) :
  sent_to_gloss (lower text) = sent_to_gloss text.
Proof.
  apply sent_to_gloss_case; [exact word_char_lower | exact lower_lower_char].
Qed.

(** The glosses of a sentence do not depend on the case of its letters:
    two sentences that are the same but for the case of letters A to Z
    give the same glosses. *)
Theorem sent_to_gloss_ignores_letter_case (a b : string) :
  same_but_case a b = true ->
  sent_to_gloss a = sent_to_gloss b.
Proof.
  intro H.
  rewrite <- (sent_to_gloss_lower a), <- (sent_to_gloss_lower b).
  rewrite (same_but_case_lower a b H). reflexivity.
Qed.

Lemma sent_to_gloss_ignores_letter_case_witness :
  same_but_case "Hello, hello WORLD; it's me" "hELLO, HellO world; IT'S Me"
    = true /\
  sent_to_gloss "Hello, hello WORLD; it's me" = ["HELLO"; "WORLD"; "IT'S"; "ME"] /\
  sent_to_gloss "Hello, hello WORLD; it's me" =
    sent_to_gloss "hELLO, HellO world; IT'S Me".
Proof.
  assert (S : same_but_case "Hello, hello WORLD; it's me"
                "hELLO, HellO world; IT'S Me" = true)
    by (vm_compute; reflexivity).
  split; [exact S|]. split; [vm_compute; reflexivity|].
  exact (sent_to_gloss_ignores_letter_case _ _ S).
Defined.

(** ** Glosses without an entry, and the tween at zero *)

(** The gloss has a lexicon entry that passes [if entry:]. *)
Definition mapped (lex : dict) (g : string) : bool := truthy (lookup lex g).

(** The items of a queue that are clips, tweens. *)
Definition clips_in (q : list jval) : nat := List.length (List.filter is_clip q).
Definition tweens_in (q : list jval) : nat := List.length (List.filter is_tween q).

Lemma clips_in_app (a b : list jval) : clips_in (a ++ b) = clips_in a + clips_in b.
Proof. unfold clips_in. rewrite List.filter_app, List.length_app. reflexivity. Qed.

Lemma tweens_in_app (a b : list jval) :
  tweens_in (a ++ b) = tweens_in a + tweens_in b.
Proof. unfold tweens_in. rewrite List.filter_app, List.length_app. reflexivity. Qed.

(** All but the last element. *)
Definition but_last (l : list string) : list string := List.removelast l.

(** The loop from index [i] on, when every gloss with an entry has a
    well-formed one. *)
Lemma map_loop_counts (lex : dict) (tween_ms : Z) (rate : float) (len : nat)
  (rest : list string) :
  (forall g, In g rest -> mapped lex g = true ->
             GlossifierProps.playable lex rate g = true) ->
  forall (i : nat) (queue : list jval),
    i + List.length rest = len ->
    exists new,
      map_loop lex tween_ms rate len i rest queue = Ok (queue ++ new)%list /\
      clips_in new = List.length (List.filter (mapped lex) rest) /\
      tweens_in new =
        (if (tween_ms =? 0)%Z then 0
         else List.length (List.filter (mapped lex) (but_last rest))) /\
      List.length new = clips_in new + tweens_in new.
Proof.
  induction rest as [|g rest IH]; intros Hall i queue Hlen.
  - exists []. cbn. rewrite List.app_nil_r.
    destruct (tween_ms =? 0)%Z; repeat split.
  - cbn [map_loop]. fold (mapped lex g).
    assert (Hrest : forall g', In g' rest -> mapped lex g' = true ->
                      GlossifierProps.playable lex rate g' = true)
      by (intros g' H'; apply Hall; right; exact H').
    cbn [List.length] in Hlen.
    assert (Hbl : List.filter (mapped lex) (but_last (g :: rest)) =
                  match rest with
                  | [] => []
                  | _ => if mapped lex g
                         then g :: List.filter (mapped lex) (but_last rest)
                         else List.filter (mapped lex) (but_last rest)
                  end).
    { destruct rest as [|g2 rest2]; [reflexivity|].
      change (but_last (g :: g2 :: rest2)) with (g :: but_last (g2 :: rest2)).
      reflexivity. }
    destruct (mapped lex g) eqn:M.
    + destruct (GlossifierProps.playable_clip lex rate g
                  (Hall g (or_introl eq_refl) M))
        as [d [n [f [dur [_ [_ [_ [_ [_ [_ Hc]]]]]]]]]].
      rewrite Hc. cbn [bind].
      set (c := clip (get_default d "label" (JStr g))
                     (get_default d "asset" JNull) dur).
      assert (Cc : clips_in [c] = 1 /\ tweens_in [c] = 0) by (split; reflexivity).
      assert (Ct : clips_in [tween tween_ms] = 0 /\
                   tweens_in [tween tween_ms] = 1) by (split; reflexivity).
      destruct Cc as [Cc1 Cc2]. destruct Ct as [Ct1 Ct2].
      assert (Lt : Nat.ltb i (len - 1) =
                   match rest with [] => false | _ => true end).
      { destruct rest; cbn in Hlen;
          [apply Nat.ltb_ge | apply Nat.ltb_lt]; lia. }
      rewrite Lt, Hbl. cbn [List.filter]. rewrite M.
      destruct (tween_ms =? 0)%Z eqn:Z0; cbn [negb andb].
      * destruct (IH Hrest (S i) (queue ++ [c])%list ltac:(lia))
          as [new [E [K1 [K2 K3]]]].
        exists (c :: new). rewrite E, <- List.app_assoc. split; [reflexivity|].
        change (c :: new) with ([c] ++ new)%list.
        rewrite clips_in_app, tweens_in_app, List.length_app, Cc1, Cc2, K1, K2.
        cbn [List.length]. repeat split; lia.
      * destruct rest as [|g2 rest2].
        -- cbn [map_loop List.filter but_last List.removelast].
           exists [c]. rewrite Cc1, Cc2. repeat split.
        -- destruct (IH Hrest (S i)
                       ((queue ++ [c]) ++ [tween tween_ms])%list ltac:(lia))
             as [new [E [K1 [K2 K3]]]].
           exists (c :: tween tween_ms :: new).
           rewrite E, <- !List.app_assoc. split; [reflexivity|].
           change (c :: tween tween_ms :: new)
             with ([c] ++ [tween tween_ms] ++ new)%list.
           rewrite !clips_in_app, !tweens_in_app, !List.length_app,
             Cc1, Cc2, Ct1, Ct2, K1, K2.
           cbn [List.length]. repeat split; lia.
    + destruct (IH Hrest (S i) queue ltac:(lia)) as [new [E [K1 [K2 K3]]]].
      exists new. rewrite E, Hbl. cbn [List.filter]. rewrite M.
      split; [reflexivity|]. split; [exact K1|]. split; [|exact K3].
      rewrite K2. destruct rest; [|reflexivity].
      destruct (tween_ms =? 0)%Z; reflexivity.
Qed.

(** When every gloss that has an entry has a well-formed one, the queue
    is returned and holds clips and tweens only: one clip for each gloss
    with an entry, in particular none for a gloss without one; no tween
    when the tween duration is zero, and otherwise one tween for each gloss
    with an entry except the last gloss of the sequence. *)
Theorem queue_counts
  (gloss : list string) (lex : dict) (tween_ms : Z) (rate : float) :
  (forall g, In g gloss -> mapped lex g = true ->
             GlossifierProps.playable lex rate g = true) ->
  exists queue,
    map_gloss_to_queue gloss lex tween_ms rate = Ok queue /\
    clips_in queue = List.length (List.filter (mapped lex) gloss) /\
    tweens_in queue =
      (if (tween_ms =? 0)%Z then 0
       else List.length (List.filter (mapped lex) (but_last gloss))) /\
    List.length queue = clips_in queue + tweens_in queue.
Proof.
  intro H.
  destruct (map_loop_counts lex tween_ms rate (List.length gloss) gloss H
              0 [] eq_refl) as [new [E K]].
  exists new. split; [exact E | exact K].
Qed.

Lemma queue_counts_witness :
  (exists queue,
      map_gloss_to_queue ["HELLO"; "XYZ"; "WORLD"; "EMPTY"]
        GlossifierProps.sample_lex 0 1%float = Ok queue /\
      clips_in queue = 2 /\ tweens_in queue = 0 /\
      List.length queue = clips_in queue + tweens_in queue) /\
  (exists queue,
      map_gloss_to_queue ["HELLO"; "XYZ"; "WORLD"; "EMPTY"]
        GlossifierProps.sample_lex 100 1%float = Ok queue /\
      clips_in queue = 2 /\ tweens_in queue = 2 /\
      List.length queue = clips_in queue + tweens_in queue).
Proof.
  assert (P : forall g, In g ["HELLO"; "XYZ"; "WORLD"; "EMPTY"] ->
                mapped GlossifierProps.sample_lex g = true ->
                GlossifierProps.playable GlossifierProps.sample_lex 1%float g
                  = true).
  { intros g [E|[E|[E|[E|[]]]]] M; subst;
      first [discriminate M | vm_compute; reflexivity]. }
  split.
  - exact (queue_counts _ GlossifierProps.sample_lex 0%Z 1%float P).
  - exact (queue_counts _ GlossifierProps.sample_lex 100%Z 1%float P).
Defined.

(** A sentence none of whose glosses has an entry yields the empty queue,
    whatever the tween duration and the rate, a rate that is not a number
    included: nothing is computed for a gloss without an entry. *)
Theorem unmapped_glosses_give_empty_queue
  (gloss : list string) (lex : dict) (tween_ms : Z) (rate : float) :
  (forall g, In g gloss -> mapped lex g = false) ->
  map_gloss_to_queue gloss lex tween_ms rate = Ok [].
Proof.
  intro H.
  destruct (map_loop_counts lex tween_ms rate (List.length gloss) gloss
              ltac:(intros g I M; rewrite (H g I) in M; discriminate M)
              0 [] eq_refl) as [new [E [K1 [K2 K3]]]].
  assert (F : List.filter (mapped lex) gloss = []).
  { clear - H. induction gloss as [|g gloss IH]; [reflexivity|].
    cbn [List.filter]. rewrite (H g (or_introl eq_refl)).
    apply IH. intros g' I. apply H. right. exact I. }
  assert (F' : List.filter (mapped lex) (but_last gloss) = []).
  { clear - H. unfold but_last.
    induction gloss as [|g gloss IH]; [reflexivity|].
    destruct gloss as [|g2 gloss2]; [reflexivity|].
    change (List.removelast (g :: g2 :: gloss2))
      with (g :: List.removelast (g2 :: gloss2)).
    cbn [List.filter]. rewrite (H g (or_introl eq_refl)).
    apply IH. intros g' I. apply H. right. exact I. }
  rewrite F in K1. rewrite F' in K2.
  assert (L : List.length new = 0)
    by (rewrite K3, K1, K2; destruct (tween_ms =? 0)%Z; reflexivity).
  destruct new; [exact E | discriminate L].
Qed.

Lemma unmapped_glosses_give_empty_queue_witness :
  map_gloss_to_queue ["XYZ"; "EMPTY"] GlossifierProps.sample_lex 100 nan = Ok [] /\
  map_gloss_to_queue ["HELLO"] [] 100 1%float = Ok [].
Proof.
  split.
  - apply unmapped_glosses_give_empty_queue.
    intros g [E|[E|[]]]; subst; reflexivity.
  - apply unmapped_glosses_give_empty_queue.
    intros g [E|[]]; subst; reflexivity.
Defined.

(** ** The rate *)

Lemma max2_below_floor (rate : float) :
  PrimFloat.ltb rate rate_floor = true ->
  max2 rate rate_floor = max2 rate_floor rate_floor.
Proof. intro H. unfold max2. rewrite H. reflexivity. Qed.

Lemma div_by_nan (f : float) : Prim2SF (PrimFloat.div f nan) = S754_nan.
Proof.
  rewrite div_spec. change (Prim2SF nan) with S754_nan.
  destruct (Prim2SF f) as [s|s| |s m e]; reflexivity.
Qed.

(** The floor of the rate: the division never raises [ZeroDivisionError];
    every rate below 0.01, zero and the negative rates included, gives the
    duration that the rate 0.01 gives; and a rate that is not a number
    makes the duration of every integer nominal duration raise
    [ValueError]. *)
Theorem rate_floor_guards_division :
  (forall (dur_src : jval) (rate : float),
      clip_duration dur_src rate <> Raise ZeroDivisionError) /\
  (forall (dur_src : jval) (rate : float),
      PrimFloat.ltb rate rate_floor = true ->
      clip_duration dur_src rate = clip_duration dur_src rate_floor) /\
  (forall (dur_src : jval) (n : Z) (f : float),
      as_int dur_src = Some n ->
      float_of_int n = Ok f ->
      clip_duration dur_src nan = Raise ValueError).
Proof.
  split; [|split].
  - intros dur_src rate. unfold clip_duration.
    destruct (as_int dur_src) as [n|]; [|discriminate].
    destruct (float_of_int n) as [f|e] eqn:F.
    + cbn [bind]. unfold truediv.
      rewrite GlossifierProps.max2_floor_nonzero. cbn [bind].
      unfold round. destruct (Prim2SF _); discriminate.
    + cbn [bind]. unfold float_of_int in F.
      destruct (binary_normalize prec emax n 0 false); inversion F.
      discriminate.
  - intros dur_src rate H. unfold clip_duration.
    rewrite (max2_below_floor rate H). reflexivity.
  - intros dur_src n f A F. unfold clip_duration. rewrite A, F. cbn [bind].
    unfold truediv. rewrite GlossifierProps.max2_floor_nonzero. cbn [bind].
    change (max2 nan rate_floor) with nan.
    unfold round. rewrite div_by_nan. reflexivity.
Qed.

Lemma rate_floor_guards_division_witness :
  clip_duration (JInt 1000) 0%float = clip_duration (JInt 1000) rate_floor /\
  clip_duration (JInt 1000) 0%float = Ok 100000%Z /\
  clip_duration (JInt 1000) (-2)%float = Ok 100000%Z /\
  clip_duration (JInt 1000) nan = Raise ValueError.
Proof.
  destruct rate_floor_guards_division as [_ [low not_a_number]].
  split; [apply low; reflexivity|].
  split; [vm_compute; reflexivity|].
  split; [vm_compute; reflexivity|].
  apply (not_a_number (JInt 1000) 1000%Z 1000%float); reflexivity.
Defined.

End GlossifierMore.

(* ===================================================================== *)
(** * Whitespace and asides in cleaned text *)
(* ===================================================================== *)

Module TextNormal.
Import Py.

(** Every whitespace character of the string is a space and does not
    follow another whitespace character; [after_space] tells whether the
    string is to be read as following one. *)
Fixpoint single_spaced (after_space : bool) (s : string) : bool :=
  match s with
  | EmptyString => true
  | String c r =>
      if is_space c
      then Ascii.eqb c " " && negb after_space && single_spaced true r
      else single_spaced false r
  end.

(** The last character of the string is a whitespace character. *)
Fixpoint last_is_space (s : string) : bool :=
  match s with
  | EmptyString => false
  | String c r =>
      match r with
      | EmptyString => is_space c
      | _ => last_is_space r
      end
  end.

(** No whitespace at either end, single spaces only in between. *)
Definition tidy (s : string) : bool :=
  single_spaced true s && negb (last_is_space s).

Lemma single_spaced_weaken (s : string) :
  single_spaced true s = true -> single_spaced false s = true.
Proof.
  destruct s as [|c r]; [reflexivity|]. cbn.
  destruct (is_space c); [|auto].
  rewrite andb_false_r. discriminate.
Qed.

Lemma sub_space_from_single (b : bool) (s : string) :
  single_spaced b (sub_space_from b s) = true.
Proof.
  revert b. induction s as [|c r IH]; intro b; [reflexivity|].
  cbn [sub_space_from]. destruct (is_space c) eqn:S.
  - destruct b; [apply IH|]. cbn. apply IH.
  - cbn [single_spaced]. rewrite S. apply IH.
Qed.

Lemma lstrip_single (b : bool) (s : string) :
  single_spaced b s = true -> single_spaced true (lstrip s) = true.
Proof.
  revert b. induction s as [|c r IH]; intros b H; [reflexivity|].
  cbn [lstrip]. cbn [single_spaced] in H. destruct (is_space c) eqn:S.
  - apply andb_true_iff in H. destruct H as [_ H]. exact (IH true H).
  - cbn [single_spaced]. rewrite S. exact H.
Qed.

Lemma rstrip_single (b : bool) (s : string) :
  single_spaced b s = true -> single_spaced b (rstrip s) = true.
Proof.
  revert b. induction s as [|c r IH]; intros b H; [reflexivity|].
  cbn [rstrip]. cbn [single_spaced] in H.
  destruct (is_space c) eqn:S.
  - apply andb_true_iff in H. destruct H as [H1 H2].
    specialize (IH true H2).
    destruct (rstrip r) as [|c' r']; [reflexivity|].
    cbn [single_spaced]. rewrite S, H1. exact IH.
  - specialize (IH false H).
    destruct (rstrip r) as [|c' r'].
    + cbn. rewrite S. reflexivity.
    + cbn [single_spaced]. rewrite S. exact IH.
Qed.

Lemma rstrip_last (s : string) : last_is_space (rstrip s) = false.
Proof.
  induction s as [|c r IH]; [reflexivity|].
  cbn [rstrip]. destruct (rstrip r) as [|c' r'].
  - destruct (is_space c) eqn:S; [reflexivity|]. cbn. exact S.
  - exact IH.
Qed.

Lemma tidy_strip_sub_space (s : string) : tidy (strip (sub_space s)) = true.
Proof.
  unfold tidy, strip, sub_space. rewrite rstrip_last.
  rewrite (rstrip_single true).
  - reflexivity.
  - apply (lstrip_single false). apply sub_space_from_single.
Qed.

Lemma single_spaced_fixed (b : bool) (s : string) :
  single_spaced b s = true -> sub_space_from b s = s.
Proof.
  revert b. induction s as [|c r IH]; intros b H; [reflexivity|].
  cbn [single_spaced] in H. cbn [sub_space_from].
  destruct (is_space c) eqn:S.
  - apply andb_true_iff in H. destruct H as [H1 H2].
    apply andb_true_iff in H1. destruct H1 as [E B].
    apply Ascii.eqb_eq in E. subst c.
    destruct b; [discriminate B|]. rewrite (IH true H2). reflexivity.
  - rewrite (IH false H). reflexivity.
Qed.

Lemma lstrip_fixed (s : string) : single_spaced true s = true -> lstrip s = s.
Proof.
  destruct s as [|c r]; [reflexivity|]. cbn.
  destruct (is_space c); [|reflexivity].
  rewrite andb_false_r. discriminate.
Qed.

Lemma rstrip_fixed (s : string) : last_is_space s = false -> rstrip s = s.
Proof.
  induction s as [|c r IH]; intro H; [reflexivity|].
  cbn [rstrip]. cbn [last_is_space] in H.
  destruct r as [|c' r'].
  - cbn. rewrite H. reflexivity.
  - rewrite (IH H). reflexivity.
Qed.

Lemma tidy_fixed (s : string) :
  tidy s = true -> strip (sub_space s) = s.
Proof.
  unfold tidy. intro H. apply andb_true_iff in H. destruct H as [H1 H2].
  apply negb_true_iff in H2.
  unfold sub_space, strip.
  rewrite (single_spaced_fixed false s (single_spaced_weaken s H1)).
  rewrite (lstrip_fixed s H1). apply rstrip_fixed. exact H2.
Qed.

Lemma single_spaced_no_other_space (b : bool) (s : string) (c : ascii) :
  single_spaced b s = true -> is_space c = true -> c <> " "%char ->
  has_char c s = false.
Proof.
  intros H S N. revert b H. induction s as [|x r IH]; intros b H; [reflexivity|].
  cbn [single_spaced] in H. cbn [has_char].
  destruct (is_space x) eqn:Sx.
  - apply andb_true_iff in H. destruct H as [H1 H2].
    apply andb_true_iff in H1. destruct H1 as [E _].
    apply Ascii.eqb_eq in E. subst x.
    destruct (Ascii.eqb " " c) eqn:Ec.
    + apply Ascii.eqb_eq in Ec. congruence.
    + exact (IH true H2).
  - destruct (Ascii.eqb x c) eqn:Ec.
    + apply Ascii.eqb_eq in Ec. congruence.
    + exact (IH false H).
Qed.

(** ** Text obtained by dropping characters and inserting spaces *)

Inductive thinned : string -> string -> Prop :=
| thinned_nil : thinned EmptyString EmptyString
| thinned_drop (c : ascii) (t s : string) :
    thinned t s -> thinned t (String c s)
| thinned_keep (c : ascii) (t s : string) :
    thinned t s -> thinned (String c t) (String c s)
| thinned_space (t s : string) :
    thinned t s -> thinned (String " " t) s.

Lemma thinned_refl (s : string) : thinned s s.
Proof. induction s; constructor; assumption. Qed.

Lemma thinned_empty (s : string) : thinned EmptyString s.
Proof. induction s; constructor; assumption. Qed.

Lemma thinned_has_char (c : ascii) (t s : string) :
  c <> " "%char -> thinned t s -> has_char c t = true -> has_char c s = true.
Proof.
  intros N T. induction T as [|x t s T IH|x t s T IH|t s T IH]; intro H.
  - exact H.
  - cbn [has_char]. rewrite (IH H). apply orb_true_r.
  - cbn [has_char] in *. destruct (Ascii.eqb x c); [reflexivity|]. exact (IH H).
  - cbn [has_char] in H. destruct (Ascii.eqb " " c) eqn:E.
    + apply Ascii.eqb_eq in E. congruence.
    + exact (IH H).
Qed.

Lemma thinned_sub_space (b : bool) (s : string) :
  thinned (sub_space_from b s) s.
Proof.
  revert b. induction s as [|c r IH]; intro b; [constructor|].
  cbn [sub_space_from]. destruct (is_space c).
  - destruct b.
    + apply thinned_drop, IH.
    + apply thinned_space, thinned_drop, IH.
  - apply thinned_keep, IH.
Qed.

Lemma thinned_lstrip (s : string) : thinned (lstrip s) s.
Proof.
  induction s as [|c r IH]; [constructor|].
  cbn [lstrip]. destruct (is_space c).
  - apply thinned_drop, IH.
  - apply thinned_refl.
Qed.

Lemma thinned_rstrip (s : string) : thinned (rstrip s) s.
Proof.
  induction s as [|c r IH]; [constructor|].
  cbn [rstrip]. destruct (rstrip r) as [|c' r'].
  - destruct (is_space c).
    + apply thinned_empty.
    + apply thinned_keep, IH.
  - apply thinned_keep, IH.
Qed.

(** No [opening] character of the string has a [closing] one after it. *)
Fixpoint no_aside (opening closing : ascii) (s : string) : bool :=
  match s with
  | EmptyString => true
  | String x r =>
      negb (Ascii.eqb x opening && has_char closing r) &&
      no_aside opening closing r
  end.

Lemma thinned_no_aside (o c : ascii) (t s : string) :
  o <> " "%char -> c <> " "%char ->
  thinned t s -> no_aside o c s = true -> no_aside o c t = true.
Proof.
  intros No Nc T. induction T as [|x t s T IH|x t s T IH|t s T IH]; intro H.
  - reflexivity.
  - cbn [no_aside] in H. apply andb_true_iff in H. destruct H as [_ H].
    exact (IH H).
  - cbn [no_aside] in *. apply andb_true_iff in H. destruct H as [H1 H2].
    rewrite (IH H2), andb_true_r.
    destruct (Ascii.eqb x o); [|reflexivity]. cbn [andb negb] in *.
    destruct (has_char c t) eqn:E; [|reflexivity].
    rewrite (thinned_has_char c t s Nc T E) in H1. discriminate H1.
  - cbn [no_aside]. rewrite (IH H), andb_true_r.
    destruct (Ascii.eqb " " o) eqn:E; [|reflexivity].
    apply Ascii.eqb_eq in E. congruence.
Qed.

End TextNormal.

(* ===================================================================== *)
(** * Further properties of the Cleaner *)
(* ===================================================================== *)

Module CleanerMore.
Import Py Cleaner TextNormal.

(** ** Cleaned text *)

Lemma thinned_sub_aside (o c : ascii) (inside : bool) (s : string) :
  thinned (sub_aside_from o c inside s) s.
Proof.
  revert inside. induction s as [|x r IH]; intro inside; [constructor|].
  cbn [sub_aside_from]. destruct inside.
  - destruct (Ascii.eqb x c); apply thinned_drop, IH.
  - destruct (Ascii.eqb x o && has_char c r).
    + apply thinned_space, thinned_drop, IH.
    + apply thinned_keep, IH.
Qed.

Lemma sub_aside_no_aside (o c : ascii) (inside : bool) (s : string) :
  o <> " "%char -> c <> " "%char ->
  no_aside o c (sub_aside_from o c inside s) = true.
Proof.
  intros No Nc. revert inside.
  induction s as [|x r IH]; intro inside; [reflexivity|].
  cbn [sub_aside_from]. destruct inside.
  - destruct (Ascii.eqb x c); apply IH.
  - destruct (Ascii.eqb x o && has_char c r) eqn:E.
    + cbn [no_aside]. rewrite IH, andb_true_r.
      destruct (Ascii.eqb " " o) eqn:E'; [|reflexivity].
      apply Ascii.eqb_eq in E'. congruence.
    + cbn [no_aside]. rewrite IH, andb_true_r.
      destruct (Ascii.eqb x o); [|reflexivity]. cbn [andb negb] in *.
      destruct (has_char c (sub_aside_from o c false r)) eqn:K; [|reflexivity].
      rewrite (thinned_has_char c _ r Nc (thinned_sub_aside o c false r) K) in E.
      discriminate E.
Qed.

Lemma no_aside_fixed (o c : ascii) (s : string) :
  no_aside o c s = true -> sub_aside_from o c false s = s.
Proof.
  induction s as [|x r IH]; intro H; [reflexivity|].
  cbn [no_aside] in H. apply andb_true_iff in H. destruct H as [H1 H2].
  cbn [sub_aside_from]. apply negb_true_iff in H1. rewrite H1, (IH H2).
  reflexivity.
Qed.

Lemma paren_not_space : "("%char <> " "%char /\ ")"%char <> " "%char.
Proof. split; discriminate. Qed.

Lemma bracket_not_space : "["%char <> " "%char /\ "]"%char <> " "%char.
Proof. split; discriminate. Qed.

Lemma clean_text_thinned_from_paren (s : string) :
  no_aside "(" ")" (clean_text s) = true.
Proof.
  destruct paren_not_space as [No Nc]. unfold clean_text, strip.
  apply (thinned_no_aside _ _ _ _ No Nc (thinned_rstrip _)).
  apply (thinned_no_aside _ _ _ _ No Nc (thinned_lstrip _)).
  apply (thinned_no_aside _ _ _ _ No Nc (thinned_sub_space false _)).
  apply (thinned_no_aside _ _ _ _ No Nc (thinned_sub_aside "[" "]" false _)).
  apply sub_aside_no_aside; assumption.
Qed.

Lemma clean_text_thinned_from_bracket (s : string) :
  no_aside "[" "]" (clean_text s) = true.
Proof.
  destruct bracket_not_space as [No Nc]. unfold clean_text, strip.
  apply (thinned_no_aside _ _ _ _ No Nc (thinned_rstrip _)).
  apply (thinned_no_aside _ _ _ _ No Nc (thinned_lstrip _)).
  apply (thinned_no_aside _ _ _ _ No Nc (thinned_sub_space false _)).
  apply sub_aside_no_aside; assumption.
Qed.

Lemma clean_text_tidy (s : string) : tidy (clean_text s) = true.
Proof. unfold clean_text. apply tidy_strip_sub_space. Qed.

Lemma tidy_no_newline (s : string) : tidy s = true -> has_char newline s = false.
Proof.
  unfold tidy. intro H. apply andb_true_iff in H. destruct H as [H _].
  apply (single_spaced_no_other_space true s newline H);
    [reflexivity | discriminate].
Qed.

(** Cleaned text has no whitespace at either end, has no whitespace but
    single spaces between its words, so holds no line break, and holds no
    parenthesis or bracket that is closed further on. *)
Theorem clean_text_normal_form (s : string) :
  tidy (clean_text s) = true /\
  has_char newline (clean_text s) = false /\
  no_aside "(" ")" (clean_text s) = true /\
  no_aside "[" "]" (clean_text s) = true.
Proof.
  split; [apply clean_text_tidy|].
  split; [apply tidy_no_newline, clean_text_tidy|].
  split; [apply clean_text_thinned_from_paren |
          apply clean_text_thinned_from_bracket].
Qed.

Lemma clean_text_fixed (s : string) :
  tidy s = true -> no_aside "(" ")" s = true -> no_aside "[" "]" s = true ->
  clean_text s = s.
Proof.
  intros T P B. unfold clean_text, PAREN_RE_sub, BRACKET_RE_sub.
  rewrite (no_aside_fixed _ _ s P), (no_aside_fixed _ _ s B).
  apply tidy_fixed. exact T.
Qed.

(** Cleaning is idempotent: cleaned text is left as it is by a second
    cleaning. *)
Theorem clean_text_idempotent (s : string) :
  clean_text (clean_text s) = clean_text s.
Proof.
  apply clean_text_fixed.
  - apply clean_text_tidy.
  - apply clean_text_thinned_from_paren.
  - apply clean_text_thinned_from_bracket.
Qed.

(** What the Cleaner writes, the Glossifier reads unchanged: the collapse
    and trim that the Glossifier applies to each line is the identity on
    cleaned text. *)
Theorem glossifier_keeps_cleaned_line (s : string) :
  GlossifierProps.normalized (clean_text s) = clean_text s.
Proof.
  unfold GlossifierProps.normalized. apply tidy_fixed. apply clean_text_tidy.
Qed.

(** ** What the drains take from the buffer *)

(** The lines, each followed by a newline. *)
Fixpoint join_lines (lines : list string) : string :=
  match lines with
  | [] => EmptyString
  | l :: r => l ++ String newline (join_lines r)
  end.

(** The pieces one after the other. *)
Fixpoint join (pieces : list string) : string :=
  match pieces with
  | [] => EmptyString
  | p :: r => p ++ join r
  end.

Lemma split_lines_conserves (s : string) :
  s = join_lines (fst (split_lines s)) ++ snd (split_lines s) /\
  has_char newline (snd (split_lines s)) = false /\
  Forall (fun l => has_char newline l = false) (fst (split_lines s)).
Proof.
  induction s as [|c r [E [R L]]]; [repeat split; constructor|].
  cbn [split_lines]. destruct (split_lines r) as [ls rest]. cbn [fst snd] in *.
  destruct (Ascii.eqb c newline) eqn:N.
  - apply Ascii.eqb_eq in N. subst c. cbn [fst snd join_lines].
    repeat split; [cbn [append]; rewrite <- E; reflexivity | exact R |].
    constructor; [reflexivity | exact L].
  - destruct ls as [|l ls']; cbn [fst snd join_lines] in *.
    + repeat split; [cbn [append] in *; rewrite <- E; reflexivity | | constructor].
      cbn [has_char]. rewrite N. exact R.
    + repeat split; [cbn [append]; rewrite <- E; reflexivity | exact R |].
      inversion L as [|l0 ls0 Hl Hls]; subst.
      constructor; [|exact Hls]. cbn [has_char]. rewrite N. exact Hl.
Qed.

(** The newline drain takes from the buffer its complete lines and
    nothing else: the lines, each with its newline, followed by the buffer
    left spell the buffer as it was; no line holds a newline, and none is left
    in the buffer; the lines that are not blank are handed to [emit] in
    order, and the drain reports whether there was one. *)
Theorem newline_drain_conserves_text (buf : string) (st : state) :
  exists lines,
    buf = join_lines lines ++ snd (fst (drain_newlines buf st)) /\
    Forall (fun l => has_char newline l = false) lines /\
    has_char newline (snd (fst (drain_newlines buf st))) = false /\
    snd (drain_newlines buf st) = emit_all (List.filter nonblank lines) st /\
    fst (fst (drain_newlines buf st)) =
      negb (is_nil (List.filter nonblank lines)).
Proof.
  exists (fst (split_lines buf)).
  unfold drain_newlines. rewrite CleanerProps.drain_newlines_from_segments.
  cbn [fst snd orb].
  destruct (split_lines_conserves buf) as [E [R L]].
  repeat split; assumption.
Qed.

(** A sentence: text without a terminator, then one terminator. *)
Fixpoint is_sentence (s : string) : bool :=
  match s with
  | EmptyString => false
  | String c r =>
      match r with
      | EmptyString => is_end c
      | _ => negb (is_end c) && is_sentence r
      end
  end.

Fixpoint no_end (s : string) : bool :=
  match s with
  | EmptyString => true
  | String c r => negb (is_end c) && no_end r
  end.

Lemma split_sentences_conserves (s : string) :
  s = join (fst (split_sentences s)) ++ snd (split_sentences s) /\
  no_end (snd (split_sentences s)) = true /\
  Forall (fun x => is_sentence x = true) (fst (split_sentences s)).
Proof.
  induction s as [|c r [E [R L]]]; [repeat split; constructor|].
  cbn [split_sentences]. destruct (split_sentences r) as [ss rest].
  cbn [fst snd] in *.
  destruct (is_end c) eqn:N.
  - cbn [fst snd join]. repeat split;
      [cbn [append]; rewrite <- E; reflexivity | exact R |].
    constructor; [cbn; exact N | exact L].
  - destruct ss as [|x ss']; cbn [fst snd join] in *.
    + repeat split; [cbn [append] in *; rewrite <- E; reflexivity | | constructor].
      cbn [no_end]. rewrite N. exact R.
    + repeat split; [cbn [append]; rewrite <- E; reflexivity | exact R |].
      inversion L as [|x0 ss0 Hx Hss]; subst.
      constructor; [|exact Hss].
      destruct x as [|c' x']; [discriminate Hx|].
      change (is_sentence (String c (String c' x')))
        with (negb (is_end c) && is_sentence (String c' x')).
      rewrite N. exact Hx.
Qed.

(** The punctuation drain takes from the buffer its complete sentences
    and nothing else: the sentences followed by the buffer left spell the
    buffer as it was; each sentence ends with its only terminator, none is
    left in the buffer; every sentence is handed to [emit], in order. *)
Theorem punct_drain_conserves_text (buf : string) (st : state) :
  exists sentences,
    buf = join sentences ++ snd (fst (drain_punct buf st)) /\
    Forall (fun x => is_sentence x = true) sentences /\
    no_end (snd (fst (drain_punct buf st))) = true /\
    snd (drain_punct buf st) = emit_all sentences st /\
    fst (fst (drain_punct buf st)) = negb (is_nil sentences).
Proof.
  exists (fst (split_sentences buf)).
  unfold drain_punct. rewrite CleanerProps.drain_punct_from_segments.
  cbn [fst snd orb].
  destruct (split_sentences_conserves buf) as [E [R L]].
  repeat split; assumption.
Qed.

(** ** What is written, along a run *)

(** The written lines are fit for a line-oriented file, and the window
    holds distinct keys, at most 64 of them. *)
Definition healthy (st : state) : Prop :=
  Forall (fun l => nonempty l = true /\ tidy l = true /\
                   has_char newline l = false) (out st) /\
  List.length (recent st) <= window /\
  NoDup (recent st).

Lemma healthy_initial : healthy initial.
Proof.
  split; [constructor|]. split; [cbn; unfold window; lia | constructor].
Qed.

Lemma deque_append_length {A : Type} (n : nat) (d : list A) (x : A) :
  0 < n -> List.length d <= n -> List.length (deque_append n d x) <= n.
Proof.
  intros Hn H. unfold deque_append.
  destruct (Nat.leb n (List.length d)) eqn:E; rewrite List.length_app.
  - apply Nat.leb_le in E. destruct d; cbn in *; lia.
  - apply Nat.leb_gt in E. cbn. lia.
Qed.

Lemma deque_append_NoDup {A : Type} (n : nat) (d : list A) (x : A) :
  NoDup d -> ~ In x d -> NoDup (deque_append n d x).
Proof.
  intros H N. unfold deque_append.
  assert (K : forall d', NoDup d' -> ~ In x d' -> NoDup (d' ++ [x])).
  { intros d' H' N'. apply List.NoDup_app; [exact H' | repeat constructor; auto |].
    intros y Hy [E|[]]. subst. contradiction. }
  destruct (Nat.leb n (List.length d)).
  - apply K.
    + destruct d; [constructor|]. inversion H; assumption.
    + intro I. apply N. destruct d; [destruct I | right; exact I].
  - apply K; assumption.
Qed.

Lemma emit_outcome (raw : string) (st : state) :
  emit raw st = st \/
  (nonempty (clean_text raw) = true /\
   ~ In (lower (clean_text raw)) (recent st) /\
   emit raw st =
     mkState (deque_append window (recent st) (lower (clean_text raw)))
             (out st ++ [clean_text raw])).
Proof.
  unfold emit. destruct (nonempty (clean_text raw)) eqn:N; cbn [negb];
    [|left; reflexivity].
  destruct (seen (lower (clean_text raw)) (recent st)) eqn:S;
    [left; reflexivity|].
  right. repeat split. intro I.
  apply CleanerProps.seen_In in I. congruence.
Qed.

Lemma healthy_emit (raw : string) (st : state) :
  healthy st ->
  healthy (emit raw st) /\ exists new, out (emit raw st) = (out st ++ new)%list.
Proof.
  intros [O [L N]].
  destruct (emit_outcome raw st) as [E|[Ne [Ni E]]]; rewrite E.
  - split; [repeat split; assumption|].
    exists []. rewrite List.app_nil_r. reflexivity.
  - split; [|exists [clean_text raw]; reflexivity].
    cbn [out recent]. repeat split.
    + apply Forall_app. split; [exact O|].
      constructor; [|constructor]. repeat split.
      * exact Ne.
      * apply clean_text_tidy.
      * apply tidy_no_newline, clean_text_tidy.
    + apply deque_append_length; [unfold window; lia | exact L].
    + apply deque_append_NoDup; assumption.
Qed.

Lemma healthy_emit_all (segs : list string) (st : state) :
  healthy st ->
  healthy (emit_all segs st) /\
  exists new, out (emit_all segs st) = (out st ++ new)%list.
Proof.
  revert st. induction segs as [|r segs IH]; intros st H.
  - split; [exact H|]. exists []. cbn. rewrite List.app_nil_r. reflexivity.
  - cbn [emit_all List.fold_left]. fold (emit_all segs (emit r st)).
    destruct (healthy_emit r st H) as [H1 [n1 E1]].
    destruct (IH _ H1) as [H2 [n2 E2]].
    split; [exact H2|]. exists (n1 ++ n2)%list.
    rewrite E2, E1, <- List.app_assoc. reflexivity.
Qed.

Lemma healthy_cycles (idle : float) (arrivals : list arrival)
  (buf : string) (st : state) :
  healthy st ->
  healthy (snd (cycles idle arrivals buf st)) /\
  exists new, out (snd (cycles idle arrivals buf st)) = (out st ++ new)%list.
Proof.
  revert buf st. induction arrivals as [|a rest IH]; intros buf st H.
  - split; [exact H|]. exists []. cbn. rewrite List.app_nil_r. reflexivity.
  - cbn [cycles].
    pose proof (CleanerProps.cycle_split idle (chunk a) (last_activity a)
                  (now a) buf st) as C.
    rewrite CleanerProps.cycle_body_emits in C. cbn [fst snd] in C.
    rewrite C.
    destruct (healthy_emit_all
                (fst (cycle_segments
                        (idle_due idle (last_activity a) (now a))
                        (buf ++ chunk a))) st H) as [H1 [n1 E1]].
    destruct (IH (overflow_valve
                    (snd (cycle_segments
                            (idle_due idle (last_activity a) (now a))
                            (buf ++ chunk a)))) _ H1) as [H2 [n2 E2]].
    split; [exact H2|]. exists (n1 ++ n2)%list.
    rewrite E2, E1, <- List.app_assoc. reflexivity.
Qed.

(** Along a run of the Cleaner, whatever arrives and whenever: the output
    is only appended to; every line written is non-empty cleaned text
    without a line break, so it occupies one line of the file; and the
    dedupe window never holds more than 64 keys nor the same key twice. *)
Theorem output_stays_healthy (idle : float) (arrivals : list arrival) :
  let st := snd (cycles idle arrivals EmptyString initial) in
  Forall (fun l => nonempty l = true /\ tidy l = true /\
                   has_char newline l = false) (out st) /\
  List.length (recent st) <= 64 /\
  NoDup (recent st) /\
  forall more,
    exists new,
      out (snd (cycles idle (arrivals ++ more) EmptyString initial)) =
        (out st ++ new)%list.
Proof.
  intro st.
  destruct (healthy_cycles idle arrivals EmptyString initial healthy_initial)
    as [[O [L N]] _].
  fold st in O, L, N. repeat split; try assumption.
  intro more.
  assert (K : forall arrivals buf st0,
             cycles idle (arrivals ++ more) buf st0 =
             cycles idle more (fst (cycles idle arrivals buf st0))
                    (snd (cycles idle arrivals buf st0))).
  { clear. intro arrivals. induction arrivals as [|a rest IH]; intros buf st0.
    - reflexivity.
    - cbn [List.app cycles].
      destruct (cycle idle (chunk a) (last_activity a) (now a) buf st0)
        as [buf' st']. apply IH. }
  rewrite K. fold st.
  destruct (healthy_cycles idle more
              (fst (cycles idle arrivals EmptyString initial)) st
              (conj O (conj L N))) as [_ E].
  exact E.
Qed.

End CleanerMore.

(* ===================================================================== *)
(** * The followers: [follow_file] and [follow_lines] *)
(* ===================================================================== *)

(** The three files carry the same tailing loop.  It is modelled against
    the file system it observes: the path names an inode or nothing, every
    inode has a content, and an open handle keeps reading the inode it
    was opened on.  Each pass of the loop observes the file system three
    times at most, when it reads, when it calls [os.stat] and when it
    reopens; what the writer did in between is what distinguishes the
    observations.  A character is a byte (ASCII text without carriage
    returns), so that [len(chunk)] and [st_size] count the same units. *)

Module Follower.
Import Py.

Record world : Type := mkWorld {
  path_ino : option nat;
  data : nat -> string
}.

(** The open handle: the inode it reads, and [pos]. *)
Record cursor : Type := mkCursor {
  ino : nat;
  pos : nat
}.

(** [f.read()]: what the inode of the handle holds from [pos] on. *)
Definition read (c : cursor) (w : world) : string :=
  drop (pos c) (data w (ino c)).

(** [_open()]: [None] stands for the [FileNotFoundError] of [open]. *)
Definition reopen (from_start : bool) (w : world) : option cursor :=
  match path_ino w with
  | Some i =>
      Some (mkCursor i (if from_start then 0
                        else String.length (data w i)))
  | None => None
  end.

(** [os.stat(path)]: [None] stands for [FileNotFoundError]. *)
Definition os_stat (w : world) : option (nat * nat) :=
  match path_ino w with
  | Some i => Some (i, String.length (data w i))
  | None => None
  end.

(** What one pass of the loop observes. *)
Record pass : Type := mkPass {
  at_read : world;
  at_stat : world;
  at_open : world
}.

(** The end of a pass, "detect rotation/truncate": the cursor the next
    pass starts with, [None] when reopening raised. *)
Definition recheck (from_start : bool) (p : pass) (c : cursor) : option cursor :=
  match os_stat (at_stat p) with
  | None => Some c
  | Some (st_ino, st_size) =>
      if negb (Nat.eqb st_ino (ino c)) || Nat.ltb st_size (pos c)
      then reopen from_start (at_open p)
      else Some c
  end.

(** One pass of the loop of [follow_file]: the chunk yielded, if any, and
    the cursor after the pass. *)
Definition follow_pass (from_start : bool) (p : pass) (c : cursor)
  : list string * option cursor :=
  let chunk := read c (at_read p) in
  if nonempty chunk
  then ([chunk],
        recheck from_start p (mkCursor (ino c) (pos c + String.length chunk)))
  else ([], recheck from_start p c).

(** [follow_file] over the passes given: the chunks yielded, and the cursor
    left, [None] when a reopening raised and ended the generator. *)
Fixpoint follow_file (from_start : bool) (passes : list pass) (c : cursor)
  : list string * option cursor :=
  match passes with
  | [] => ([], Some c)
  | p :: rest =>
      match follow_pass from_start p c with
      | (chunks, Some c') =>
          let '(more, final) := follow_file from_start rest c' in
          ((chunks ++ more)%list, final)
      | (chunks, None) => (chunks, None)
      end
  end.

(** ** The line buffer of [follow_lines] *)

Definition line_feed : ascii := ascii_of_nat 10.

Lemma split_once_consumes (sep : ascii) (s a b : string) :
  split_once sep s = Some (a, b) -> String.length b < String.length s.
Proof.
  revert a b; induction s as [|c r IH]; cbn [split_once]; intros a b H;
    [discriminate|].
  destruct (Ascii.eqb c sep).
  - inversion H; subst. cbn. lia.
  - destruct (split_once sep r) as [[a' b']|]; [|discriminate].
    inversion H; subst. specialize (IH _ _ eq_refl). cbn. lia.
Qed.

(** [while "\n" in buf: line, buf = buf.split("\n", 1); yield line]: the
    lines yielded and the buffer left. *)
Equations? take_lines (buf : string) : list string * string
  by wf (String.length buf) lt :=
  take_lines buf with inspect (split_once line_feed buf) := {
    | exist _ (Some (line, rest)) _ =>
        let '(lines, kept) := take_lines rest in (line :: lines, kept)
    | exist _ None _ => ([], buf) }.
Proof.
  eapply split_once_consumes; eassumption.
Qed.

(** [idle = max(0, idle_ms) / 1000.0]. *)
Definition idle_of (idle_ms : Z) : result float :=
  bind (float_of_int (Z.max 0 idle_ms)) (fun f => truediv f 1000%float).

(** What [follow_lines] keeps from pass to pass. *)
Record tail : Type := mkTail {
  handle : cursor;
  buf : string;
  last : float
}.

(** The clock readings of a pass: the one taken after a chunk was read or
    for the idle test, and the one taken after an idle flush. *)
Record clock : Type := mkClock {
  reading : float;
  after_flush : float
}.

(** [if idle and buf and (time.time() - last) >= idle]. *)
Definition flush_due (idle : float) (t : tail) (k : clock) : bool :=
  negb (PrimFloat.eqb idle PrimFloat.zero) && nonempty (buf t) &&
  PrimFloat.leb idle (PrimFloat.sub (reading k) (last t)).

(** One pass of the loop of [follow_lines]: the lines yielded, and what is
    kept; the handle is [None] when reopening raised. *)
Definition lines_pass (idle : float) (from_start : bool) (p : pass) (k : clock)
  (t : tail) : list string * (option cursor * string * float) :=
  let chunk := read (handle t) (at_read p) in
  if nonempty chunk
  then
    let c := mkCursor (ino (handle t)) (pos (handle t) + String.length chunk) in
    let '(lines, kept) := take_lines (buf t ++ chunk) in
    (lines, (recheck from_start p c, kept, reading k))
  else if flush_due idle t k
  then ([buf t], (recheck from_start p (handle t), EmptyString, after_flush k))
  else ([], (recheck from_start p (handle t), buf t, last t)).

(** [follow_lines] over the passes given. *)
Fixpoint follow_lines (idle : float) (from_start : bool)
  (passes : list (pass * clock)) (t : tail)
  : list string * option tail :=
  match passes with
  | [] => ([], Some t)
  | (p, k) :: rest =>
      match lines_pass idle from_start p k t with
      | (lines, (Some c, kept, last')) =>
          let '(more, final) :=
            follow_lines idle from_start rest (mkTail c kept last') in
          ((lines ++ more)%list, final)
      | (lines, (None, _, _)) => (lines, None)
      end
  end.

End Follower.

(* ===================================================================== *)
(** * Properties of the followers *)
(* ===================================================================== *)

Module FollowerProps.
Import Py Follower.

(** ** Prefixes and suffixes *)

(** The first [k] characters. *)
Fixpoint take (k : nat) (s : string) : string :=
  match k, s with
  | O, _ => EmptyString
  | S _, EmptyString => EmptyString
  | S k', String c r => String c (take k' r)
  end.

Fixpoint join (pieces : list string) : string :=
  match pieces with
  | [] => EmptyString
  | p :: r => p ++ join r
  end.

Lemma append_empty_r (s : string) : s ++ EmptyString = s.
Proof. induction s as [|c r IH]; cbn [append]; [|rewrite IH]; reflexivity. Qed.

Lemma append_assoc (a b c : string) : (a ++ b) ++ c = a ++ (b ++ c).
Proof. induction a as [|x a IH]; cbn [append]; [|rewrite IH]; reflexivity. Qed.

Lemma length_append (a b : string) :
  String.length (a ++ b) = String.length a + String.length b.
Proof. induction a as [|x a IH]; cbn; [|rewrite IH]; reflexivity. Qed.

Lemma join_app (a b : list string) : join (a ++ b) = join a ++ join b.
Proof.
  induction a as [|x a IH]; [reflexivity|].
  cbn [List.app join]. rewrite IH, append_assoc. reflexivity.
Qed.

Lemma take_drop (k : nat) (s : string) : take k s ++ drop k s = s.
Proof.
  revert s. induction k as [|k IH]; intros [|c r]; cbn; try reflexivity.
  rewrite IH. reflexivity.
Qed.

Lemma drop_length (k : nat) (s : string) :
  String.length (drop k s) = String.length s - k.
Proof.
  revert s. induction k as [|k IH]; intros [|c r]; cbn; auto with arith.
Qed.

Lemma take_all (s : string) : take (String.length s) s = s.
Proof. induction s as [|c r IH]; cbn; [|rewrite IH]; reflexivity. Qed.

Lemma take_append (k : nat) (a b : string) :
  k <= String.length a -> take k (a ++ b) = take k a.
Proof.
  revert a. induction k as [|k IH]; intros [|c r] H; cbn in *;
    try reflexivity; [lia|].
  rewrite IH by lia. reflexivity.
Qed.

Lemma drop_empty (k : nat) (s : string) :
  k <= String.length s -> drop k s = EmptyString -> k = String.length s.
Proof.
  intros H E. pose proof (drop_length k s) as L. rewrite E in L. cbn in L. lia.
Qed.

Lemma nonempty_length (s : string) : nonempty s = false -> s = EmptyString.
Proof. destruct s; [reflexivity | discriminate]. Qed.

(** ** A file that is only appended to *)

(** From [w] to [w'] the content of inode [i] has only grown. *)
Definition grows (i : nat) (w w' : world) : Prop :=
  exists more, data w' i = data w i ++ more.

(** From the world [w] on, through the reads and the stats of the passes
    in order, the path names inode [i] and the content of [i] only grows. *)
Fixpoint appended_only (i : nat) (w : world) (passes : list pass) : Prop :=
  match passes with
  | [] => True
  | p :: rest =>
      grows i w (at_read p) /\
      grows i (at_read p) (at_stat p) /\
      path_ino (at_stat p) = Some i /\
      appended_only i (at_stat p) rest
  end.

(** The world observed last: the stat of the last pass. *)
Fixpoint final_world (w : world) (passes : list pass) : world :=
  match passes with
  | [] => w
  | p :: rest => final_world (at_stat p) rest
  end.

(** The world of the last read. *)
Fixpoint final_read (w : world) (passes : list pass) : world :=
  match passes with
  | [] => w
  | p :: rest => final_read (at_read p) rest
  end.

Lemma grows_length (i : nat) (w w' : world) :
  grows i w w' -> String.length (data w i) <= String.length (data w' i).
Proof. intros [more E]. rewrite E, length_append. lia. Qed.

Lemma grows_take (i k : nat) (w w' : world) :
  grows i w w' -> k <= String.length (data w i) ->
  take k (data w' i) = take k (data w i).
Proof. intros [more E] H. rewrite E. apply take_append. exact H. Qed.

Lemma grows_final (i : nat) (w : world) (passes : list pass) :
  appended_only i w passes -> grows i w (final_world w passes).
Proof.
  revert w. induction passes as [|p rest IH]; intros w H.
  - exists EmptyString. rewrite append_empty_r. reflexivity.
  - destruct H as [[m1 E1] [[m2 E2] [_ H]]].
    destruct (IH _ H) as [m3 E3]. exists (m1 ++ m2 ++ m3).
    cbn [final_world]. rewrite E3, E2, E1, !append_assoc. reflexivity.
Qed.

Lemma follow_file_steady (from_start : bool) (passes : list pass) :
  forall (c : cursor) (w : world),
    pos c <= String.length (data w (ino c)) ->
    appended_only (ino c) w passes ->
    exists chunks c',
      follow_file from_start passes c = (chunks, Some c') /\
      ino c' = ino c /\
      pos c <= pos c' /\
      pos c' <= String.length (data (final_world w passes) (ino c)) /\
      take (pos c') (data (final_world w passes) (ino c)) =
        take (pos c) (data w (ino c)) ++ join chunks /\
      Forall (fun x => nonempty x = true) chunks /\
      (passes <> [] ->
       pos c' = String.length (data (final_read w passes) (ino c))).
Proof.
  induction passes as [|p rest IH]; intros c w Hpos H.
  - exists [], c. cbn. rewrite append_empty_r.
    repeat split; try lia; try constructor. congruence.
  - destruct H as [G1 [G2 [P H]]].
    pose proof (grows_length _ _ _ G1) as L1.
    pose proof (grows_length _ _ _ G2) as L2.
    set (i := ino c) in *.
    set (chunk := read c (at_read p)).
    assert (Lc : pos c + String.length chunk
                 = String.length (data (at_read p) i)).
    { unfold chunk, read. fold i. rewrite drop_length. lia. }
    assert (R : forall c1, ino c1 = i ->
                  pos c1 = String.length (data (at_read p) i) ->
                  recheck from_start p c1 = Some c1).
    { intros c1 I1 P1. unfold recheck, os_stat. rewrite P, I1, Nat.eqb_refl.
      cbn [negb orb].
      destruct (Nat.ltb (String.length (data (at_stat p) i)) (pos c1)) eqn:E;
        [|reflexivity].
      apply Nat.ltb_lt in E. lia. }
    assert (T : take (String.length (data (at_read p) i)) (data (at_stat p) i)
                = take (pos c) (data w i) ++ chunk).
    { rewrite (grows_take i _ _ _ G2 (le_n _)), take_all.
      rewrite <- (grows_take i (pos c) _ _ G1 Hpos).
      unfold chunk, read. fold i. symmetry. apply take_drop. }
    cbn [follow_file final_world final_read]. unfold follow_pass. fold chunk.
    destruct (nonempty chunk) eqn:N.
    + set (c1 := mkCursor (ino c) (pos c + String.length chunk)).
      assert (R1 : recheck from_start p c1 = Some c1)
        by (apply R; [reflexivity | exact Lc]).
      rewrite R1.
      destruct (IH c1 (at_stat p)) as [chunks [c' [E [I' [P1 [P2 [Tk [F Lr]]]]]]]].
      * cbn [pos ino c1]. fold i. lia.
      * exact H.
      * rewrite E. exists (chunk :: chunks), c'.
        cbn [ino pos c1] in *. fold i in Tk, P2 |- *.
        split; [reflexivity|]. split; [exact I'|]. split; [lia|].
        split; [exact P2|]. split.
        -- rewrite Tk. cbn [join]. rewrite Lc, T, append_assoc. reflexivity.
        -- split; [constructor; assumption|].
           intros _. destruct rest as [|p2 rest2].
           ++ cbn in E. inversion E; subst. cbn. exact Lc.
           ++ apply Lr. discriminate.
    + apply nonempty_length in N.
      assert (Pc : pos c = String.length (data (at_read p) i)).
      { rewrite N in Lc. cbn in Lc. lia. }
      assert (R1 : recheck from_start p c = Some c) by (apply R; auto).
      rewrite R1.
      destruct (IH c (at_stat p)) as [chunks [c' [E [I' [P1 [P2 [Tk [F Lr]]]]]]]].
      * fold i. lia.
      * exact H.
      * rewrite E. exists chunks, c'. fold i in Tk, P2 |- *.
        split; [reflexivity|]. split; [exact I'|]. split; [exact P1|].
        split; [exact P2|]. split.
        -- rewrite Tk. f_equal.
           rewrite Pc at 1. rewrite T, N, append_empty_r. reflexivity.
        -- split; [exact F|].
           intros _. destruct rest as [|p2 rest2].
           ++ cbn in E. inversion E; subst. cbn. exact Pc.
           ++ apply Lr. discriminate.
Qed.

(** On a file that is only appended to, [follow_file] never reopens and
    never raises, and delivers every character exactly once and in order:
    the chunks yielded, none of them empty, spell the content between the
    offset the follower started at and the offset it has reached, and after
    each pass that offset is the end of the file as it was when read. *)
Theorem appended_file_is_delivered_once
  (from_start : bool) (passes : list pass) (c : cursor) (w : world) :
  pos c <= String.length (data w (ino c)) ->
  appended_only (ino c) w passes ->
  exists chunks c',
    follow_file from_start passes c = (chunks, Some c') /\
    ino c' = ino c /\
    pos c <= pos c' /\
    pos c' <= String.length (data (final_world w passes) (ino c)) /\
    take (pos c') (data (final_world w passes) (ino c)) =
      take (pos c) (data w (ino c)) ++ join chunks /\
    Forall (fun x => nonempty x = true) chunks /\
    (passes <> [] ->
     pos c' = String.length (data (final_read w passes) (ino c))).
Proof.
  intros Hpos H.
  destruct (follow_file_steady from_start passes c w Hpos H)
    as [chunks [c' K]].
  exists chunks, c'. exact K.
Qed.

(** A file system whose path names inode [i], which holds [content]. *)
Definition one_file (i : nat) (content : string) : world :=
  mkWorld (Some i) (fun j => if Nat.eqb j i then content else EmptyString).

Definition still (w : world) : pass := mkPass w w w.

Lemma appended_file_is_delivered_once_witness :
  exists chunks c',
    follow_file false
      [mkPass (one_file 7 "ab") (one_file 7 "abc") (one_file 7 "abc");
       still (one_file 7 "abcde");
       still (one_file 7 "abcde")]
      (mkCursor 7 1) = (chunks, Some c') /\
    join chunks = "bcde" /\ pos c' = 5.
Proof.
  destruct (appended_file_is_delivered_once false
              [mkPass (one_file 7 "ab") (one_file 7 "abc") (one_file 7 "abc");
               still (one_file 7 "abcde");
               still (one_file 7 "abcde")]
              (mkCursor 7 1) (one_file 7 "a"))
    as [chunks [c' [E [_ [_ [_ [T [_ L]]]]]]]].
  - cbn. lia.
  - cbn. repeat split;
      first [ reflexivity
            | exists "b"; reflexivity | exists "c"; reflexivity
            | exists "de"; reflexivity | exists ""; reflexivity ].
  - exists chunks, c'. split; [exact E|].
    assert (P : pos c' = 5) by (apply L; discriminate).
    split; [|exact P].
    rewrite P in T. cbn in T. inversion T. reflexivity.
Defined.

(** ** Rotation and truncation *)

(** The stat of the pass finds the path naming another inode than the
    handle, or a file shorter than the offset reached. *)
Definition detects (p : pass) (c : cursor) : Prop :=
  exists st_ino st_size,
    os_stat (at_stat p) = Some (st_ino, st_size) /\
    (st_ino <> ino c \/ st_size < pos c).

Lemma recheck_detected (from_start : bool) (p : pass) (c : cursor) :
  detects p c -> recheck from_start p c = reopen from_start (at_open p).
Proof.
  intros [i [sz [S D]]]. unfold recheck. rewrite S.
  destruct D as [D|D].
  - apply Nat.eqb_neq in D. rewrite D. reflexivity.
  - apply Nat.ltb_lt in D. rewrite D, orb_true_r. reflexivity.
Qed.

(** The offset after the chunk of the pass has been read. *)
Definition advanced (p : pass) (c : cursor) : cursor :=
  mkCursor (ino c) (pos c + String.length (read c (at_read p))).

Lemma follow_pass_split (from_start : bool) (p : pass) (c : cursor) :
  follow_pass from_start p c =
    (if nonempty (read c (at_read p)) then [read c (at_read p)] else [],
     recheck from_start p (advanced p c)).
Proof.
  unfold follow_pass, advanced.
  destruct (nonempty (read c (at_read p))) eqn:N; [reflexivity|].
  apply nonempty_length in N. rewrite N. cbn [String.length].
  rewrite Nat.add_0_r. destruct c; reflexivity.
Qed.

(** When a pass detects that the file was replaced or truncated, the
    handle is reopened on the inode the path names then: at offset zero
    when following from the start, and at the end of that file otherwise,
    so that, in that mode, what the new file holds at the reopening is
    never delivered.  What the old handle could still read is delivered
    before.  The next pass reads the new inode from the offset it was
    opened at. *)
Theorem replaced_file_is_reopened
  (from_start : bool) (p next : pass) (c : cursor) (j : nat) :
  detects p (advanced p c) ->
  path_ino (at_open p) = Some j ->
  let start := if from_start then 0
               else String.length (data (at_open p) j) in
  follow_pass from_start p c =
    (if nonempty (read c (at_read p)) then [read c (at_read p)] else [],
     Some (mkCursor j start)) /\
  fst (follow_pass from_start next (mkCursor j start)) =
    (if nonempty (drop start (data (at_read next) j))
     then [drop start (data (at_read next) j)] else []).
Proof.
  intros D O start. split.
  - rewrite follow_pass_split, (recheck_detected _ _ _ D).
    unfold reopen. rewrite O. reflexivity.
  - rewrite follow_pass_split. reflexivity.
Qed.

Lemma replaced_file_is_reopened_witness :
  follow_file true
    [mkPass (one_file 7 "old tail") (one_file 8 "new") (one_file 8 "new");
     still (one_file 8 "new text")]
    (mkCursor 7 4) = (["tail"; "new text"], Some (mkCursor 8 8)) /\
  follow_file false
    [mkPass (one_file 7 "old tail") (one_file 8 "new") (one_file 8 "new");
     still (one_file 8 "new text")]
    (mkCursor 7 4) = (["tail"; " text"], Some (mkCursor 8 8)) /\
  follow_pass true
    (mkPass (one_file 7 "old tail") (one_file 8 "new") (one_file 8 "new"))
    (mkCursor 7 4) = (["tail"], Some (mkCursor 8 0)).
Proof.
  split; [reflexivity|]. split; [reflexivity|].
  apply (replaced_file_is_reopened true
           (mkPass (one_file 7 "old tail") (one_file 8 "new") (one_file 8 "new"))
           (still (one_file 8 "new text")) (mkCursor 7 4) 8).
  - exists 8, 3. split; [reflexivity|]. left. discriminate.
  - reflexivity.
Defined.

(** A path that is missing when the pass calls [os.stat] is waited for:
    the handle and the offset are kept, also when the old file could have
    been found replaced.  A path that is missing when a detected
    replacement makes the pass reopen it ends the follower with the
    [FileNotFoundError] of [open]; the chunk read in that pass has been
    yielded before. *)
Theorem missing_path_is_fatal_only_at_reopen
  (from_start : bool) (p : pass) (c : cursor) :
  (path_ino (at_stat p) = None ->
   follow_pass from_start p c =
     (if nonempty (read c (at_read p)) then [read c (at_read p)] else [],
      Some (advanced p c))) /\
  (detects p (advanced p c) ->
   path_ino (at_open p) = None ->
   forall rest,
     follow_file from_start (p :: rest) c =
       (if nonempty (read c (at_read p)) then [read c (at_read p)] else [],
        None)).
Proof.
  split.
  - intro M. rewrite follow_pass_split. unfold recheck, os_stat. rewrite M.
    reflexivity.
  - intros D M rest. cbn [follow_file].
    rewrite follow_pass_split, (recheck_detected _ _ _ D).
    unfold reopen. rewrite M. reflexivity.
Qed.

Definition no_file : world := mkWorld None (fun _ => EmptyString).

Lemma missing_path_is_fatal_only_at_reopen_witness :
  follow_pass true (mkPass (one_file 7 "abc") no_file no_file) (mkCursor 7 1)
    = (["bc"], Some (mkCursor 7 3)) /\
  follow_file true
    [mkPass (one_file 7 "abc") (one_file 8 "") no_file; still (one_file 8 "x")]
    (mkCursor 7 1) = (["bc"], None).
Proof.
  split.
  - apply (proj1 (missing_path_is_fatal_only_at_reopen true
                    (mkPass (one_file 7 "abc") no_file no_file)
                    (mkCursor 7 1))).
    reflexivity.
  - apply (proj2 (missing_path_is_fatal_only_at_reopen true
                    (mkPass (one_file 7 "abc") (one_file 8 "") no_file)
                    (mkCursor 7 1))).
    + exists 8, 0. split; [reflexivity|]. left. discriminate.
    + reflexivity.
Defined.

(** ** The line buffer *)

Lemma take_lines_split (b : string) : take_lines b = Cleaner.split_lines b.
Proof.
  funelim (take_lines b).
  - match goal with
    | IH : take_lines rest = Cleaner.split_lines rest |- _ => rewrite IH
    end.
    rewrite (CleanerProps.split_lines_cut _ _ _ e).
    destruct (Cleaner.split_lines rest); reflexivity.
  - symmetry. apply CleanerProps.split_lines_whole. exact e.
Qed.

Lemma split_lines_append (a b : string) :
  Cleaner.split_lines (a ++ b) =
    ((fst (Cleaner.split_lines a)
      ++ fst (Cleaner.split_lines (snd (Cleaner.split_lines a) ++ b)))%list,
     snd (Cleaner.split_lines (snd (Cleaner.split_lines a) ++ b))).
Proof.
  induction a as [|c r IH].
  - cbn. destruct (Cleaner.split_lines b); reflexivity.
  - cbn [append Cleaner.split_lines]. rewrite IH.
    destruct (Cleaner.split_lines r) as [lr kr]. cbn [fst snd].
    destruct (Ascii.eqb c Cleaner.newline) eqn:E.
    + reflexivity.
    + destruct lr as [|l lr'].
      * cbn [fst snd List.app append Cleaner.split_lines]. rewrite E.
        destruct (Cleaner.split_lines (kr ++ b)) as [lb kb].
        destruct lb; reflexivity.
      * reflexivity.
Qed.

(** The line buffer of [follow_lines] neither loses nor invents text: the
    lines it yields, each with its newline, followed by the partial line
    it keeps spell the buffer; no line holds a newline and none is kept.
    And it does not matter how the text is cut into chunks: a text fed
    in two chunks yields the lines it yields when fed at once, and leaves
    the same partial line. *)
Theorem line_buffer_conserves_and_chunks :
  (forall b : string,
      b = CleanerMore.join_lines (fst (take_lines b)) ++ snd (take_lines b) /\
      Forall (fun l => has_char line_feed l = false) (fst (take_lines b)) /\
      has_char line_feed (snd (take_lines b)) = false) /\
  (forall b chunk1 chunk2 : string,
      take_lines (b ++ chunk1 ++ chunk2) =
        ((fst (take_lines (b ++ chunk1))
          ++ fst (take_lines (snd (take_lines (b ++ chunk1)) ++ chunk2)))%list,
         snd (take_lines (snd (take_lines (b ++ chunk1)) ++ chunk2)))).
Proof.
  split.
  - intro b. rewrite take_lines_split.
    destruct (CleanerMore.split_lines_conserves b) as [E [R L]].
    repeat split; assumption.
  - intros b chunk1 chunk2. rewrite !take_lines_split.
    rewrite <- append_assoc. apply split_lines_append.
Qed.

(** ** Lines against chunks *)

Lemma take_lines_append (a b : string) :
  take_lines (a ++ b) =
    ((fst (take_lines a) ++ fst (take_lines (snd (take_lines a) ++ b)))%list,
     snd (take_lines (snd (take_lines a) ++ b))).
Proof. rewrite !take_lines_split. apply split_lines_append. Qed.

Lemma split_once_absent (c : ascii) (s : string) :
  has_char c s = false -> split_once c s = None.
Proof.
  induction s as [|x r IH]; intro H; [reflexivity|].
  cbn [has_char] in H. apply orb_false_iff in H. destruct H as [H1 H2].
  cbn [split_once]. rewrite H1, (IH H2). reflexivity.
Qed.

Lemma take_lines_partial (b : string) :
  has_char line_feed b = false -> take_lines b = ([], b).
Proof.
  intro H. rewrite take_lines_split.
  apply CleanerProps.split_lines_whole. apply split_once_absent. exact H.
Qed.

Lemma take_lines_kept (b : string) :
  has_char line_feed (snd (take_lines b)) = false.
Proof.
  rewrite take_lines_split.
  destruct (CleanerMore.split_lines_conserves b) as [_ [R _]]. exact R.
Qed.

Lemma follow_lines_idle_off (idle : float) (from_start : bool)
  (passes : list (pass * clock)) :
  PrimFloat.eqb idle PrimFloat.zero = true ->
  forall t : tail,
    has_char line_feed (buf t) = false ->
    fst (follow_lines idle from_start passes t) =
      fst (take_lines
             (buf t ++ join (fst (follow_file from_start (List.map fst passes)
                                    (handle t))))) /\
    match snd (follow_lines idle from_start passes t) with
    | Some t' =>
        snd (follow_file from_start (List.map fst passes) (handle t))
          = Some (handle t') /\
        buf t' =
          snd (take_lines
                 (buf t ++ join (fst (follow_file from_start
                                        (List.map fst passes) (handle t)))))
    | None =>
        snd (follow_file from_start (List.map fst passes) (handle t)) = None
    end.
Proof.
  intro Z. induction passes as [|[p k] rest IH]; intros t B.
  - cbn. rewrite append_empty_r, (take_lines_partial _ B).
    split; [reflexivity|]. split; reflexivity.
  - cbn [List.map fst follow_lines follow_file].
    rewrite follow_pass_split. unfold lines_pass.
    assert (F : flush_due idle t k = false)
      by (unfold flush_due; rewrite Z; reflexivity).
    destruct (nonempty (read (handle t) (at_read p))) eqn:N.
    + fold (advanced p (handle t)).
      pose proof (take_lines_kept (buf t ++ read (handle t) (at_read p))) as K.
      destruct (take_lines (buf t ++ read (handle t) (at_read p)))
        as [lines kept] eqn:TL.
      cbn [snd] in K.
      destruct (recheck from_start p (advanced p (handle t))) as [c'|].
      * specialize (IH (mkTail c' kept (reading k)) K). cbn [handle buf] in IH.
        destruct (follow_lines idle from_start rest (mkTail c' kept (reading k)))
          as [more final].
        destruct (follow_file from_start (List.map fst rest) c')
          as [chunks cf].
        cbn [fst snd join List.app] in *. destruct IH as [IH1 IH2].
        rewrite <- append_assoc, take_lines_append, TL. cbn [fst snd].
        split; [rewrite IH1; reflexivity | exact IH2].
      * cbn [fst snd join List.app]. rewrite append_empty_r, TL.
        split; reflexivity.
    + rewrite F.
      assert (A : advanced p (handle t) = handle t).
      { unfold advanced. apply nonempty_length in N. rewrite N. cbn.
        rewrite Nat.add_0_r. destruct (handle t); reflexivity. }
      rewrite A.
      destruct (recheck from_start p (handle t)) as [c'|].
      * specialize (IH (mkTail c' (buf t) (last t)) B). cbn [handle buf] in IH.
        destruct (follow_lines idle from_start rest
                    (mkTail c' (buf t) (last t))) as [more final].
        destruct (follow_file from_start (List.map fst rest) c')
          as [chunks cf].
        cbn [fst snd List.app] in *. exact IH.
      * cbn [fst snd join]. rewrite append_empty_r, (take_lines_partial _ B).
        split; reflexivity.
Qed.

(** With the idle flush off, [follow_lines] yields exactly the complete
    lines of the text that [follow_file] yields on the same passes, after
    the partial line it started with, and keeps the partial line that text
    ends with; a reopening does not reset the partial line, so the end of
    the old file and the beginning of the new one make one line.  Both
    end with the same handle, or both with the same failure to reopen. *)
Theorem follow_lines_splits_followed_text
  (idle : float) (from_start : bool) (passes : list (pass * clock)) (t : tail) :
  PrimFloat.eqb idle PrimFloat.zero = true ->
  has_char line_feed (buf t) = false ->
  let chunks := fst (follow_file from_start (List.map fst passes) (handle t)) in
  fst (follow_lines idle from_start passes t) =
    fst (take_lines (buf t ++ join chunks)) /\
  match snd (follow_lines idle from_start passes t) with
  | Some t' =>
      snd (follow_file from_start (List.map fst passes) (handle t))
        = Some (handle t') /\
      buf t' = snd (take_lines (buf t ++ join chunks))
  | None =>
      snd (follow_file from_start (List.map fst passes) (handle t)) = None
  end.
Proof.
  intros Z B chunks. exact (follow_lines_idle_off idle from_start passes Z t B).
Qed.

Definition at_noon : clock := mkClock 0%float 0%float.

Lemma follow_lines_splits_followed_text_witness :
  fst (follow_lines 0%float true
         [(mkPass (one_file 7 "one" ) (one_file 8 "") (one_file 8 ""), at_noon);
          (still (one_file 8 ("two" ++ String line_feed "three")), at_noon)]
         (mkTail (mkCursor 7 0) EmptyString 0%float))
    = ["onetwo"].
Proof.
  destruct (follow_lines_splits_followed_text 0%float true
              [(mkPass (one_file 7 "one" ) (one_file 8 "") (one_file 8 ""),
                at_noon);
               (still (one_file 8 ("two" ++ String line_feed "three")),
                at_noon)]
              (mkTail (mkCursor 7 0) EmptyString 0%float))
    as [L _]; [reflexivity | reflexivity |].
  rewrite L. vm_compute. reflexivity.
Defined.

End FollowerProps.

(* ===================================================================== *)
(** * The main loop of the Glossifier, and its records downstream *)
(* ===================================================================== *)

Module PipelineMore.
Import Py Json Glossifier.

(** ** The records written *)

(** The [input] of a record. *)
Definition input_of (rec : jval) : string :=
  match rec with
  | JObj d =>
      match dict_get "input" d with
      | Some (JStr l) => l
      | _ => EmptyString
      end
  | _ => EmptyString
  end.

Definition inputs (st : state) : list string := List.map input_of (written st).

(** What the loop keeps true: the deque holds 8 lines at most, its last
    line is the input of the last record, no record has the input of the
    record before it, and every input is a non-empty line without
    whitespace at its ends or doubled inside. *)
Definition loop_inv (st : state) : Prop :=
  List.length (recent_lines st) <= 8 /\
  deque_last (recent_lines st) = deque_last (inputs st) /\
  GlossifierMore.adjacent_distinct (inputs st) = true /\
  Forall (fun l => nonempty l = true /\ TextNormal.tidy l = true) (inputs st).

Lemma loop_inv_initial : loop_inv initial.
Proof. repeat split; cbn; try lia; constructor. Qed.

Lemma loop_inv_step (cfg : config) (raw : string) (st st' : state) :
  loop_inv st ->
  step cfg raw st = Ok st' ->
  loop_inv st' /\ List.length (written st') <= S (List.length (written st)).
Proof.
  intros [L [D [A F]]] H. unfold step in H.
  set (line := strip (sub_space raw)) in *.
  destruct (nonempty line) eqn:N; cbn [negb] in H;
    [|inversion H; subst; repeat split; auto].
  destruct (repeats_last line (recent_lines st)) eqn:R;
    [inversion H; subst; repeat split; auto|].
  destruct (map_gloss_to_queue (sent_to_gloss line) (lex cfg) (tween_ms cfg)
              (rate cfg)) as [queue|e]; [|discriminate H].
  cbn [bind] in H. inversion H; subst st'. clear H.
  unfold loop_inv, inputs. cbn [recent_lines written].
  rewrite List.map_app, List.length_app. cbn [List.map List.length input_of].
  change (input_of (record line (sent_to_gloss line) queue
                      (sentence_pause_ms cfg))) with line.
  fold (inputs st).
  split; [|lia]. repeat split.
  - apply CleanerMore.deque_append_length; [lia | exact L].
  - rewrite GlossifierProps.deque_last_append,
      GlossifierProps.deque_last_snoc. reflexivity.
  - rewrite GlossifierMore.adjacent_distinct_snoc, A, <- D. cbn [andb].
    unfold repeats_last in R.
    destruct (deque_last (recent_lines st)) as [l|]; [|reflexivity].
    rewrite String.eqb_sym, R. reflexivity.
  - apply Forall_app. split; [exact F|].
    constructor; [|constructor]. split; [exact N|].
    apply TextNormal.tidy_strip_sub_space.
Qed.

Lemma loop_inv_run (cfg : config) (raws : list string) :
  forall st st' : state,
    loop_inv st ->
    run cfg raws st = Ok st' ->
    loop_inv st' /\
    List.length (written st') <= List.length (written st) + List.length raws.
Proof.
  induction raws as [|raw raws IH]; intros st st' I H.
  - cbn in H. inversion H; subst. split; [exact I | lia].
  - cbn [run] in H. destruct (step cfg raw st) as [st1|e] eqn:S;
      [|discriminate H].
    cbn [bind] in H.
    destruct (loop_inv_step cfg raw st st1 I S) as [I1 L1].
    destruct (IH st1 st' I1 H) as [I2 L2].
    split; [exact I2|]. cbn [List.length]. lia.
Qed.

(** Along a run of the Glossifier that raised nothing: at most one record
    is written for each line read; no record has the same input as the
    record before it; every input is a non-empty line with no whitespace at
    its ends and single spaces only inside; and the deque of recent lines
    holds at most 8 lines, the last of which is the input of the last
    record. *)
Theorem main_loop_invariants (cfg : config) (raws : list string) (st : state) :
  run cfg raws initial = Ok st ->
  List.length (written st) <= List.length raws /\
  GlossifierMore.adjacent_distinct (inputs st) = true /\
  Forall (fun l => nonempty l = true /\ TextNormal.tidy l = true) (inputs st) /\
  List.length (recent_lines st) <= 8 /\
  deque_last (recent_lines st) = deque_last (inputs st).
Proof.
  intro H.
  destruct (loop_inv_run cfg raws initial st loop_inv_initial H)
    as [[L [D [A F]]] N].
  cbn in N. repeat split; assumption.
Qed.

Lemma main_loop_invariants_witness :
  exists st,
    run GlossifierProps.sample_config
      ["hello  world"; " hello world "; ""; "xyz"; "xyz"; "hello world"]
      initial = Ok st /\
    inputs st = ["hello world"; "xyz"; "hello world"] /\
    List.length (written st) <= 6 /\
    GlossifierMore.adjacent_distinct (inputs st) = true.
Proof.
  destruct (run GlossifierProps.sample_config
              ["hello  world"; " hello world "; ""; "xyz"; "xyz"; "hello world"]
              initial) as [st|e] eqn:R; [|vm_compute in R; discriminate R].
  exists st.
  destruct (main_loop_invariants GlossifierProps.sample_config _ st R)
    as [L [A _]].
  split; [reflexivity|]. split; [|split; assumption].
  vm_compute in R. inversion R. reflexivity.
Defined.

(** ** Records of the Glossifier in the Streamer *)

(** The queue item is a tween, or the clip of one of the glosses with the
    asset of its lexicon entry. *)
Definition from_lexicon (lex : dict) (gloss : list string) (item : jval)
  : Prop :=
  (exists ms, item = tween ms) \/
  (exists g d label dur,
      In g gloss /\ lookup lex g = JObj d /\
      item = clip label (get_default d "asset" JNull) dur).

(** The asset is the truthy [asset] of the lexicon entry of one of the
    glosses. *)
Definition lexicon_asset (lex : dict) (gloss : list string) (a : jval) : Prop :=
  truthy a = true /\
  exists g d, In g gloss /\ lookup lex g = JObj d /\
              get_default d "asset" JNull = a.

(** The text of an asset that is a string. *)
Definition text_of (a : jval) : string :=
  match a with JStr s => s | _ => EmptyString end.

Lemma entry_clip_asset (g : string) (entry : jval) (rate : float) (c : jval) :
  entry_clip g entry rate = Ok c ->
  exists d label dur,
    entry = JObj d /\ c = clip label (get_default d "asset" JNull) dur.
Proof.
  unfold entry_clip. intro H.
  destruct entry as [ | | | | |d]; try discriminate H.
  cbn [py_get bind] in H.
  destruct (clip_duration (get_default d "dur_ms" (JInt 1000)) rate)
    as [dur|]; [|discriminate H].
  cbn [bind] in H. inversion H.
  exists d, (get_default d "label" (JStr g)), dur. split; reflexivity.
Qed.

Lemma map_loop_from_lexicon (lex : dict) (tween_ms : Z) (rate : float)
  (len : nat) (all : list string) (gloss : list string) :
  forall (i : nat) (queue q : list jval),
    (forall g, In g gloss -> In g all) ->
    map_loop lex tween_ms rate len i gloss queue = Ok q ->
    Forall (from_lexicon lex all) queue ->
    Forall (from_lexicon lex all) q.
Proof.
  induction gloss as [|g rest IH]; intros i queue q Sub H F.
  - cbn in H. inversion H; subst. exact F.
  - assert (Sub' : forall g', In g' rest -> In g' all)
      by (intros g' H'; apply Sub; right; exact H').
    cbn [map_loop] in H.
    destruct (truthy (lookup lex g)); [|exact (IH _ _ _ Sub' H F)].
    destruct (entry_clip g (lookup lex g) rate) as [c|] eqn:Ec;
      [|discriminate H].
    cbn [bind] in H.
    destruct (entry_clip_asset _ _ _ _ Ec) as [d [label [dur [L E]]]].
    assert (Fc : from_lexicon lex all c).
    { right. exists g, d, label, dur.
      split; [apply Sub; left; reflexivity|]. split; assumption. }
    apply (IH _ _ _ Sub' H).
    destruct (negb (tween_ms =? 0)%Z && Nat.ltb i (len - 1)).
    + apply Forall_app. split; [apply Forall_app; split; [exact F|]|].
      * constructor; [exact Fc | constructor].
      * constructor; [|constructor]. left. exists tween_ms. reflexivity.
    + apply Forall_app. split; [exact F|].
      constructor; [exact Fc | constructor].
Qed.

Lemma map_loop_dicts (lex : dict) (gloss : list string) (q : list jval) :
  Forall (from_lexicon lex gloss) q ->
  List.forallb StreamerMore.is_dict q = true.
Proof.
  intro F. apply List.forallb_forall. intros item I.
  rewrite Forall_forall in F.
  destruct (F item I) as [[ms E]|[g [d [label [dur [_ [_ E]]]]]]];
    subst; reflexivity.
Qed.

Lemma emitted_asset_from_lexicon (lex : dict) (gloss : list string)
  (a item : jval) :
  from_lexicon lex gloss item ->
  StreamerMore.clip_with_asset a item ->
  lexicon_asset lex gloss a.
Proof.
  intros F [d' [E [T [A Tr]]]].
  destruct F as [[ms E']|[g [d [label [dur [I [L E']]]]]]].
  - rewrite E' in E. unfold tween in E. inversion E. subst d'.
    vm_compute in T. discriminate T.
  - rewrite E' in E. unfold clip in E. inversion E. subst d'.
    split; [exact Tr|]. exists g, d. split; [exact I|]. split; [exact L|].
    exact A.
Qed.

Section Writes.

Variable json_loads : string -> option jval.

(** The writes stop at the first asset that is not a string. *)
Lemma write_assets_outcome (assets : list jval) (file0 : list string) :
  fst (Streamer.write_assets assets file0) =
    (if List.forallb StreamerProps.is_string assets
     then Ok tt else Raise TypeError) /\
  (List.forallb StreamerProps.is_string assets = true ->
   snd (Streamer.write_assets assets file0) =
     (file0 ++ List.map text_of assets)%list).
Proof.
  revert file0. induction assets as [|a assets IH]; intro file0.
  - cbn. rewrite List.app_nil_r. split; reflexivity.
  - destruct a; cbn [Streamer.write_assets List.forallb
                       StreamerProps.is_string andb fst snd];
      try (split; [reflexivity | discriminate]).
    destruct (IH (file0 ++ [s])%list) as [I1 I2].
    split; [exact I1|]. intro S. rewrite (I2 S), <- List.app_assoc.
    reflexivity.
Qed.

Lemma run_one_record (l : string) (obj : jval) (assets : list jval)
  (last last' : jval) (file0 : list string) :
  nonempty (strip l) = true ->
  json_loads (strip l) = Some obj ->
  Streamer.process_record obj last = (Ok assets, last') ->
  Streamer.failure (Streamer.run json_loads [l] file0 last) =
    (if List.forallb StreamerProps.is_string assets
     then None else Some TypeError) /\
  Streamer.last_label (Streamer.run json_loads [l] file0 last) = last' /\
  (List.forallb StreamerProps.is_string assets = true ->
   Streamer.file (Streamer.run json_loads [l] file0 last) =
     (file0 ++ List.map text_of assets)%list).
Proof.
  intros N D P. cbn [Streamer.run]. unfold Streamer.process_line.
  rewrite N. cbn [negb]. rewrite D, P.
  destruct (write_assets_outcome assets file0) as [W1 W2].
  destruct (Streamer.write_assets assets file0) as [[u|e] file1];
    cbn [fst snd] in W1, W2;
    destruct (List.forallb StreamerProps.is_string assets);
    try discriminate W1.
  - cbn. repeat split. intros _. apply W2. reflexivity.
  - inversion W1; subst e. cbn. repeat split. discriminate.
Qed.

End Writes.

(** A line that decodes to a record built by the Glossifier, in the
    Streamer.  Processing the line never raises, whatever the last emitted
    label: the queue of the record holds dictionaries only.  It yields at
    most one asset per queue item, and every asset yielded is the truthy
    asset of the lexicon entry of one of the glosses.  The run over the line
    ends without an exception exactly when these assets are all strings,
    with their texts appended to the output file; an asset that is not a
    string ends it with the [TypeError] of the write. *)
Theorem streamer_accepts_glossifier_records
  (json_loads : string -> option jval)
  (gloss : list string) (lex : dict) (tween_ms : Z) (rate : float)
  (queue : list jval) (line : string) (pause : Z)
  (l : string) (file0 : list string) (last : jval) :
  map_gloss_to_queue gloss lex tween_ms rate = Ok queue ->
  nonempty (strip l) = true ->
  json_loads (strip l) = Some (record line gloss queue pause) ->
  exists assets last',
    Streamer.process_record (record line gloss queue pause) last
      = (Ok assets, last') /\
    List.length assets <= List.length queue /\
    Forall (lexicon_asset lex gloss) assets /\
    Streamer.failure (Streamer.run json_loads [l] file0 last) =
      (if List.forallb StreamerProps.is_string assets
       then None else Some TypeError) /\
    Streamer.last_label (Streamer.run json_loads [l] file0 last) = last' /\
    (List.forallb StreamerProps.is_string assets = true ->
     Streamer.file (Streamer.run json_loads [l] file0 last) =
       (file0 ++ List.map text_of assets)%list).
Proof.
  intros H N J.
  assert (F : Forall (from_lexicon lex gloss) queue).
  { apply (map_loop_from_lexicon lex tween_ms rate (List.length gloss) gloss
             gloss 0 [] queue); [auto | exact H | constructor]. }
  pose proof (map_loop_dicts lex gloss queue F) as D.
  destruct (StreamerMore.only_clip_assets_are_emitted_aux queue [] last D)
    as [new [last' [V [A L]]]].
  cbn [List.app] in V.
  assert (P : Streamer.process_record (record line gloss queue pause) last
              = (Ok new, last')).
  { unfold Streamer.process_record, record, py_get, get_default.
    cbn [dict_get String.eqb Ascii.eqb Bool.eqb py_iter]. exact V. }
  exists new, last'. split; [exact P|]. split; [exact L|].
  split.
  - rewrite Forall_forall in A, F. apply Forall_forall. intros a I.
    destruct (A a I) as [item [Iq C]].
    exact (emitted_asset_from_lexicon lex gloss a item (F item Iq) C).
  - exact (run_one_record json_loads l _ new last last' file0 N J P).
Qed.

(** A lexicon whose second entry has a number for asset. *)
Definition numbered_lex : dict :=
  [("hello", JObj [("label", JStr "HELLO"); ("asset", JStr "hello.mp4")]);
   ("world", JObj [("label", JStr "WORLD"); ("asset", JInt 7)])].

Definition hello_world_line : string :=
  dq "{'input': 'hello world', 'gloss': ['HELLO', 'WORLD'], 'queue': [{'label': 'HELLO', 'type': 'clip', 'asset': 'hello.mp4', 'dur_ms': 1000}, {'label': '_TWEEN', 'type': 'meta', 'dur_ms': 100}, {'label': 'WORLD', 'type': 'clip', 'asset': 'world.mp4', 'dur_ms': 1000}], 'sentence_pause_ms': 250}".

Definition numbered_line : string :=
  dq "{'input': 'hello world', 'gloss': ['HELLO', 'WORLD'], 'queue': [{'label': 'HELLO', 'type': 'clip', 'asset': 'hello.mp4', 'dur_ms': 1000}, {'label': '_TWEEN', 'type': 'meta', 'dur_ms': 100}, {'label': 'WORLD', 'type': 'clip', 'asset': 7, 'dur_ms': 1000}], 'sentence_pause_ms': 250}".

Lemma streamer_accepts_glossifier_records_witness :
  (exists assets last',
      Streamer.process_record
        (record "hello world" ["HELLO"; "WORLD"]
           [clip (JStr "HELLO") (JStr "hello.mp4") 1000; tween 100;
            clip (JStr "WORLD") (JStr "world.mp4") 1000] 250) JNull
        = (Ok assets, last') /\
      List.length assets <= 3 /\
      Forall (lexicon_asset GlossifierProps.sample_lex ["HELLO"; "WORLD"])
        assets /\
      Streamer.failure (Streamer.run loads [hello_world_line] ["old.mp4"] JNull)
        = (if List.forallb StreamerProps.is_string assets
           then None else Some TypeError) /\
      Streamer.last_label
        (Streamer.run loads [hello_world_line] ["old.mp4"] JNull) = last' /\
      (List.forallb StreamerProps.is_string assets = true ->
       Streamer.file (Streamer.run loads [hello_world_line] ["old.mp4"] JNull)
         = (["old.mp4"] ++ List.map text_of assets)%list)) /\
  Streamer.run loads [hello_world_line] ["old.mp4"] JNull =
    Streamer.mkOutcome ["old.mp4"; "hello.mp4"; "world.mp4"] (JStr "WORLD")
      None /\
  (exists assets last',
      Streamer.process_record
        (record "hello world" ["HELLO"; "WORLD"]
           [clip (JStr "HELLO") (JStr "hello.mp4") 1000; tween 100;
            clip (JStr "WORLD") (JInt 7) 1000] 250) JNull
        = (Ok assets, last') /\
      List.length assets <= 3 /\
      Forall (lexicon_asset numbered_lex ["HELLO"; "WORLD"]) assets /\
      Streamer.failure (Streamer.run loads [numbered_line] ["old.mp4"] JNull)
        = (if List.forallb StreamerProps.is_string assets
           then None else Some TypeError) /\
      Streamer.last_label
        (Streamer.run loads [numbered_line] ["old.mp4"] JNull) = last' /\
      (List.forallb StreamerProps.is_string assets = true ->
       Streamer.file (Streamer.run loads [numbered_line] ["old.mp4"] JNull)
         = (["old.mp4"] ++ List.map text_of assets)%list)) /\
  Streamer.run loads [numbered_line] ["old.mp4"] JNull =
    Streamer.mkOutcome ["old.mp4"; "hello.mp4"] (JStr "WORLD")
      (Some TypeError).
Proof.
  split; [|split; [vm_compute; reflexivity|split; [|vm_compute; reflexivity]]].
  - apply (streamer_accepts_glossifier_records loads ["HELLO"; "WORLD"]
             GlossifierProps.sample_lex 100%Z 1%float);
      vm_compute; reflexivity.
  - apply (streamer_accepts_glossifier_records loads ["HELLO"; "WORLD"]
             numbered_lex 100%Z 1%float);
      vm_compute; reflexivity.
Defined.

(** ** Tween placement, whatever the lexicon *)

Lemma tweens_follow_clips_witness :
  GlossifierProps.tweens_guarded false
    [clip (JStr "HELLO") (JStr "hello.mp4") 1000; tween 100] = true /\
  (forall t r,
      [clip (JStr "HELLO") (JStr "hello.mp4") 1000; tween 100] = t :: r ->
      is_tween t = false).
Proof.
  destruct (GlossifierProps.tweens_follow_clips ["HELLO"; "XYZ"]
              GlossifierProps.sample_lex 100%Z 1%float
              [clip (JStr "HELLO") (JStr "hello.mp4") 1000; tween 100])
    as [G [H _]].
  - vm_compute. reflexivity.
  - split; assumption.
Defined.

End PipelineMore.
